(** * gogotelehash: switch controller, cipher-set helpers and NAT mapper

    A shallow embedding of three source files of the repository:

    - package [cipherset] (it follows the bridge test in
      [internal/modules/bridge/bridge_test.go]): [SelectCSID],
      [Parts.MarshalJSON], [Parts.UnmarshalJSON];
    - [controller_main.go]: the mailbox loop of [main_controller];
    - [transports/nat/nat_transport.go]: the NAT mapper.

    Go maps are [gmap]s.  Pointers to heap objects that the code shares
    between two maps are modelled by keeping both maps and writing through
    both where the code writes through an alias.  Calls on collaborators
    that are not part of these files (the JSON codec, the NAT device, the
    wrapped transport, line objects) are either interfaces (type classes)
    or recorded as events in the trace an operation returns. *)

From Stdlib Require Import ZArith Strings.Byte Strings.Ascii Strings.String.
From stdpp Require Import gmap strings list fin_maps pretty.

Local Open Scope Z_scope.

(** ** Iterating over a Go map

    [for k, v := range m] visits every entry once, in an order the
    language leaves unspecified.  [range m] is one such enumeration; the
    only thing known about it is that it is a permutation of the
    entries. *)

Class GoRange := {
  range : ∀ {K} `{Countable K} {V}, gmap K V → list (K * V);
  range_perm : ∀ {K} `{Countable K} {V} (m : gmap K V),
      range m ≡ₚ map_to_list m
}.

(** The enumeration stdpp itself uses is an instance. *)
Definition range_map_to_list : GoRange :=
  {| range := λ K _ _ V (m : gmap K V), map_to_list m;
     range_perm := λ K _ _ V m, reflexivity _ |}.

Section range_facts.
Context `{GoRange} `{Countable K} {V : Type}.
Implicit Types m : gmap K V.

Lemma elem_of_range m k v : (k, v) ∈ range m ↔ m !! k = Some v.
Proof. rewrite (range_perm m). apply elem_of_map_to_list. Qed.

Lemma NoDup_fst_range m : NoDup ((range m).*1).
Proof. rewrite (range_perm m). apply NoDup_fst_map_to_list. Qed.

Lemma range_empty : range (∅ : gmap K V) = [].
Proof.
  apply Permutation_nil_r. rewrite (range_perm ∅). by rewrite map_to_list_empty.
Qed.
End range_facts.

(** ** uint8

    A Go [uint8] is one byte.  [Byte.byte] has exactly the 256 values, so
    no range side condition is needed; order is the order of the numeric
    values. *)

Abbreviation uint8 := Byte.byte.

#[global] Instance uint8_eq_dec : EqDecision uint8 := Byte.byte_eq_dec.
#[global] Instance uint8_countable : Countable uint8 :=
  inj_countable Byte.to_N Byte.of_N Byte.of_to_N.

Definition uint8_val (b : uint8) : Z := Z.of_N (Byte.to_N b).

Lemma uint8_val_inj b1 b2 : uint8_val b1 = uint8_val b2 → b1 = b2.
Proof.
  unfold uint8_val. intros E. apply N2Z.inj in E.
  apply (f_equal Byte.of_N) in E. rewrite !Byte.of_to_N in E. congruence.
Qed.

Lemma uint8_val_range b : 0 ≤ uint8_val b < 256.
Proof.
  unfold uint8_val. pose proof (Byte.to_N_bounded b) as Hb. lia.
Qed.

(** * Package cipherset *)

Module cipherset.

(** [var ErrInvalidKeys], [var ErrInvalidParts]; [ErrJSON] stands for any
    error of the JSON decoder, and [PanicIndex] for the run-time panic of
    an index out of range. *)
Inductive error :=
  | ErrInvalidKeys
  | ErrInvalidParts
  | ErrJSON
  | PanicIndex.

#[global] Instance error_eq_dec : EqDecision error.
Proof. solve_decision. Defined.

(** ** SelectCSID *)

Section select.
(** [type Key interface]: the keys themselves are opaque here. *)
Context {Key : Type}.

(** [type Keys map[uint8]Key] *)
Abbreviation Keys := (gmap uint8 Key).

(** The body of the loop of [SelectCSID]:
    [if _, f := b[csid]; f && csid > max { max = csid }]. *)
Definition SelectCSID_body (b : Keys) (max csid : uint8) : uint8 :=
  if bool_decide (is_Some (b !! csid)) && (uint8_val max <? uint8_val csid)
  then csid else max.

(** The loop over the CSIDs of [a] in the order [order]. *)
Definition SelectCSID_loop (order : list uint8) (b : Keys) (max : uint8) : uint8 :=
  foldl (SelectCSID_body b) max order.

(** [func SelectCSID(a, b Keys) uint8]: [var max uint8] starts at zero. *)
Definition SelectCSID `{GoRange} (a b : Keys) : uint8 :=
  SelectCSID_loop (range a).*1 b x00.

(** A Go call returns its results and, when the signature has one, an
    error.  [SelectCSID] has the single result [uint8]: the outcome of
    the call never carries an error. *)
Definition SelectCSID_call `{GoRange} (a b : Keys) : uint8 * option error :=
  (SelectCSID a b, None).

(** [c] is a CSID of both key sets. *)
Definition common (a b : Keys) (c : uint8) : Prop :=
  is_Some (a !! c) ∧ is_Some (b !! c).
End select.

(** ** encoding/hex, for one byte *)

Definition hextable : list ascii :=
  Eval cbv in list_ascii_of_string "0123456789abcdef".

Definition hex_digit (n : Z) : ascii :=
  nth (Z.to_nat n) hextable "0"%char.

(** [hex.EncodeToString(src)]: two characters per byte,
    [hextable[v>>4]] then [hextable[v&0x0f]]. *)
Fixpoint hex_EncodeToString (src : list uint8) : string :=
  match src with
  | [] => EmptyString
  | v :: rest =>
      String (hex_digit (Z.shiftr (uint8_val v) 4))
        (String (hex_digit (Z.land (uint8_val v) 15)) (hex_EncodeToString rest))
  end.

(** [fromHexChar]: digits and both cases of the letters a to f. *)
Definition fromHexChar (c : ascii) : option Z :=
  let n := Z.of_N (N_of_ascii c) in
  if (48 <=? n) && (n <=? 57) then Some (n - 48)
  else if (97 <=? n) && (n <=? 102) then Some (n - 97 + 10)
  else if (65 <=? n) && (n <=? 70) then Some (n - 65 + 10)
  else None.

Definition uint8_of_Z (n : Z) : uint8 :=
  default x00 (Byte.of_N (Z.to_N (n mod 256))).

(** [hex.DecodeString(s)]: pairs of hex characters; a character that is
    not a hex digit, or an odd length, is an error ([None]). *)
Fixpoint hex_DecodeString (s : string) : option (list uint8) :=
  match s with
  | EmptyString => Some []
  | String _ EmptyString => None
  | String c1 (String c2 rest) =>
      match fromHexChar c1, fromHexChar c2 with
      | Some a, Some b =>
          match hex_DecodeString rest with
          | Some bs => Some (uint8_of_Z (Z.lor (Z.shiftl a 4) b) :: bs)
          | None => None
          end
      | _, _ => None
      end
  end.

(** ** encoding/json, for [map[string]string]

    The codec is Go's standard library, not code of this repository.  It
    is used through its contract: a map of strings that are plain text
    survives [json.Marshal] followed by [json.Unmarshal].  (Go replaces
    bytes that are not valid UTF-8 on marshalling; strings of ASCII
    characters are never affected.)  The encoded document is opaque to the
    code below, which only hands it from one function to the other. *)

Definition is_ascii_text (s : string) : Prop :=
  Forall (λ c, (N_of_ascii c < 128)%N) (list_ascii_of_string s).

#[global] Instance is_ascii_text_dec s : Decision (is_ascii_text s).
Proof. unfold is_ascii_text. apply _. Defined.

Class JSON := {
  json_document : Type;
  json_Marshal : gmap string string → json_document;
  json_Unmarshal : json_document → option (gmap string string);
  json_roundtrip : ∀ m : gmap string string,
      map_Forall (λ k v, is_ascii_text k ∧ is_ascii_text v) m →
      json_Unmarshal (json_Marshal m) = Some m
}.

(** *** Text that is not ASCII

    A Go string is a sequence of bytes, and [len] counts bytes; a
    character of UTF-8 text takes one to four of them.  [utf8_valid] is
    [utf8.ValidString]: the well-formed sequences of the Unicode standard
    (no overlong forms, no surrogates, nothing above U+10FFFF). *)

Definition byte_val (c : ascii) : Z := Z.of_N (N_of_ascii c).

Definition byte_in (lo hi : Z) (c : ascii) : bool :=
  (lo <=? byte_val c) && (byte_val c <=? hi).

Fixpoint utf8_valid (s : string) : bool :=
  match s with
  | EmptyString => true
  | String c0 s1 =>
      if byte_in 0 127 c0 then utf8_valid s1
      else
        match s1 with
        | EmptyString => false
        | String c1 s2 =>
            if byte_in 194 223 c0 then byte_in 128 191 c1 && utf8_valid s2
            else
              match s2 with
              | EmptyString => false
              | String c2 s3 =>
                  if byte_in 224 239 c0 then
                    (if byte_in 224 224 c0 then byte_in 160 191 c1
                     else if byte_in 237 237 c0 then byte_in 128 159 c1
                     else byte_in 128 191 c1)
                    && byte_in 128 191 c2 && utf8_valid s3
                  else
                    match s3 with
                    | EmptyString => false
                    | String c3 s4 =>
                        if byte_in 240 244 c0 then
                          (if byte_in 240 240 c0 then byte_in 144 191 c1
                           else if byte_in 244 244 c0 then byte_in 128 143 c1
                           else byte_in 128 191 c1)
                          && byte_in 128 191 c2 && byte_in 128 191 c3
                          && utf8_valid s4
                        else false
                    end
              end
        end
  end.

(** The number of characters of UTF-8 text ([utf8.RuneCountInString] on
    a valid string): the bytes that do not continue a character. *)
Fixpoint utf8_characters (s : string) : nat :=
  match s with
  | EmptyString => O
  | String c s => ((if byte_in 128 191 c then 0 else 1) + utf8_characters s)%nat
  end.

(** The codec on text that is not ASCII: Go's [encoding/json] writes
    valid UTF-8 as it is (or escaped) and reads it back as it was, so the
    contract holds for every map of valid UTF-8 strings. *)
Class JSON_UTF8 (J : JSON) := {
  json_roundtrip_utf8 : ∀ m : gmap string string,
      map_Forall (λ k v, utf8_valid k = true ∧ utf8_valid v = true) m →
      json_Unmarshal (json_Marshal m) = Some m
}.

(** ** Parts *)

(** [type Parts map[uint8]string] *)
Abbreviation Parts := (gmap uint8 string).

Section parts.
Context `{GoRange} `{JSON}.

(** The loop of [Parts.MarshalJSON]:
    [m[hex.EncodeToString([]byte{k})] = v]. *)
Definition MarshalJSON_loop (kvs : list (uint8 * string))
    (m : gmap string string) : gmap string string :=
  foldl (λ m kv, <[hex_EncodeToString [kv.1] := kv.2]> m) m kvs.

(** [func (p Parts) MarshalJSON() ([]byte, error)]; the error of
    [json.Marshal] is always nil for a map of strings. *)
Definition Parts_MarshalJSON (p : Parts) : json_document :=
  json_Marshal (MarshalJSON_loop (range p) ∅).

(** The loop of [Parts.UnmarshalJSON], with its four early returns. *)
Fixpoint UnmarshalJSON_loop (kvs : list (string * string)) (y : Parts)
    : Parts * option error :=
  match kvs with
  | [] => (y, None)
  | (k, s) :: rest =>
      if bool_decide (String.length k ≠ 2%nat) then (y, Some ErrInvalidParts)
      else if bool_decide (s = EmptyString) then (y, Some ErrInvalidParts)
      else match hex_DecodeString k with
           | None => (y, Some ErrInvalidParts)
           | Some csid =>
               if bool_decide (String.length s ≠ 52%nat)
               then (y, Some ErrInvalidParts)
               else match csid with
                    | csid0 :: _ => UnmarshalJSON_loop rest (<[csid0 := s]> y)
                    | [] => (y, Some PanicIndex)
                    end
           end
  end.

(** [func (p *Parts) UnmarshalJSON(data []byte) error]: the new value
    of [*p] and the error.  [*p] is left alone when the document does
    not decode, and is the partly filled map when an entry is
    refused. *)
Definition Parts_UnmarshalJSON (p : Parts) (data : json_document)
    : Parts * option error :=
  match json_Unmarshal data with
  | None => (p, Some ErrJSON)
  | Some x => UnmarshalJSON_loop (range x) ∅
  end.
End parts.

(** A reference codec whose documents are entry lists; it shows that the
    contract [JSON] can be met. *)
Definition json_entries : JSON :=
  {| json_document := list (string * string);
     json_Marshal := map_to_list;
     json_Unmarshal := λ d, Some (list_to_map d);
     json_roundtrip := λ m _, f_equal Some (list_to_map_to_list m) |}.

#[global] Instance json_entries_utf8 : JSON_UTF8 json_entries.
Proof. split. intros m _. simpl. by rewrite list_to_map_to_list. Qed.

(** ** Facts about SelectCSID *)

Section select_facts.
Context {Key : Type}.
Implicit Types a b : gmap uint8 Key.

Lemma SelectCSID_body_cases b max csid :
  (SelectCSID_body b max csid = csid ∧ is_Some (b !! csid)
     ∧ uint8_val max < uint8_val csid)
  ∨ (SelectCSID_body b max csid = max
     ∧ (is_Some (b !! csid) → uint8_val csid ≤ uint8_val max)).
Proof.
  unfold SelectCSID_body.
  destruct (bool_decide_reflect (is_Some (b !! csid))) as [Hb|Hb]; simpl.
  - destruct (Z.ltb_spec (uint8_val max) (uint8_val csid)); [left|right]; auto.
  - right. split; [done|]. intros; contradiction.
Qed.

(** What the loop computes from a starting maximum [m0]. *)
Lemma SelectCSID_loop_spec order b m0 :
  (SelectCSID_loop order b m0 = m0
     ∨ (SelectCSID_loop order b m0 ∈ order
        ∧ is_Some (b !! SelectCSID_loop order b m0)))
  ∧ uint8_val m0 ≤ uint8_val (SelectCSID_loop order b m0)
  ∧ ∀ c, c ∈ order → is_Some (b !! c) →
         uint8_val c ≤ uint8_val (SelectCSID_loop order b m0).
Proof.
  unfold SelectCSID_loop. revert m0.
  induction order as [|x order IH]; intros m0; simpl.
  - split; [by left|]. split; [lia|]. intros c Hc. by apply elem_of_nil in Hc.
  - destruct (IH (SelectCSID_body b m0 x)) as (Hr & Hge & Hmax).
    destruct (SelectCSID_body_cases b m0 x) as [(E & Hb & Hlt)|(E & Hle)];
      rewrite E in *.
    + split; [|split].
      * right. destruct Hr as [->|[Hin Hs]].
        -- split; [apply elem_of_cons; by left|done].
        -- split; [apply elem_of_cons; by right|done].
      * lia.
      * intros c [->|Hc]%elem_of_cons Hs; [lia|by apply Hmax].
    + split; [|split].
      * destruct Hr as [->|[Hin Hs]]; [by left|right].
        split; [apply elem_of_cons; by right|done].
      * lia.
      * intros c [->|Hc]%elem_of_cons Hs; [specialize (Hle Hs); lia|by apply Hmax].
Qed.

Lemma elem_of_range_keys `{GoRange} a c : c ∈ (range a).*1 ↔ is_Some (a !! c).
Proof.
  rewrite list_elem_of_fmap. split.
  - intros ([k v] & -> & Hin). apply elem_of_range in Hin. by exists v.
  - intros [v Hv]. exists (c, v). split; [done|]. by apply elem_of_range.
Qed.

(** With no shared CSID the loop never assigns [max]. *)
Lemma SelectCSID_loop_disjoint order b m0 :
  (∀ c, c ∈ order → b !! c = None) → SelectCSID_loop order b m0 = m0.
Proof.
  unfold SelectCSID_loop. revert m0.
  induction order as [|x order IH]; intros m0 Hd; simpl; [done|].
  assert (SelectCSID_body b m0 x = m0) as ->.
  { unfold SelectCSID_body. rewrite (Hd x) by (apply elem_of_cons; by left).
    rewrite bool_decide_eq_false_2; [done|]. by intros [? ?]. }
  apply IH. intros c Hc. apply Hd, elem_of_cons. by right.
Qed.

(** C6. Whenever the key sets [a] and [b] share a CSID, [SelectCSID a b]
    is a CSID of both sets and no shared CSID is larger: it is the
    maximum of the CSIDs present in both, whatever the order in which the
    map is traversed. *)
Theorem SelectCSID_max_common `{GoRange} a b :
  (∃ c, common a b c) →
  common a b (SelectCSID a b)
  ∧ ∀ c, common a b c → uint8_val c ≤ uint8_val (SelectCSID a b).
Proof.
  intros [c0 [Ha0 Hb0]]. unfold SelectCSID.
  destruct (SelectCSID_loop_spec (range a).*1 b x00) as (Hr & _ & Hmax).
  assert (∀ c, common a b c →
            uint8_val c ≤ uint8_val (SelectCSID_loop (range a).*1 b x00)) as Hall.
  { intros c [Ha Hb]. apply Hmax; [by apply elem_of_range_keys|done]. }
  split; [|done].
  destruct Hr as [E|[Hin Hs]].
  - pose proof (Hall c0 (conj Ha0 Hb0)) as Hle. rewrite E in Hle |- *.
    pose proof (uint8_val_range c0).
    assert (c0 = x00) as <-; [|by split].
    apply uint8_val_inj. change (uint8_val x00) with 0 in *. lia.
  - split; [by apply elem_of_range_keys|done].
Qed.

(** The selection of the spec's scenario, for any traversal order. *)
Lemma SelectCSID_scenario `{GoRange} (k1 k2 k3 k2' k3' : Key) :
  SelectCSID (<[x1a:=k1]> (<[x2a:=k2]> {[x3a:=k3]}))
             (<[x2a:=k2']> {[x3a:=k3']}) = x3a.
Proof.
  set (a := <[x1a:=k1]> (<[x2a:=k2]> {[x3a:=k3]})).
  set (b := <[x2a:=k2']> {[x3a:=k3']}).
  unfold SelectCSID.
  destruct (SelectCSID_loop_spec (range a).*1 b x00) as (Hr & _ & Hmax).
  assert (uint8_val x3a ≤ uint8_val (SelectCSID_loop (range a).*1 b x00)) as Hle.
  { apply Hmax; [apply elem_of_range_keys|]; subst a b; by eexists. }
  destruct Hr as [E|[_ [v Hs]]].
  - rewrite E in Hle. by vm_compute in Hle.
  - subst b. apply lookup_insert_Some in Hs as [[E _]|[_ Hs]].
    + rewrite <-E in Hle. by vm_compute in Hle.
    + by apply lookup_singleton_Some in Hs as [E _].
Qed.

(** C7, as amended. When the key sets share no CSID, [SelectCSID]
    returns the zero CSID and, having no error result, reports no
    failure. *)
Theorem SelectCSID_none_common `{GoRange} a b :
  (∀ c, ¬ common a b c) →
  SelectCSID_call a b = (x00, None).
Proof.
  intros Hnc. unfold SelectCSID_call, SelectCSID. f_equal.
  apply SelectCSID_loop_disjoint. intros c Hc.
  apply elem_of_range_keys in Hc.
  destruct (b !! c) as [v|] eqn:E; [|done].
  exfalso. apply (Hnc c). split; [done|by exists v].
Qed.

End select_facts.

(** The key sets of the spec's two scenarios, with keys of unit type. *)
Definition keys_1a_2a_3a : gmap uint8 () := <[x1a:=()]> (<[x2a:=()]> {[x3a:=()]}).
Definition keys_2a_3a : gmap uint8 () := <[x2a:=()]> {[x3a:=()]}.
Definition keys_1a : gmap uint8 () := {[x1a:=()]}.
Definition keys_2a : gmap uint8 () := {[x2a:=()]}.

Lemma SelectCSID_max_common_witness :
  (∃ c, common keys_1a_2a_3a keys_2a_3a c)
  ∧ common keys_1a_2a_3a keys_2a_3a
      (SelectCSID (H := range_map_to_list) keys_1a_2a_3a keys_2a_3a)
  ∧ ∀ c, common keys_1a_2a_3a keys_2a_3a c →
         uint8_val c
         ≤ uint8_val (SelectCSID (H := range_map_to_list) keys_1a_2a_3a keys_2a_3a).
Proof.
  assert (∃ c, common keys_1a_2a_3a keys_2a_3a c) as Hex.
  { exists x3a. split; by exists (). }
  split; [exact Hex|].
  exact (SelectCSID_max_common (H := range_map_to_list) _ _ Hex).
Defined.

Example SelectCSID_scenario_run :
  SelectCSID (H := range_map_to_list) keys_1a_2a_3a keys_2a_3a = x3a.
Proof. by vm_compute. Qed.

Lemma keys_1a_2a_disjoint c : ¬ common keys_1a keys_2a c.
Proof.
  intros [[v1 H1] [v2 H2]]. unfold keys_1a, keys_2a in *.
  apply lookup_singleton_Some in H1 as [<- _].
  by apply lookup_singleton_Some in H2 as [? _].
Qed.

(** C7, as stated, fails: keys {0x1a} against {0x2a} share no CSID, and
    the call returns the CSID 0x00 with no error, not [ErrInvalidKeys]. *)
Lemma SelectCSID_no_failure :
  (∀ c, ¬ common keys_1a keys_2a c)
  ∧ SelectCSID_call (H := range_map_to_list) keys_1a keys_2a = (x00, None)
  ∧ (SelectCSID_call (H := range_map_to_list) keys_1a keys_2a).2
      ≠ Some ErrInvalidKeys.
Proof. split; [apply keys_1a_2a_disjoint|]. by vm_compute. Qed.

Lemma SelectCSID_none_common_witness :
  (∀ c, ¬ common keys_1a keys_2a c)
  ∧ SelectCSID_call (H := range_map_to_list) keys_1a keys_2a = (x00, None).
Proof.
  split; [apply keys_1a_2a_disjoint|].
  apply (SelectCSID_none_common (H := range_map_to_list)), keys_1a_2a_disjoint.
Defined.

(** ** Facts about Parts *)

Definition hex_key (k : uint8) : string := hex_EncodeToString [k].

Lemma hex_key_decode k : hex_DecodeString (hex_key k) = Some [k].
Proof. by destruct k. Qed.

Lemma hex_key_length k : String.length (hex_key k) = 2%nat.
Proof. done. Qed.

Lemma hex_key_ascii k : is_ascii_text (hex_key k).
Proof. destruct k; apply (bool_decide_unpack _); by vm_compute. Qed.

#[global] Instance hex_key_inj : Inj (=) (=) hex_key.
Proof.
  intros k1 k2 E. apply (f_equal hex_DecodeString) in E.
  rewrite !hex_key_decode in E. congruence.
Qed.

Section fold_insert.
Context `{Countable K1} `{Countable K2} {V : Type}.

(** Inserting, left to right, the entries of a list whose keys are
    pairwise distinct builds the map of that list. *)
Lemma foldl_insert_list_to_map (f : K1 → K2) (kvs : list (K1 * V))
    (m0 : gmap K2 V) :
  NoDup (f <$> kvs.*1) →
  foldl (λ m kv, <[f kv.1 := kv.2]> m) m0 kvs
  = list_to_map (prod_map f id <$> kvs) ∪ m0.
Proof.
  revert m0. induction kvs as [|[k v] kvs IH]; intros m0 Hnd.
  - simpl. by rewrite (left_id_L ∅ (∪)).
  - rewrite !fmap_cons in Hnd. apply NoDup_cons in Hnd as [Hk Hnd].
    rewrite fmap_cons. cbn [foldl list_to_map prod_map fst snd id].
    rewrite IH by done.
    rewrite list_to_map_cons, <-insert_union_l. symmetry. apply insert_union_r.
    apply not_elem_of_list_to_map_1.
    rewrite <-list_fmap_compose.
    by rewrite <-list_fmap_compose in Hk.
Qed.
End fold_insert.

Section parts_facts.
Context `{GoRange} `{JSON}.
Implicit Types p y : gmap uint8 string.

(** The string map that [MarshalJSON] hands to the codec is [p] with
    every key replaced by its two hex digits. *)
Lemma MarshalJSON_loop_kmap p : MarshalJSON_loop (range p) ∅ = kmap hex_key p.
Proof.
  unfold MarshalJSON_loop.
  etrans; [apply (foldl_insert_list_to_map hex_key)|].
  - apply (NoDup_fmap_2 _), NoDup_fst_range.
  - rewrite (right_id_L ∅ (∪)). unfold kmap. apply list_to_map_proper.
    + rewrite <-list_fmap_compose. change (fst ∘ prod_map hex_key id)
        with (hex_key ∘ (fst : uint8 * string → uint8)).
      rewrite list_fmap_compose. apply (NoDup_fmap_2 _), NoDup_fst_range.
    + by rewrite (range_perm p).
Qed.

(** On entries that came out of [MarshalJSON], with values of 52 bytes,
    none of the early returns of the loop is taken. *)
Lemma UnmarshalJSON_loop_ok (kvs : list (uint8 * string)) y :
  Forall (λ kv, String.length kv.2 = 52%nat) kvs →
  UnmarshalJSON_loop (prod_map hex_key id <$> kvs) y
  = (foldl (λ m kv, <[kv.1 := kv.2]> m) y kvs, None).
Proof.
  revert y. induction kvs as [|[k v] kvs IH]; intros y Hall; [done|].
  apply Forall_cons in Hall as [Hlen Hall].
  rewrite fmap_cons. cbn [prod_map fst snd id UnmarshalJSON_loop foldl] in *.
  rewrite bool_decide_eq_false_2 by (rewrite hex_key_length; auto).
  rewrite bool_decide_eq_false_2 by (by intros ->).
  rewrite hex_key_decode.
  rewrite bool_decide_eq_false_2 by (rewrite Hlen; auto).
  by apply IH.
Qed.

(** What [UnmarshalJSON] makes of the string map [MarshalJSON] built,
    once the codec has handed it back. *)
Lemma UnmarshalJSON_loop_kmap p :
  map_Forall (λ _ v, String.length v = 52%nat) p →
  UnmarshalJSON_loop (range (kmap hex_key p)) ∅ = (p, None).
Proof.
  intros Hp.
  assert (range (kmap hex_key p) ≡ₚ prod_map hex_key id <$> map_to_list p) as Hperm.
  { rewrite (range_perm (kmap hex_key p)). apply (map_to_list_kmap _). }
  apply Permutation_map_inv in Hperm as (kvs & -> & Hkvs).
  assert (NoDup kvs.*1) as Hnd.
  { rewrite <-Hkvs. apply NoDup_fst_map_to_list. }
  rewrite UnmarshalJSON_loop_ok.
  - f_equal. etrans; [apply (foldl_insert_list_to_map id)|].
    + by rewrite list_fmap_id.
    + rewrite (right_id_L ∅ (∪)).
      replace (prod_map id id <$> kvs) with kvs.
      * symmetry. by apply list_to_map_flip.
      * rewrite <-(list_fmap_id kvs) at 1. apply list_fmap_ext. by intros ? [??].
  - rewrite <-Hkvs. apply Forall_forall. intros [k v] Hin%elem_of_map_to_list.
    exact (Hp k v Hin).
Qed.

Lemma hex_key_utf8 k : utf8_valid (hex_key k) = true.
Proof. by destruct k. Qed.

(** C10, as amended. For a [Parts] map whose values are each 52 bytes
    of valid UTF-8 text (ASCII text is such text), [UnmarshalJSON]
    applied to the result of [MarshalJSON] succeeds and stores a map equal
    to the original, whatever [*p] held before and in whatever order the
    two maps are traversed.  The 52 are bytes: [len(s)] is what
    [UnmarshalJSON] compares. *)
Theorem Parts_marshal_unmarshal_roundtrip `{!JSON_UTF8 H0} p p0 :
  map_Forall (λ _ v, String.length v = 52%nat ∧ utf8_valid v = true) p →
  Parts_UnmarshalJSON p0 (Parts_MarshalJSON p) = (p, None).
Proof.
  intros Hp. unfold Parts_UnmarshalJSON, Parts_MarshalJSON.
  rewrite MarshalJSON_loop_kmap, json_roundtrip_utf8.
  - apply UnmarshalJSON_loop_kmap. intros k v Hk. by destruct (Hp k v Hk).
  - intros s v (k & -> & Hk)%lookup_kmap_Some; [|apply _].
    split; [apply hex_key_utf8|]. by destruct (Hp k v Hk).
Qed.

End parts_facts.

(** A fingerprint of 52 base-32 characters under CSID 0x1a. *)
Definition parts_1a : gmap uint8 string :=
  {[ x1a := "abcdefghijklmnopqrstuvwxyz234567abcdefghijklmnopqrst"%string ]}.

(** The letter e with an acute accent: one character, two bytes. *)
Definition e_acute : string := String "195" (String "169" EmptyString).

(** A part of 52 bytes that is not ASCII: 50 letters and digits, and the
    two bytes of one accented letter. *)
Definition parts_accent : gmap uint8 string :=
  {[ x1a := ("abcdefghijklmnopqrstuvwxyz234567abcdefghijklmnopqr" +:+ e_acute)%string ]}.

Lemma Parts_marshal_unmarshal_roundtrip_witness :
  map_Forall (λ _ v, String.length v = 52%nat ∧ utf8_valid v = true) parts_accent
  ∧ Parts_UnmarshalJSON (H := range_map_to_list) (H0 := json_entries) ∅
      (Parts_MarshalJSON (H := range_map_to_list) (H0 := json_entries) parts_accent)
    = (parts_accent, None).
Proof.
  assert (map_Forall (λ _ v, String.length v = 52%nat ∧ utf8_valid v = true)
            parts_accent) as Hp.
  { apply map_Forall_singleton. split; by vm_compute. }
  split; [exact Hp|].
  exact (Parts_marshal_unmarshal_roundtrip
           (H := range_map_to_list) (H0 := json_entries) parts_accent ∅ Hp).
Defined.

(** The same for the ASCII fingerprint. *)
Example Parts_roundtrip_ascii :
  Parts_UnmarshalJSON (H := range_map_to_list) (H0 := json_entries) ∅
    (Parts_MarshalJSON (H := range_map_to_list) (H0 := json_entries) parts_1a)
  = (parts_1a, None).
Proof. by vm_compute. Qed.

(** A part of 52 characters that are two bytes each. *)
Definition part_52_accents : string := Nat.iter 52 (String.append e_acute) EmptyString.

Definition parts_52_accents : gmap uint8 string := {[ x1a := part_52_accents ]}.

(** C10, as stated, fails: the one value of the map is a non-empty
    string of 52 characters, valid UTF-8 that the codec hands back as it
    was, and [UnmarshalJSON] refuses the document [MarshalJSON] made of it
    with [ErrInvalidParts], because the 52 characters are 104 bytes. *)
Lemma Parts_roundtrip_fails_on_characters :
  map_Forall (λ _ v, v ≠ EmptyString ∧ utf8_characters v = 52%nat) parts_52_accents
  ∧ utf8_valid part_52_accents = true
  ∧ String.length part_52_accents = 104%nat
  ∧ json_Unmarshal (JSON := json_entries)
      (Parts_MarshalJSON (H := range_map_to_list) (H0 := json_entries) parts_52_accents)
    = Some {[ "1a"%string := part_52_accents ]}
  ∧ Parts_UnmarshalJSON (H := range_map_to_list) (H0 := json_entries) ∅
      (Parts_MarshalJSON (H := range_map_to_list) (H0 := json_entries)
         parts_52_accents)
    = (∅, Some ErrInvalidParts).
Proof.
  split; [|repeat split; by vm_compute].
  apply map_Forall_singleton. split; [done|by vm_compute].
Qed.

(** ** More about SelectCSID *)

Section select_more.
Context {Key : Type}.
Implicit Types a b : gmap uint8 Key.

Lemma SelectCSID_le (H1 H2 : GoRange) a b :
  uint8_val (SelectCSID (H := H1) a b) ≤ uint8_val (SelectCSID (H := H2) b a).
Proof.
  unfold SelectCSID.
  destruct (SelectCSID_loop_spec (range (GoRange := H1) a).*1 b x00) as (Hr & _ & _).
  destruct (SelectCSID_loop_spec (range (GoRange := H2) b).*1 a x00) as (_ & Hge & Hmax).
  destruct Hr as [->|[Hin Hs]]; [exact Hge|].
  apply Hmax; [|by apply (elem_of_range_keys (H := H1))].
  by apply (elem_of_range_keys (H := H2)).
Qed.

(** X1. Negotiation gives both endpoints the same CSID: the result of
    [SelectCSID] does not depend on the order of its two arguments, nor on
    the order in which either map is traversed. *)
Theorem SelectCSID_symmetric (H1 H2 : GoRange) a b :
  SelectCSID (H := H1) a b = SelectCSID (H := H2) b a.
Proof.
  apply uint8_val_inj.
  pose proof (SelectCSID_le H1 H2 a b). pose proof (SelectCSID_le H2 H1 b a). lia.
Qed.

(** X2. The result 0x00 is a sentinel that cannot be told from a
    selection: [SelectCSID] returns 0x00 exactly when the key sets share
    no CSID other than 0x00 (none at all, or 0x00 alone). *)
Theorem SelectCSID_zero_iff `{GoRange} a b :
  SelectCSID a b = x00 ↔ ∀ c, common a b c → c = x00.
Proof.
  unfold SelectCSID.
  destruct (SelectCSID_loop_spec (range a).*1 b x00) as (Hr & _ & Hmax).
  split.
  - intros E c [Ha Hb]. apply uint8_val_inj.
    pose proof (Hmax c (proj2 (elem_of_range_keys a c) Ha) Hb) as Hle.
    rewrite E in Hle. pose proof (uint8_val_range c).
    change (uint8_val x00) with 0 in *. lia.
  - intros Hall. destruct Hr as [E|[Hin Hs]]; [exact E|].
    apply Hall. split; [by apply elem_of_range_keys|done].
Qed.

End select_more.

(** ** More about Parts.UnmarshalJSON *)

(** An entry the loop of [UnmarshalJSON] lets through: a key of two hex
    digits and a value of 52 bytes. *)
Definition valid_part_entry (k s : string) : Prop :=
  String.length k = 2%nat ∧ s ≠ EmptyString
  ∧ is_Some (hex_DecodeString k) ∧ String.length s = 52%nat.

#[global] Instance valid_part_entry_dec k s : Decision (valid_part_entry k s).
Proof. unfold valid_part_entry. apply _. Defined.

(** Two hex digits decode to exactly one byte, so [csid[0]] is in range. *)
Lemma hex_DecodeString_two k csid :
  String.length k = 2%nat → hex_DecodeString k = Some csid → ∃ c, csid = [c].
Proof.
  destruct k as [|c1 [|c2 [|c3 k]]]; try done. intros _. simpl.
  destruct (fromHexChar c1); [|done]. destruct (fromHexChar c2); [|done].
  intros [= <-]. by eexists.
Qed.

Section parts_more.
Context `{GoRange} `{JSON}.
Implicit Types p y : gmap uint8 string.

Lemma UnmarshalJSON_loop_cons k s rest y :
  (valid_part_entry k s
   ∧ ∃ c, hex_DecodeString k = Some [c]
          ∧ UnmarshalJSON_loop ((k, s) :: rest) y
            = UnmarshalJSON_loop rest (<[c := s]> y))
  ∨ (¬ valid_part_entry k s
     ∧ UnmarshalJSON_loop ((k, s) :: rest) y = (y, Some ErrInvalidParts)).
Proof.
  unfold valid_part_entry. cbn [UnmarshalJSON_loop].
  destruct (bool_decide_reflect (String.length k ≠ 2%nat)) as [Hk|Hk].
  { right. split; [|done]. by intros (? & _). }
  apply dec_stable in Hk.
  destruct (bool_decide_reflect (s = EmptyString)) as [Hs|Hs].
  { right. split; [|done]. by intros (_ & ? & _). }
  destruct (hex_DecodeString k) as [csid|] eqn:Ek.
  2:{ right. split; [|done]. by intros (_ & _ & [? ?] & _). }
  destruct (bool_decide_reflect (String.length s ≠ 52%nat)) as [Hl|Hl].
  { right. split; [|done]. by intros (_ & _ & _ & ?). }
  apply dec_stable in Hl.
  destruct (hex_DecodeString_two k csid Hk Ek) as [c ->].
  left. split; [by eauto|]. by exists c.
Qed.

Lemma UnmarshalJSON_loop_error kvs y :
  (Forall (λ kv, valid_part_entry kv.1 kv.2) kvs
   ∧ (UnmarshalJSON_loop kvs y).2 = None)
  ∨ (¬ Forall (λ kv, valid_part_entry kv.1 kv.2) kvs
     ∧ (UnmarshalJSON_loop kvs y).2 = Some ErrInvalidParts).
Proof.
  revert y. induction kvs as [|[k s] kvs IH]; intros y.
  - left. by split.
  - destruct (UnmarshalJSON_loop_cons k s kvs y) as [(Hv & c & _ & ->)|(Hv & ->)].
    + destruct (IH (<[c := s]> y)) as [[Hall E]|[Hall E]]; [left|right].
      * split; [by apply Forall_cons|done].
      * split; [|done]. by intros [_ ?]%Forall_cons.
    + right. split; [|done]. by intros [? _]%Forall_cons.
Qed.

(** Whatever the loop stores, also when it stops early, is an entry of
    the document with a valid key and value. *)
Lemma UnmarshalJSON_loop_stored kvs y c v :
  (UnmarshalJSON_loop kvs y).1 !! c = Some v →
  y !! c = Some v
  ∨ ∃ k, (k, v) ∈ kvs ∧ valid_part_entry k v ∧ hex_DecodeString k = Some [c].
Proof.
  revert y. induction kvs as [|[k s] kvs IH]; intros y; [by left|].
  destruct (UnmarshalJSON_loop_cons k s kvs y) as [(Hv & c' & Ek & ->)|(Hv & ->)].
  - intros [Hy|(k' & Hin & Hv' & Ek')]%IH.
    + apply lookup_insert_Some in Hy as [[<- <-]|[_ Hy]]; [|by left].
      right. exists k. split; [apply list_elem_of_here|done].
    + right. exists k'. split; [by apply list_elem_of_further|done].
  - by left.
Qed.

(** When the loop goes through, every entry of the document is stored
    under the byte its key decodes to. *)
Lemma UnmarshalJSON_loop_complete kvs y k s :
  (UnmarshalJSON_loop kvs y).2 = None → (k, s) ∈ kvs →
  ∃ c, hex_DecodeString k = Some [c] ∧ is_Some ((UnmarshalJSON_loop kvs y).1 !! c).
Proof.
  assert (∀ kvs y c, is_Some (y !! c) →
            is_Some ((UnmarshalJSON_loop kvs y).1 !! c)) as Hkeep.
  { clear. intros kvs. induction kvs as [|[k s] kvs IH]; intros y c Hc; [done|].
    destruct (UnmarshalJSON_loop_cons k s kvs y) as [(Hv & c' & Ek & ->)|(Hv & ->)];
      [|done].
    apply IH. rewrite lookup_insert_is_Some. destruct (decide (c' = c)); auto. }
  revert y. induction kvs as [|[k0 s0] kvs IH]; intros y Hok Hin.
  { by apply elem_of_nil in Hin. }
  destruct (UnmarshalJSON_loop_cons k0 s0 kvs y) as [(Hv & c' & Ek & E)|(Hv & E)];
    rewrite E in Hok |- *; [|done].
  apply elem_of_cons in Hin as [[= -> ->]|Hin]; [|by apply IH].
  exists c'. split; [done|]. apply Hkeep. rewrite lookup_insert_eq. by eexists.
Qed.

(** X3. The errors of [Parts.UnmarshalJSON]: the decoder's own error,
    with [*p] left as it was, when the document does not decode; no error
    exactly when every entry has a key of two hex digits and a value of 52
    bytes; [ErrInvalidParts] in every other case.  The index [csid[0]] is
    never out of range. *)
Theorem Parts_UnmarshalJSON_errors p data :
  match json_Unmarshal data with
  | None => Parts_UnmarshalJSON p data = (p, Some ErrJSON)
  | Some x =>
      (map_Forall valid_part_entry x ∧ (Parts_UnmarshalJSON p data).2 = None)
      ∨ (¬ map_Forall valid_part_entry x
         ∧ (Parts_UnmarshalJSON p data).2 = Some ErrInvalidParts)
  end.
Proof.
  unfold Parts_UnmarshalJSON. destruct (json_Unmarshal data) as [x|]; [|done].
  assert (map_Forall valid_part_entry x
          ↔ Forall (λ kv, valid_part_entry kv.1 kv.2) (range x)) as Hiff.
  { rewrite Forall_forall. split.
    - intros Hx [k s] Hin%elem_of_range. by apply (Hx k s).
    - intros Hx k s Hks. apply (Hx (k, s)). by apply elem_of_range. }
  destruct (UnmarshalJSON_loop_error (range x) ∅) as [[Hall E]|[Hall E]];
    [left|right]; (split; [|done]); by rewrite Hiff.
Qed.

(** X4. What [Parts.UnmarshalJSON] accepts: when it returns no error,
    every value it has stored is 52 bytes long and is the value of an
    entry of the document whose key is the two hex digits (in either
    case) of the CSID it is stored under; and every entry of the document
    is stored under its CSID. *)
Theorem Parts_UnmarshalJSON_accepted p0 data p x :
  json_Unmarshal data = Some x →
  Parts_UnmarshalJSON p0 data = (p, None) →
  (∀ c v, p !! c = Some v →
          String.length v = 52%nat
          ∧ ∃ k, x !! k = Some v ∧ hex_DecodeString k = Some [c])
  ∧ (∀ k s, x !! k = Some s →
            ∃ c, hex_DecodeString k = Some [c] ∧ is_Some (p !! c)).
Proof.
  unfold Parts_UnmarshalJSON. intros -> Hrun. split.
  - intros c v Hc.
    destruct (UnmarshalJSON_loop_stored (range x) ∅ c v) as [Hy|(k & Hin & Hv & Ek)].
    + by rewrite Hrun.
    + by rewrite lookup_empty in Hy.
    + split; [by destruct Hv as (_ & _ & _ & ?)|].
      exists k. split; [by apply elem_of_range|done].
  - intros k s Hks.
    destruct (UnmarshalJSON_loop_complete (range x) ∅ k s) as (c & Ek & Hc).
    + by rewrite Hrun.
    + by apply elem_of_range.
    + exists c. split; [done|]. by rewrite Hrun in Hc.
Qed.

(** X5. [MarshalJSON] does not validate: for a [Parts] map of text one
    of whose values is not 52 bytes long, [UnmarshalJSON] refuses the
    document [MarshalJSON] produces, with [ErrInvalidParts]. *)
Theorem Parts_marshal_invalid_refused p p0 k v :
  map_Forall (λ _ v, is_ascii_text v) p →
  p !! k = Some v → String.length v ≠ 52%nat →
  (Parts_UnmarshalJSON p0 (Parts_MarshalJSON p)).2 = Some ErrInvalidParts.
Proof.
  intros Htext Hk Hlen.
  unfold Parts_UnmarshalJSON, Parts_MarshalJSON. rewrite MarshalJSON_loop_kmap.
  rewrite json_roundtrip.
  - destruct (UnmarshalJSON_loop_error (range (kmap hex_key p)) ∅)
      as [[Hall _]|[_ E]]; [|done].
    rewrite Forall_forall in Hall.
    destruct (Hall (hex_key k, v)) as (_ & _ & _ & ?); [|done].
    apply elem_of_range, lookup_kmap_Some; [apply _|]. by exists k.
  - intros s w (k' & -> & Hk')%lookup_kmap_Some; [|apply _].
    split; [apply hex_key_ascii|by apply (Htext k' w)].
Qed.

End parts_more.

Definition document_1a : gmap string string :=
  {[ "1a"%string := "abcdefghijklmnopqrstuvwxyz234567abcdefghijklmnopqrst"%string ]}.

Lemma Parts_UnmarshalJSON_accepted_witness :
  json_Unmarshal (JSON := json_entries) (json_Marshal (JSON := json_entries) document_1a)
  = Some document_1a
  ∧ Parts_UnmarshalJSON (H := range_map_to_list) (H0 := json_entries) ∅
      (json_Marshal (JSON := json_entries) document_1a)
    = (parts_1a, None)
  ∧ (∀ c v, parts_1a !! c = Some v →
            String.length v = 52%nat
            ∧ ∃ k, document_1a !! k = Some v ∧ hex_DecodeString k = Some [c])
  ∧ (∀ k s, document_1a !! k = Some s →
            ∃ c, hex_DecodeString k = Some [c] ∧ is_Some (parts_1a !! c)).
Proof.
  assert (json_Unmarshal (JSON := json_entries)
            (json_Marshal (JSON := json_entries) document_1a)
          = Some document_1a) as H1 by by vm_compute.
  assert (Parts_UnmarshalJSON (H := range_map_to_list) (H0 := json_entries) ∅
            (json_Marshal (JSON := json_entries) document_1a)
          = (parts_1a, None)) as H2 by by vm_compute.
  split; [exact H1|]. split; [exact H2|].
  exact (Parts_UnmarshalJSON_accepted (H := range_map_to_list) (H0 := json_entries)
           ∅ _ parts_1a document_1a H1 H2).
Defined.

(** A part that is too short. *)
Definition parts_short : gmap uint8 string := {[ x3a := "abcdef"%string ]}.

Lemma Parts_marshal_invalid_refused_witness :
  map_Forall (λ _ v, is_ascii_text v) parts_short
  ∧ parts_short !! x3a = Some "abcdef"%string
  ∧ String.length "abcdef" ≠ 52%nat
  ∧ (Parts_UnmarshalJSON (H := range_map_to_list) (H0 := json_entries) ∅
       (Parts_MarshalJSON (H := range_map_to_list) (H0 := json_entries) parts_short)).2
    = Some ErrInvalidParts.
Proof.
  assert (map_Forall (λ _ v, is_ascii_text v) parts_short) as H1.
  { apply map_Forall_singleton, (bool_decide_unpack _). by vm_compute. }
  assert (parts_short !! x3a = Some "abcdef"%string) as H2 by done.
  assert (String.length "abcdef" ≠ 52%nat) as H3 by done.
  split; [exact H1|]. split; [exact H2|]. split; [exact H3|].
  exact (Parts_marshal_invalid_refused (H := range_map_to_list) (H0 := json_entries)
           parts_short ∅ x3a _ H1 H2 H3).
Defined.

(** ** Parts in a packet header *)

(** A value of a [lob.Header]: [interface{}], of which the code only
    asks whether it is a string. *)
Inductive header_value :=
  | VString (s : string)
  | VInt (n : Z)
  | VBool (b : bool).

(** [lob.Header], a map from field names to values.  Modelled from the
    spec: [Header.Set] is not in the source; the header is a "mapping of
    string to typed value" and [Set] stores a value under a name. *)
Abbreviation Header := (gmap string header_value).

Definition Header_Set (h : Header) (k : string) (v : header_value) : Header :=
  <[k := v]> h.

Section header.
Context `{GoRange}.

(** The loop of [PartsFromHeader]; each of its four early returns gives
    up the map built so far. *)
Fixpoint PartsFromHeader_loop (kvs : list (string * header_value)) (y : Parts)
    : option Parts * option error :=
  match kvs with
  | [] => (Some y, None)
  | (k, v) :: rest =>
      if bool_decide (String.length k ≠ 2%nat) then (None, Some ErrInvalidParts)
      else match v with
           | VString s =>
               if bool_decide (s = EmptyString) then (None, Some ErrInvalidParts)
               else match hex_DecodeString k with
                    | None => (None, Some ErrInvalidParts)
                    | Some csid =>
                        if bool_decide (String.length s ≠ 52%nat)
                        then (None, Some ErrInvalidParts)
                        else match csid with
                             | csid0 :: _ =>
                                 PartsFromHeader_loop rest (<[csid0 := s]> y)
                             | [] => (None, Some PanicIndex)
                             end
                    end
           | _ => (None, Some ErrInvalidParts)
           end
  end.

(** [func PartsFromHeader(h lob.Header) (Parts, error)]; the first
    component is [None] for a nil map.  A nil header and an empty one are
    both the empty map. *)
Definition PartsFromHeader (h : Header) : option Parts * option error :=
  if bool_decide (h = ∅) then (None, None)
  else PartsFromHeader_loop (range h) ∅.

(** [func (p Parts) ApplyToHeader(h lob.Header)]: the header after the
    call. *)
Definition Parts_ApplyToHeader (p : Parts) (h : Header) : Header :=
  foldl (λ h kv, Header_Set h (hex_EncodeToString [kv.1]) (VString kv.2)) h (range p).

(** A header field that is a part. *)
Definition valid_header_entry (k : string) (v : header_value) : Prop :=
  ∃ s, v = VString s ∧ valid_part_entry k s.


Lemma PartsFromHeader_loop_cases kvs y :
  (Forall (λ kv, valid_header_entry kv.1 kv.2) kvs
   ∧ ∃ y', PartsFromHeader_loop kvs y = (Some y', None)
           ∧ ∀ c, is_Some (y !! c) → is_Some (y' !! c))
  ∨ (¬ Forall (λ kv, valid_header_entry kv.1 kv.2) kvs
     ∧ PartsFromHeader_loop kvs y = (None, Some ErrInvalidParts)).
Proof.
  revert y. induction kvs as [|[k v] kvs IH]; intros y.
  { left. split; [done|]. by exists y. }
  assert ((∃ s c, v = VString s ∧ valid_part_entry k s
                  ∧ PartsFromHeader_loop ((k, v) :: kvs) y
                    = PartsFromHeader_loop kvs (<[c := s]> y))
          ∨ (¬ valid_header_entry k v
             ∧ PartsFromHeader_loop ((k, v) :: kvs) y = (None, Some ErrInvalidParts)))
    as [(s & c & -> & Hv & ->)|[Hv ->]].
  { unfold valid_header_entry, valid_part_entry. cbn [PartsFromHeader_loop].
    destruct (bool_decide_reflect (String.length k ≠ 2%nat)) as [Hk|Hk].
    { right. split; [|done]. by intros (? & _ & ? & _). }
    apply dec_stable in Hk.
    destruct v as [s|n|b]; [|right; split; [by intros (? & ? & _)|done]..].
    destruct (bool_decide_reflect (s = EmptyString)) as [Hs|Hs].
    { right. split; [|done]. by intros (? & [= <-] & _ & ? & _). }
    destruct (hex_DecodeString k) as [csid|] eqn:Ek.
    2:{ right. split; [|done]. by intros (? & _ & _ & _ & [? ?] & _). }
    destruct (bool_decide_reflect (String.length s ≠ 52%nat)) as [Hl|Hl].
    { right. split; [|done]. by intros (? & [= <-] & _ & _ & _ & ?). }
    apply dec_stable in Hl.
    destruct (hex_DecodeString_two k csid Hk Ek) as [c ->].
    left. exists s, c. by eauto 10. }
  - destruct (IH (<[c := s]> y)) as [(Hall & y' & -> & Hk)|[Hall ->]]; [left|right].
    + split; [apply Forall_cons; split; [by exists s|done]|].
      exists y'. split; [done|]. intros c' Hc'. apply Hk.
      rewrite lookup_insert_is_Some. destruct (decide (c = c')); auto.
    + split; [|done]. by intros [_ ?]%Forall_cons.
  - right. split; [|done]. by intros [? _]%Forall_cons.
Qed.

(** What the loop has stored when it goes through: every part it
    holds was there before or is the value of a field whose name decodes
    to the CSID, and the CSID of every field holds a part. *)
Lemma PartsFromHeader_loop_content kvs y y' :
  PartsFromHeader_loop kvs y = (Some y', None) →
  (∀ c v, y' !! c = Some v →
          y !! c = Some v
          ∨ ∃ k, (k, VString v) ∈ kvs ∧ hex_DecodeString k = Some [c])
  ∧ (∀ c, is_Some (y !! c) → is_Some (y' !! c))
  ∧ (∀ k v, (k, v) ∈ kvs → ∃ c, hex_DecodeString k = Some [c] ∧ is_Some (y' !! c)).
Proof.
  revert y. induction kvs as [|[k v] kvs IH]; intros y.
  { intros [= <-]. split; [by left|]. split; [done|].
    intros k v Hin. by apply elem_of_nil in Hin. }
  cbn [PartsFromHeader_loop].
  destruct (bool_decide_reflect (String.length k ≠ 2%nat)) as [Hk|Hk]; [done|].
  apply dec_stable in Hk.
  destruct v as [s|n|b]; [|done..].
  destruct (bool_decide (s = EmptyString)); [done|].
  destruct (hex_DecodeString k) as [csid|] eqn:Ek; [|done].
  destruct (bool_decide (String.length s ≠ 52%nat)); [done|].
  destruct (hex_DecodeString_two k csid Hk Ek) as [c ->].
  intros (Hsound & Hmono & Hcomplete)%IH.
  split; [|split].
  - intros c0 v0 Hc0. destruct (Hsound c0 v0 Hc0) as [Hy|(k0 & Hin & Hd)].
    + apply lookup_insert_Some in Hy as [[<- <-]|[_ Hy]]; [|by left].
      right. exists k. split; [apply list_elem_of_here|done].
    + right. exists k0. split; [by apply list_elem_of_further|done].
  - intros c0 Hc0. apply Hmono. rewrite lookup_insert_is_Some'. by right.
  - intros k0 v0 [[= -> ->]|Hin]%elem_of_cons; [|by apply (Hcomplete k0 v0)].
    exists c. split; [done|]. apply Hmono. rewrite lookup_insert_eq. by eexists.
Qed.

Lemma map_Forall_range_header (h : Header) :
  map_Forall valid_header_entry h
  ↔ Forall (λ kv, valid_header_entry kv.1 kv.2) (range h).
Proof.
  rewrite Forall_forall. split.
  - intros Hx [k s] Hin%elem_of_range. by apply (Hx k s).
  - intros Hx k s Hks. apply (Hx (k, s)). by apply elem_of_range.
Qed.

(** A header with a field that is not a part is refused. *)
Lemma PartsFromHeader_refuses (h : Header) :
  ¬ map_Forall valid_header_entry h →
  PartsFromHeader h = (None, Some ErrInvalidParts).
Proof.
  intros Hh. unfold PartsFromHeader.
  destruct (bool_decide_reflect (h = ∅)) as [->|Hne].
  { destruct Hh. apply map_Forall_empty. }
  destruct (PartsFromHeader_loop_cases (range h) ∅) as [(Hall & _)|[_ Ey]]; [|done].
  destruct Hh. by apply map_Forall_range_header.
Qed.

(** X6. [PartsFromHeader] returns a nil map and no error for an empty
    header.  When every field of the header is a part (a name of two hex
    digits, a string value of 52 bytes) it returns no error and the parts
    of the header: every part of the result is the value of a field whose
    name decodes to the CSID it is stored under, and the CSID of every
    field holds a part.  As soon as the header has any other field it
    returns a nil map with [ErrInvalidParts], so it cannot be used on a
    header that carries anything besides parts. *)
Theorem PartsFromHeader_cases (h : Header) :
  (h = ∅ ∧ PartsFromHeader h = (None, None))
  ∨ (h ≠ ∅ ∧ map_Forall valid_header_entry h
     ∧ ∃ y, PartsFromHeader h = (Some y, None)
            ∧ y ≠ ∅
            ∧ (∀ c v, y !! c = Some v →
                      ∃ k, h !! k = Some (VString v) ∧ hex_DecodeString k = Some [c])
            ∧ (∀ k v, h !! k = Some v →
                      ∃ c, hex_DecodeString k = Some [c] ∧ is_Some (y !! c)))
  ∨ (¬ map_Forall valid_header_entry h
     ∧ PartsFromHeader h = (None, Some ErrInvalidParts)).
Proof.
  destruct (decide (h = ∅)) as [->|Hne].
  { left. split; [done|]. unfold PartsFromHeader. by rewrite bool_decide_eq_true_2. }
  right.
  destruct (PartsFromHeader_loop_cases (range h) ∅) as [(Hall & y & Ey & _)|[Hall Ey]];
    cycle 1.
  { right. rewrite <-map_Forall_range_header in Hall.
    split; [done|]. by apply PartsFromHeader_refuses. }
  left. split; [done|]. split; [by apply map_Forall_range_header|].
  exists y. split.
  { unfold PartsFromHeader. by rewrite bool_decide_eq_false_2. }
  destruct (PartsFromHeader_loop_content _ _ _ Ey) as (Hsound & _ & Hcomplete).
  assert (∀ k v, h !! k = Some v →
                 ∃ c, hex_DecodeString k = Some [c] ∧ is_Some (y !! c)) as Hc.
  { intros k v Hk. apply (Hcomplete k v). by apply elem_of_range. }
  split; [|split; [|exact Hc]].
  - intros ->. destruct (map_choose h Hne) as (k & v & Hk).
    destruct (Hc k v Hk) as (c & _ & [? Hy]). by rewrite lookup_empty in Hy.
  - intros c v Hy. destruct (Hsound c v Hy) as [Hy0|(k & Hin & Hd)].
    + by rewrite lookup_empty in Hy0.
    + exists k. split; [by apply elem_of_range|done].
Qed.




End header.

(** Two fingerprints. *)
Definition parts_1a_3a : gmap uint8 string :=
  <[x3a := "zyxwvutsrqponmlkjihgfedcba765432zyxwvutsrqponmlkjihg"%string]> parts_1a.

(** A header that is in use: a field of the packet, and a field under
    the name of a CSID. *)
Definition header_in_use : Header :=
  {[ "type"%string := VString "link"; "1a"%string := VInt 7 ]}.


(** The two runs: into an empty header, and into the header in use. *)
Example PartsFromHeader_ApplyToHeader_runs :
  PartsFromHeader (H := range_map_to_list)
    (Parts_ApplyToHeader (H := range_map_to_list) parts_1a_3a ∅)
  = (Some parts_1a_3a, None)
  ∧ PartsFromHeader (H := range_map_to_list)
      (Parts_ApplyToHeader (H := range_map_to_list) parts_1a_3a header_in_use)
    = (None, Some ErrInvalidParts).
Proof. split; by vm_compute. Qed.

(** ** Keys *)

(** [Key], as far as the functions below use it: the method [String()],
    and the package function [DecodeKey], which is not in the source; it
    answers with a key or with an error of its own. *)
Class KeyCodec (Key DecodeError : Type) := {
  Key_String : Key → string;
  DecodeKey : uint8 → string → string → Key + DecodeError
}.

(** The errors of the functions on [Keys]: those of this package, and
    whatever [DecodeKey] returns, handed on as it is. *)
Inductive keys_error (DecodeError : Type) :=
  | KeysError (e : error)
  | DecodeKeyError (e : DecodeError).
Arguments KeysError {_} _.
Arguments DecodeKeyError {_} _.

(** The argument of [KeysFromJSON], an [interface{}]: nil, a
    [map[string]interface{}], or anything else. *)
Inductive interface_value :=
  | INil
  | IObject (x : gmap string header_value)
  | IOther.

Section keys.
Context `{GoRange} `{JSON} {Key DecodeError : Type} `{KeyCodec Key DecodeError}.

(** The loop of [Keys.MarshalJSON]:
    [m[hex.EncodeToString([]byte{k})] = v.String()]. *)
Definition Keys_MarshalJSON_loop (kvs : list (uint8 * Key))
    (m : gmap string string) : gmap string string :=
  foldl (λ m kv, <[hex_EncodeToString [kv.1] := Key_String kv.2]> m) m kvs.

(** [func (p Keys) MarshalJSON() ([]byte, error)] *)
Definition Keys_MarshalJSON (p : gmap uint8 Key) : json_document :=
  json_Marshal (Keys_MarshalJSON_loop (range p) ∅).

(** The loop of [Keys.UnmarshalJSON]. *)
Fixpoint Keys_UnmarshalJSON_loop (kvs : list (string * string)) (y : gmap uint8 Key)
    : gmap uint8 Key * option (keys_error DecodeError) :=
  match kvs with
  | [] => (y, None)
  | (k, s) :: rest =>
      if bool_decide (String.length k ≠ 2%nat)
      then (y, Some (KeysError ErrInvalidKeys))
      else if bool_decide (s = EmptyString)
      then (y, Some (KeysError ErrInvalidKeys))
      else match hex_DecodeString k with
           | None => (y, Some (KeysError ErrInvalidKeys))
           | Some [] => (y, Some (KeysError PanicIndex))
           | Some (csid0 :: _) =>
               match DecodeKey csid0 s EmptyString with
               | inr e => (y, Some (DecodeKeyError e))
               | inl key => Keys_UnmarshalJSON_loop rest (<[csid0 := key]> y)
               end
           end
  end.

(** [func (k *Keys) UnmarshalJSON(data []byte) error]: the new value of
    [*k] and the error. *)
Definition Keys_UnmarshalJSON (k : gmap uint8 Key) (data : json_document)
    : gmap uint8 Key * option (keys_error DecodeError) :=
  match json_Unmarshal data with
  | None => (k, Some (KeysError ErrJSON))
  | Some x => Keys_UnmarshalJSON_loop (range x) ∅
  end.

(** The loop of [KeysFromJSON]; every early return gives up the map
    built so far. *)
Fixpoint KeysFromJSON_loop (kvs : list (string * header_value)) (y : gmap uint8 Key)
    : option (gmap uint8 Key) * option (keys_error DecodeError) :=
  match kvs with
  | [] => (Some y, None)
  | (k, v) :: rest =>
      if bool_decide (String.length k ≠ 2%nat)
      then (None, Some (KeysError ErrInvalidKeys))
      else match v with
           | VString s =>
               if bool_decide (s = EmptyString)
               then (None, Some (KeysError ErrInvalidKeys))
               else match hex_DecodeString k with
                    | None => (None, Some (KeysError ErrInvalidKeys))
                    | Some [] => (None, Some (KeysError PanicIndex))
                    | Some (csid0 :: _) =>
                        match DecodeKey csid0 s EmptyString with
                        | inr e => (None, Some (DecodeKeyError e))
                        | inl key => KeysFromJSON_loop rest (<[csid0 := key]> y)
                        end
                    end
           | _ => (None, Some (KeysError ErrInvalidKeys))
           end
  end.

(** [func KeysFromJSON(i interface{}) (Keys, error)]; the first
    component is [None] for a nil map. *)
Definition KeysFromJSON (i : interface_value)
    : option (gmap uint8 Key) * option (keys_error DecodeError) :=
  match i with
  | INil => (None, None)
  | IOther => (None, Some (KeysError ErrInvalidKeys))
  | IObject x =>
      if bool_decide (x = ∅) then (None, None)
      else KeysFromJSON_loop (range x) ∅
  end.

(** [func (p Keys) ApplyToHeader(h lob.Header)]: the header after the
    call. *)
Definition Keys_ApplyToHeader (p : gmap uint8 Key) (h : Header) : Header :=
  foldl (λ h kv, Header_Set h (hex_EncodeToString [kv.1]) (VString (Key_String kv.2)))
    h (range p).

(** A key that its own text form gives back. *)
Definition key_text_decodes (csid : uint8) (key : Key) : Prop :=
  Key_String key ≠ EmptyString
  ∧ is_ascii_text (Key_String key)
  ∧ DecodeKey csid (Key_String key) EmptyString = inl key.

Lemma Keys_MarshalJSON_loop_kmap (p : gmap uint8 Key) :
  Keys_MarshalJSON_loop (range p) ∅ = kmap hex_key (Key_String <$> p).
Proof.
  unfold Keys_MarshalJSON_loop.
  assert (∀ (kvs : list (uint8 * Key)) (m : gmap string string),
            foldl (λ m kv, <[hex_EncodeToString [kv.1] := Key_String kv.2]> m) m kvs
            = foldl (λ m kv, <[hex_key kv.1 := kv.2]> m) m
                (prod_map id Key_String <$> kvs)) as ->.
  { intros kvs. induction kvs as [|[k v] kvs IH]; intros m; [done|]. simpl. apply IH. }
  assert ((prod_map id Key_String <$> range p).*1 = (range p).*1) as Hfst.
  { rewrite <-list_fmap_compose. apply list_fmap_ext. by intros ? [??]. }
  etrans; [apply (foldl_insert_list_to_map hex_key)|].
  - rewrite Hfst. apply (NoDup_fmap_2 _), NoDup_fst_range.
  - rewrite (right_id_L ∅ (∪)). unfold kmap. apply list_to_map_proper.
    + rewrite <-list_fmap_compose.
      change (fst ∘ prod_map hex_key id)
        with (hex_key ∘ (fst : uint8 * string → uint8)).
      rewrite list_fmap_compose, Hfst. apply (NoDup_fmap_2 _), NoDup_fst_range.
    + by rewrite (range_perm p), map_to_list_fmap.
Qed.

Lemma Keys_UnmarshalJSON_loop_ok (kvs : list (uint8 * Key)) y :
  Forall (λ kv, key_text_decodes kv.1 kv.2) kvs →
  Keys_UnmarshalJSON_loop (prod_map hex_key Key_String <$> kvs) y
  = (foldl (λ m kv, <[kv.1 := kv.2]> m) y kvs, None).
Proof.
  revert y. induction kvs as [|[k v] kvs IH]; intros y Hall; [done|].
  apply Forall_cons in Hall as [(Hne & _ & Hdec) Hall].
  rewrite fmap_cons. cbn [prod_map fst snd id Keys_UnmarshalJSON_loop foldl] in *.
  rewrite bool_decide_eq_false_2 by (rewrite hex_key_length; auto).
  rewrite bool_decide_eq_false_2 by done.
  rewrite hex_key_decode, Hdec. by apply IH.
Qed.

(** X22. Round trip of [Keys] through JSON: when every key's text form
    is non-empty plain text that [DecodeKey] turns back into the key,
    [Keys.UnmarshalJSON] applied to the result of [Keys.MarshalJSON]
    succeeds and stores the keys it started from, whatever the receiver
    held and in whatever order the maps are traversed. *)
Theorem Keys_marshal_unmarshal_roundtrip (p p0 : gmap uint8 Key) :
  map_Forall key_text_decodes p →
  Keys_UnmarshalJSON p0 (Keys_MarshalJSON p) = (p, None).
Proof.
  intros Hp. unfold Keys_UnmarshalJSON, Keys_MarshalJSON.
  rewrite Keys_MarshalJSON_loop_kmap, json_roundtrip; cycle 1.
  { intros s v (k & -> & Hk)%lookup_kmap_Some; [|apply _].
    split; [apply hex_key_ascii|].
    rewrite lookup_fmap in Hk. destruct (p !! k) as [key|] eqn:Ek; [|done].
    injection Hk as <-. by destruct (Hp k key Ek) as (_ & ? & _). }
  assert (range (kmap hex_key (Key_String <$> p))
          ≡ₚ prod_map hex_key Key_String <$> map_to_list p) as Hperm.
  { rewrite (range_perm _), (map_to_list_kmap _), map_to_list_fmap.
    rewrite <-list_fmap_compose. done. }
  apply Permutation_map_inv in Hperm as (kvs & -> & Hkvs).
  assert (NoDup kvs.*1) as Hnd.
  { rewrite <-Hkvs. apply NoDup_fst_map_to_list. }
  rewrite Keys_UnmarshalJSON_loop_ok.
  - f_equal. etrans; [apply (foldl_insert_list_to_map id)|].
    + by rewrite list_fmap_id.
    + rewrite (right_id_L ∅ (∪)).
      replace (prod_map id id <$> kvs) with kvs.
      * symmetry. by apply list_to_map_flip.
      * rewrite <-(list_fmap_id kvs) at 1. apply list_fmap_ext. by intros ? [??].
  - rewrite <-Hkvs. apply Forall_forall. intros [k v] Hin%elem_of_map_to_list.
    exact (Hp k v Hin).
Qed.

(** An entry [KeysFromJSON] lets through. *)
Definition valid_key_entry (k : string) (v : header_value) : Prop :=
  ∃ s c key,
    v = VString s ∧ s ≠ EmptyString ∧ String.length k = 2%nat
    ∧ hex_DecodeString k = Some [c]
    ∧ DecodeKey c s EmptyString = inl key.

Lemma KeysFromJSON_loop_cases kvs (y : gmap uint8 Key) :
  (∃ y', KeysFromJSON_loop kvs y = (Some y', None)
         ∧ Forall (λ kv, valid_key_entry kv.1 kv.2) kvs
         ∧ (∀ c, is_Some (y !! c) → is_Some (y' !! c))
         ∧ (∀ k v c, (k, v) ∈ kvs → hex_DecodeString k = Some [c] →
                     is_Some (y' !! c))
         ∧ (∀ c key, y' !! c = Some key →
                     y !! c = Some key
                     ∨ ∃ k s, (k, VString s) ∈ kvs
                              ∧ hex_DecodeString k = Some [c]
                              ∧ DecodeKey c s EmptyString = inl key))
  ∨ (∃ e, KeysFromJSON_loop kvs y = (None, Some e)
          ∧ Exists (λ kv, ¬ valid_key_entry kv.1 kv.2) kvs).
Proof.
  revert y. induction kvs as [|[k v] kvs IH]; intros y.
  { left. exists y. split; [done|]. split; [done|]. split; [done|]. split.
    - intros k v c Hin. by apply elem_of_nil in Hin.
    - intros c key Hc. by left. }
  cbn [KeysFromJSON_loop].
  destruct (bool_decide_reflect (String.length k ≠ 2%nat)) as [Hl|Hl].
  { right. eexists. split; [done|]. apply Exists_cons_hd.
    by intros (s & c & key & _ & _ & Hlen & _). }
  apply dec_stable in Hl.
  destruct v as [s|n|b]; cycle 1.
  { right. eexists. split; [done|]. apply Exists_cons_hd.
    by intros (s & c & key & Hv & _). }
  { right. eexists. split; [done|]. apply Exists_cons_hd.
    by intros (s & c & key & Hv & _). }
  destruct (bool_decide_reflect (s = EmptyString)) as [Hs|Hs].
  { right. eexists. split; [done|]. apply Exists_cons_hd.
    intros (s' & c & key & [= <-] & Hne & _). done. }
  destruct (hex_DecodeString k) as [csid|] eqn:Ehex; cycle 1.
  { right. eexists. split; [done|]. apply Exists_cons_hd. simpl.
    intros (s' & c & key & _ & _ & _ & Hh & _). congruence. }
  destruct (hex_DecodeString_two k csid Hl Ehex) as [c ->].
  destruct (DecodeKey c s EmptyString) as [key|e] eqn:Edec; cycle 1.
  { right. eexists. split; [done|]. apply Exists_cons_hd. simpl.
    intros (s' & c' & key & [= <-] & _ & _ & Hh & Hd). congruence. }
  destruct (IH (<[c := key]> y))
    as [(y' & E & Hall & Hmono & Hin & Hsound)|(e & E & Hex)].
  - left. exists y'. split; [done|]. split; [|split; [|split]].
    + apply Forall_cons. split; [|done]. by exists s, c, key.
    + intros c0 Hc0. apply Hmono. rewrite lookup_insert_is_Some'. by right.
    + intros k0 v0 c0 [[= -> ->]|Hk0]%elem_of_cons Hh.
      * assert (c0 = c) as -> by congruence.
        apply Hmono. rewrite lookup_insert_eq. by eexists.
      * by apply (Hin k0 v0).
    + intros c0 key0 Hc0.
      destruct (Hsound c0 key0 Hc0) as [Hy|(k0 & s0 & Hk0 & Hh & Hd)].
      * apply lookup_insert_Some in Hy as [[<- <-]|[_ Hy]]; [|by left].
        right. exists k, s. split; [apply list_elem_of_here|done].
      * right. exists k0, s0. split; [by apply list_elem_of_further|done].
  - right. exists e. split; [done|]. by apply Exists_cons_tl.
Qed.

(** X23. [KeysFromJSON] on an object that is not empty either accepts
    it, and then every entry has a key of two hex digits and a non-empty
    string value that [DecodeKey] decodes, every CSID named by the object
    has a key in the result, and every key of the result is the decoding
    of an entry; or it gives no keys and an error, and then some entry is
    not of that form. *)
Theorem KeysFromJSON_object (x : gmap string header_value) :
  x ≠ ∅ →
  (∃ y, KeysFromJSON (IObject x) = (Some y, None)
        ∧ (∀ k v, x !! k = Some v → valid_key_entry k v)
        ∧ (∀ k v c, x !! k = Some v → hex_DecodeString k = Some [c] →
                    is_Some (y !! c))
        ∧ (∀ c key, y !! c = Some key →
                    ∃ k s, x !! k = Some (VString s)
                           ∧ hex_DecodeString k = Some [c]
                           ∧ DecodeKey c s EmptyString = inl key))
  ∨ (∃ e k v, KeysFromJSON (IObject x) = (None, Some e)
              ∧ x !! k = Some v ∧ ¬ valid_key_entry k v).
Proof.
  intros Hx. unfold KeysFromJSON. rewrite bool_decide_eq_false_2 by done.
  destruct (KeysFromJSON_loop_cases (range x) ∅)
    as [(y & E & Hall & _ & Hin & Hsound)|(e & E & Hex)].
  - left. exists y. split; [done|]. split; [|split].
    + intros k v Hk%elem_of_range.
      by apply (proj1 (Forall_forall _ _) Hall (k, v)).
    + intros k v c Hk%elem_of_range. by apply (Hin k v).
    + intros c key Hc.
      destruct (Hsound c key Hc) as [Hy|(k & s & Hk%elem_of_range & Hh & Hd)].
      * by rewrite lookup_empty in Hy.
      * by exists k, s.
  - right. apply Exists_exists in Hex as ([k v] & Hk%elem_of_range & Hv).
    by exists e, k, v.
Qed.

End keys.

(** A stub key codec: a key is its own text, and any non-empty text
    decodes. *)
Definition text_keys : KeyCodec string () :=
  {| Key_String := λ key, key;
     DecodeKey := λ _ s _,
       if bool_decide (s = EmptyString) then inr () else inl s |}.

Definition keys_text_1a : gmap uint8 string := {[ x1a := "mfrggzdfmztwq2lk"%string ]}.

Lemma Keys_marshal_unmarshal_roundtrip_witness :
  map_Forall (key_text_decodes (H1 := text_keys)) keys_text_1a
  ∧ Keys_UnmarshalJSON (H := range_map_to_list) (H0 := json_entries) (H1 := text_keys)
      ∅
      (Keys_MarshalJSON (H := range_map_to_list) (H0 := json_entries) (H1 := text_keys)
         keys_text_1a)
    = (keys_text_1a, None).
Proof.
  assert (map_Forall (key_text_decodes (H1 := text_keys)) keys_text_1a) as Hp.
  { apply map_Forall_singleton. split; [done|]. split; [|done].
    apply (bool_decide_unpack _). by vm_compute. }
  split; [exact Hp|].
  exact (Keys_marshal_unmarshal_roundtrip
           (H := range_map_to_list) (H0 := json_entries) (H1 := text_keys)
           keys_text_1a ∅ Hp).
Defined.

Definition object_1a : gmap string header_value :=
  {[ "1a"%string := VString "mfrggzdfmztwq2lk" ]}.

Lemma KeysFromJSON_object_witness :
  object_1a ≠ ∅
  ∧ ((∃ y : gmap uint8 string, KeysFromJSON (H := range_map_to_list) (H1 := text_keys) (IObject object_1a)
           = (Some y, None)
           ∧ (∀ k v, object_1a !! k = Some v → valid_key_entry (H1 := text_keys) k v)
           ∧ (∀ k v c, object_1a !! k = Some v → hex_DecodeString k = Some [c] →
                       is_Some (y !! c))
           ∧ (∀ c key, y !! c = Some key →
                       ∃ k s, object_1a !! k = Some (VString s)
                              ∧ hex_DecodeString k = Some [c]
                              ∧ DecodeKey (KeyCodec := text_keys) c s EmptyString = inl key))
     ∨ (∃ e k v, KeysFromJSON (H := range_map_to_list) (H1 := text_keys)
                   (IObject object_1a) = (None, Some e)
                 ∧ object_1a !! k = Some v
                 ∧ ¬ valid_key_entry (H1 := text_keys) k v)).
Proof.
  assert (object_1a ≠ ∅) as Hx by apply insert_non_empty.
  split; [exact Hx|].
  exact (KeysFromJSON_object (H := range_map_to_list) (H1 := text_keys) object_1a Hx).
Defined.

(** ** ApplyToHeader *)

Section apply_to_header.
Context `{GoRange} {Key DecodeError : Type} `{KeyCodec Key DecodeError}.

(** Setting one field per CSID, named by its two hex digits, in
    whatever order the map is traversed. *)
Lemma foldl_insert_hex_key {A B : Type} (f : A → B) (p : gmap uint8 A)
    (h : gmap string B) :
  foldl (λ h kv, <[hex_EncodeToString [kv.1] := f kv.2]> h) h (range p)
  = kmap hex_key (f <$> p) ∪ h.
Proof.
  assert (∀ (kvs : list (uint8 * A)) (m : gmap string B),
            foldl (λ m kv, <[hex_EncodeToString [kv.1] := f kv.2]> m) m kvs
            = foldl (λ m kv, <[hex_key kv.1 := kv.2]> m) m
                (prod_map id f <$> kvs)) as ->.
  { intros kvs. induction kvs as [|[k v] kvs IH]; intros m; [done|]. simpl. apply IH. }
  assert ((prod_map id f <$> range p).*1 = (range p).*1) as Hfst.
  { rewrite <-list_fmap_compose. apply list_fmap_ext. by intros ? [??]. }
  etrans; [apply (foldl_insert_list_to_map hex_key)|].
  - rewrite Hfst. apply (NoDup_fmap_2 _), NoDup_fst_range.
  - f_equal. unfold kmap. apply list_to_map_proper.
    + rewrite <-list_fmap_compose.
      change (fst ∘ prod_map hex_key id)
        with (hex_key ∘ (fst : uint8 * B → uint8)).
      rewrite list_fmap_compose, Hfst. apply (NoDup_fmap_2 _), NoDup_fst_range.
    + by rewrite (range_perm p), map_to_list_fmap.
Qed.

(** X24. [Parts.ApplyToHeader] and [Keys.ApplyToHeader] leave the
    header they are given with one string field per CSID, named by the two
    hex digits of the CSID and holding the part, or the text form of the
    key; a field of that name is overwritten, every other field is kept,
    and the order in which the map is traversed does not show. *)
Theorem ApplyToHeader_fields (p : Parts) (ks : gmap uint8 Key) (h : Header) :
  Parts_ApplyToHeader p h = kmap hex_key (VString <$> p) ∪ h
  ∧ Keys_ApplyToHeader ks h
    = kmap hex_key ((λ key, VString (Key_String key)) <$> ks) ∪ h.
Proof.
  split.
  - apply (foldl_insert_hex_key VString).
  - apply (foldl_insert_hex_key (λ key, VString (Key_String key))).
Qed.

End apply_to_header.

End cipherset.

(** * Package nat: the NAT mapper of [transports/nat/nat_transport.go] *)

Module nat_transport.

(** ** Collaborators

    [net.IP], the addresses of the wrapped transport and the NAT device
    are interfaces of other packages.  [ip_is_nil] is the test
    [ip == nil], [ip_String] the text [%s] prints. *)

Class NetIP (IP : Type) := {
  ip_is_nil : IP → bool;
  ip_Equal : IP → IP → bool;
  ip_String : IP → string
}.

(** [transports.Addr] with the optional capability [NATableAddr]:
    [is_NATableAddr a] is the outcome of the type assertion
    [a.(NATableAddr)]; the two methods are only called when it holds.
    [MakeGlobal] answers [None] for a nil address. *)
Class NATableAddr (IP Addr : Type) := {
  is_NATableAddr : Addr → bool;
  InternalAddr : Addr → string * IP * Z;
  MakeGlobal : Addr → IP → Z → option Addr
}.

(** [nat.NAT]: a device with a state of its own.  Every method returns
    the answer ([None] where the Go method returns an error) and the
    state of the device after the call.  The lease name and duration that
    [AddPortMapping] is given are the constants ["Telehash"] and 60
    minutes. *)
Class NAT (IP D : Type) := {
  GetDeviceAddress : D → bool * D;
  GetExternalAddress : D → option IP * D;
  GetInternalAddress : D → option IP * D;
  AddPortMapping : D → string → Z → option Z * D;
  DeletePortMapping : D → string → Z → D
}.

Section mapper.
Context {IP Addr D : Type} `{NetIP IP} `{NATableAddr IP Addr} `{NAT IP D}.
Context `{GoRange}.

(** The calls made on the device and on [MakeGlobal], with their
    answers, in the order they are made. *)
Inductive call :=
  | CallGetExternalAddress (r : option IP)
  | CallGetInternalAddress (r : option IP)
  | CallAddPortMapping (proto : string) (internal_port : Z) (r : option Z)
  | CallMakeGlobal (addr : Addr) (ip : IP) (port : Z) (r : option Addr)
  | CallDeletePortMapping (proto : string) (internal_port : Z).

(** [type natMapping struct] *)
Record natMapping := {
  external : Addr;
  internal : Addr;
  stale : bool
}.

Definition set_stale (b : bool) (m : natMapping) : natMapping :=
  {| external := external m; internal := internal m; stale := b |}.

Definition set_external (a : Addr) (m : natMapping) : natMapping :=
  {| external := a; internal := internal m; stale := stale m |}.

(** [type transport struct]: [t_nat] is [t.nat], [None] for a nil
    device, [t_mapping] is [t.mapping] and [t_done] tells whether the
    channel [t.done] is closed.  The wrapped transport [t.t] is only asked
    for its local addresses; its answer is an argument of the operations
    that ask. *)
Record transport := {
  t_nat : option D;
  t_mapping : gmap string natMapping;
  t_done : bool
}.

Definition with_nat (n : option D) (t : transport) : transport :=
  {| t_nat := n; t_mapping := t_mapping t; t_done := t_done t |}.

Definition with_mapping (m : gmap string natMapping) (t : transport) : transport :=
  {| t_nat := t_nat t; t_mapping := m; t_done := t_done t |}.

(** [func mappingKey]: [fmt.Sprintf("%s:%s:%d", proto, ip, internal_port)] *)
Definition mappingKey (proto : string) (ip : IP) (internal_port : Z) : string :=
  proto +:+ ":" +:+ ip_String ip +:+ ":" +:+ pretty internal_port.

(** [func asNATableAddr]; the empty protocol is the "not NATable"
    answer, the other two results are then nil and 0. *)
Definition asNATableAddr (addr : Addr) : option (string * IP * Z) :=
  if negb (is_NATableAddr addr) then None
  else
    let '(proto, ip, port) := InternalAddr addr in
    if bool_decide (proto = EmptyString) || ip_is_nil ip || (port <=? 0)
    then None
    else Some (proto, ip, port).


(** The first lines of [updateMappings] and of [refreshMapping]: the
    local map gets the entries of [t.mapping], and every entry is marked
    stale.  The entries are shared between the two maps, so the mark is
    visible through [t.mapping] too. *)
Definition mark_all_stale (m : gmap string natMapping) : gmap string natMapping :=
  set_stale true <$> m.

(** The variables of [updateMappings] while its loops run: the device,
    [t.mapping] (whose entries are written through), the local [mapping]
    and the calls made so far. *)
Record upd := {
  u_nat : D;
  u_tmapping : gmap string natMapping;
  u_mapping : gmap string natMapping;
  u_calls : list call
}.

(** The body of the loop "map new addrs" of [updateMappings]. *)
Definition updateMappings_add (external_ip internal_ip : IP) (st : upd)
    (addr : Addr) : upd :=
  if negb (is_NATableAddr addr) then st
  else
    let '(proto, ip, internal_port) := InternalAddr addr in
    if bool_decide (proto = EmptyString) || ip_is_nil ip || (internal_port <=? 0)
    then st
    else if negb (ip_Equal ip internal_ip) then st
    else
      let key := mappingKey proto ip internal_port in
      match u_tmapping st !! key with
      | Some _ =>
          (* m.stale = false; the entry is the one the local map holds *)
          {| u_nat := u_nat st;
             u_tmapping := alter (set_stale false) key (u_tmapping st);
             u_mapping := alter (set_stale false) key (u_mapping st);
             u_calls := u_calls st |}
      | None =>
          let '(r, d) := AddPortMapping (u_nat st) proto internal_port in
          let calls := u_calls st ++ [CallAddPortMapping proto internal_port r] in
          match r with
          | None =>
              {| u_nat := d; u_tmapping := u_tmapping st;
                 u_mapping := u_mapping st; u_calls := calls |}
          | Some external_port =>
              let g := MakeGlobal addr external_ip external_port in
              let calls := calls ++ [CallMakeGlobal addr external_ip external_port g] in
              match g with
              | None =>
                  {| u_nat := d; u_tmapping := u_tmapping st;
                     u_mapping := u_mapping st; u_calls := calls |}
              | Some globaddr =>
                  {| u_nat := d; u_tmapping := u_tmapping st;
                     u_mapping :=
                       <[key := {| external := globaddr; internal := addr;
                                   stale := false |}]> (u_mapping st);
                     u_calls := calls |}
              end
          end
      end.

(** [deletable m]: the second loop of [updateMappings] unmaps a stale
    entry only when its internal address still answers a protocol and a
    positive port. *)
Definition deletable (m : natMapping) : bool :=
  is_NATableAddr (internal m)
  && negb (let '(proto, _, internal_port) := InternalAddr (internal m) in
           bool_decide (proto = EmptyString) || (internal_port <=? 0)).

(** The body of the second loop of [updateMappings], over the entries
    of the local map. *)
Definition updateMappings_sweep (st : D * gmap string natMapping * list call)
    (entry : string * natMapping) : D * gmap string natMapping * list call :=
  let '(d, mapping, calls) := st in
  let '(key, m) := entry in
  if negb (stale m) then st
  else if negb (deletable m) then st
  else
    let '(proto, _, internal_port) := InternalAddr (internal m) in
    (DeletePortMapping d proto internal_port,
     delete key mapping,
     calls ++ [CallDeletePortMapping proto internal_port]).

(** [func (t *transport) updateMappings()], called with a device [d]
    in [t.nat]; [local] is what [t.t.LocalAddresses()] returns. *)
Definition updateMappings (d : D) (t : transport) (local : list Addr)
    : transport * list call :=
  let stale_all := mark_all_stale (t_mapping t) in
  let '(external_ip, d) := GetExternalAddress d in
  match external_ip with
  | None =>
      ({| t_nat := None; t_mapping := stale_all; t_done := t_done t |},
       [CallGetExternalAddress None])
  | Some external_ip =>
      let '(internal_ip, d) := GetInternalAddress d in
      match internal_ip with
      | None =>
          ({| t_nat := None; t_mapping := stale_all; t_done := t_done t |},
           [CallGetExternalAddress (Some external_ip); CallGetInternalAddress None])
      | Some internal_ip =>
          let st :=
            foldl (updateMappings_add external_ip internal_ip)
              {| u_nat := d; u_tmapping := stale_all; u_mapping := stale_all;
                 u_calls := [CallGetExternalAddress (Some external_ip);
                             CallGetInternalAddress (Some internal_ip)] |}
              local in
          let '(d, mapping, calls) :=
            foldl updateMappings_sweep (u_nat st, u_mapping st, u_calls st)
              (range (u_mapping st)) in
          ({| t_nat := Some d; t_mapping := mapping; t_done := t_done t |}, calls)
      end
  end.

(** The variables of [refreshMapping] while its loop runs. *)
Record refr := {
  r_nat : D;
  r_mapping : gmap string natMapping;
  r_droplist : list string;
  r_calls : list call
}.

Definition refr_drop (key : string) (d : D) (calls : list call) (st : refr) : refr :=
  {| r_nat := d; r_mapping := r_mapping st;
     r_droplist := r_droplist st ++ [key]; r_calls := calls |}.

(** The body of the loop "remap addrs" of [refreshMapping]. *)
Definition refreshMapping_remap (external_ip internal_ip : IP) (st : refr)
    (entry : string * natMapping) : refr :=
  let '(key, m) := entry in
  match asNATableAddr (internal m) with
  | None => refr_drop key (r_nat st) (r_calls st) st
  | Some (proto, ip, internal_port) =>
      if negb (ip_Equal ip internal_ip)
      then refr_drop key (r_nat st) (r_calls st) st
      else
        let '(r, d) := AddPortMapping (r_nat st) proto internal_port in
        let calls := r_calls st ++ [CallAddPortMapping proto internal_port r] in
        match r with
        | None => refr_drop key d calls st
        | Some external_port =>
            let g := MakeGlobal (internal m) external_ip external_port in
            let calls :=
              calls ++ [CallMakeGlobal (internal m) external_ip external_port g] in
            match g with
            | None => refr_drop key d calls st
            | Some globaddr =>
                {| r_nat := d;
                   r_mapping := alter (set_external globaddr) key (r_mapping st);
                   r_droplist := r_droplist st; r_calls := calls |}
            end
        end
  end.

(** [func (t *transport) refreshMapping()] *)
Definition refreshMapping (d : D) (t : transport) : transport * list call :=
  let stale_all := mark_all_stale (t_mapping t) in
  let '(external_ip, d) := GetExternalAddress d in
  match external_ip with
  | None =>
      ({| t_nat := None; t_mapping := stale_all; t_done := t_done t |},
       [CallGetExternalAddress None])
  | Some external_ip =>
      let '(internal_ip, d) := GetInternalAddress d in
      match internal_ip with
      | None =>
          ({| t_nat := None; t_mapping := stale_all; t_done := t_done t |},
           [CallGetExternalAddress (Some external_ip); CallGetInternalAddress None])
      | Some internal_ip =>
          let st :=
            foldl (refreshMapping_remap external_ip internal_ip)
              {| r_nat := d; r_mapping := stale_all; r_droplist := [];
                 r_calls := [CallGetExternalAddress (Some external_ip);
                             CallGetInternalAddress (Some internal_ip)] |}
              (range stale_all) in
          ({| t_nat := Some (r_nat st);
              t_mapping := foldl (λ m key, delete key m) (r_mapping st) (r_droplist st);
              t_done := t_done t |},
           r_calls st)
      end
  end.

(** What a [select] of the mapper can receive.  Both modes wait for
    [t.done], for the 5 s update ticker and for one slow ticker (the
    10 min discover ticker in discover mode, the 50 min refresh ticker in
    mapping mode).  [local] is the answer of [t.t.LocalAddresses()] at
    that moment and [found] the answer of [nat.Discover()], [None] for an
    error; a mode that does not ask leaves them unused. *)
Inductive tick :=
  | Done
  | UpdateTick (local : list Addr) (found : option D)
  | SlowTick (found : option D).

(** [func (t *transport) discoverNAT()] *)
Definition discoverNAT (found : option D) (t : transport) : transport :=
  match found with
  | None => t
  | Some d =>
      let '(ok, d) := GetDeviceAddress d in
      if ok then with_nat (Some d) t else t
  end.

(** The second loop of [updateKnownAddresses]. *)
Definition updateKnownAddresses_add (st : gmap string bool * bool) (addr : Addr)
    : gmap string bool * bool :=
  let '(known, changed) := st in
  match asNATableAddr addr with
  | None => st
  | Some (proto, ip, internal_port) =>
      let key := mappingKey proto ip internal_port in
      (<[key := true]> known,
       if bool_decide (is_Some (known !! key)) then changed else true)
  end.

(** [func (t *transport) updateKnownAddresses(known map[string]bool) bool]:
    the map after the call, and the result. *)
Definition updateKnownAddresses (known : gmap string bool) (local : list Addr)
    : gmap string bool * bool :=
  let '(known, changed) :=
    foldl updateKnownAddresses_add ((λ _, false) <$> known, false) local in
  (filter (λ kv, kv.2 = true) known,
   changed || negb (bool_decide (map_Forall (λ _ ok, ok = true) known))).

(** [func (t *transport) runDiscoverMode() bool]: the transport, the
    result ([None] while the loop still waits in its [select] when the
    ticks are used up) and the ticks left over. *)
Fixpoint runDiscoverMode_loop (t : transport) (knownAddrs : gmap string bool)
    (ticks : list tick) : transport * option bool * list tick :=
  match ticks with
  | [] => (t, None, [])
  | Done :: ticks => (t, Some true, ticks)
  | UpdateTick local found :: ticks =>
      let '(knownAddrs, changed) := updateKnownAddresses knownAddrs local in
      let t := if changed then discoverNAT found t else t in
      match t_nat t with
      | Some _ => (t, Some false, ticks)
      | None => runDiscoverMode_loop t knownAddrs ticks
      end
  | SlowTick found :: ticks =>
      let t := discoverNAT found t in
      match t_nat t with
      | Some _ => (t, Some false, ticks)
      | None => runDiscoverMode_loop t knownAddrs ticks
      end
  end.

Definition runDiscoverMode (t : transport) (ticks : list tick)
    : transport * option bool * list tick :=
  runDiscoverMode_loop t ∅ ticks.

(** [func (t *transport) runMappingMode() bool], entered with the
    device [d] in [t.nat]: the transport, the result, the calls made and
    the ticks left over. *)
Fixpoint runMappingMode (d : D) (t : transport) (ticks : list tick)
    : transport * option bool * list call * list tick :=
  match ticks with
  | [] => (t, None, [], [])
  | Done :: ticks => (with_mapping ∅ t, Some true, [], ticks)
  | tk :: ticks =>
      let '(t, calls) :=
        match tk with
        | SlowTick _ => refreshMapping d t
        | UpdateTick local _ => updateMappings d t local
        | Done => (t, [])
        end in
      match t_nat t with
      | None => (with_mapping ∅ t, Some false, calls, ticks)
      | Some d =>
          let '(t, closed, calls', ticks) := runMappingMode d t ticks in
          (t, closed, calls ++ calls', ticks)
      end
  end.



(** [func (t *transport) runMapper()]: [for !closed], one mode at a
    time; [n] bounds the number of mode changes.  The result tells
    whether the loop has ended ([closed]). *)
Fixpoint runMapper_loop (n : nat) (t : transport) (ticks : list tick)
    : transport * bool * list call :=
  match n with
  | O => (t, false, [])
  | S n =>
      match t_nat t with
      | None =>
          let '(t, closed, ticks) := runDiscoverMode t ticks in
          match closed with
          | Some true => (t, true, [])
          | Some false => runMapper_loop n t ticks
          | None => (t, false, [])
          end
      | Some d =>
          let '(t, closed, calls, ticks) := runMappingMode d t ticks in
          match closed with
          | Some true => (t, true, calls)
          | Some false =>
              let '(t, closed, calls') := runMapper_loop n t ticks in
              (t, closed, calls ++ calls')
          | None => (t, false, calls)
          end
      end
  end.

(** Every mode uses up a tick before it returns, so one more round than
    there are ticks is enough. *)
Definition runMapper (t : transport) (ticks : list tick) : transport * bool * list call :=
  runMapper_loop (S (length ticks)) t ticks.

(** [func (t *transport) Close()], as far as the mapper sees it. *)
Definition Close (t : transport) : transport :=
  {| t_nat := t_nat t; t_mapping := t_mapping t; t_done := true |}.

End mapper.

(** ** Facts about the mapper *)

Section mapper_facts.
Context {IP Addr D : Type} `{NetIP IP} `{NATableAddr IP Addr} `{NAT IP D}.
Context `{GoRange}.
Implicit Types (d : D) (t : transport (Addr := Addr) (D := D)).
Implicit Types (m : natMapping (Addr := Addr)).
Implicit Types (calls : list (call (IP := IP) (Addr := Addr))).
Local Abbreviation table := (gmap string (natMapping (Addr := Addr))).
Local Abbreviation upd_vars := (upd (IP := IP) (Addr := Addr) (D := D)).

(** The two queries that open [updateMappings] and [refreshMapping]:
    the external address, then (only after an answer) the internal one.
    [None] when one of them fails. *)
Definition query_addresses d : option (IP * IP * D) :=
  match GetExternalAddress d with
  | (Some external_ip, d) =>
      match GetInternalAddress d with
      | (Some internal_ip, d) => Some (external_ip, internal_ip, d)
      | (None, _) => None
      end
  | (None, _) => None
  end.

Definition is_AddPortMapping (c : call (IP := IP) (Addr := Addr)) : bool :=
  match c with CallAddPortMapping _ _ _ => true | _ => false end.




(** *** Reconciliation *)

(** The key under which the first loop of [updateMappings] looks an
    address up, when it does not skip the address. *)
Definition natkey (internal_ip : IP) (addr : Addr) : option string :=
  if negb (is_NATableAddr addr) then None
  else
    let '(proto, ip, internal_port) := InternalAddr addr in
    if bool_decide (proto = EmptyString) || ip_is_nil ip || (internal_port <=? 0)
    then None
    else if negb (ip_Equal ip internal_ip) then None
    else Some (mappingKey proto ip internal_port).

(** A call that was answered without an error. *)
Definition call_ok (c : call (IP := IP) (Addr := Addr)) : bool :=
  match c with
  | CallGetExternalAddress r => bool_decide (is_Some r)
  | CallGetInternalAddress r => bool_decide (is_Some r)
  | CallAddPortMapping _ _ r => bool_decide (is_Some r)
  | CallMakeGlobal _ _ _ r => bool_decide (is_Some r)
  | CallDeletePortMapping _ _ => true
  end.

(** A tick succeeded when every call it made did. *)
Definition tick_succeeded calls : Prop := forallb call_ok calls = true.

(** The internal address the device reported during a tick. *)
Fixpoint reported_internal calls : option IP :=
  match calls with
  | [] => None
  | CallGetInternalAddress r :: _ => r
  | _ :: calls => reported_internal calls
  end.

(** [refresh_keys ks M]: the entries of [M] under the keys [ks] marked
    fresh, one key after the other. *)
Definition refresh_keys (ks : list string) (M : table) : table :=
  foldl (λ M k, alter (set_stale false) k M) M ks.

Lemma refresh_keys_lookup ks (M : table) k :
  refresh_keys ks M !! k
  = if decide (k ∈ ks) then set_stale false <$> M !! k else M !! k.
Proof.
  unfold refresh_keys. revert M.
  induction ks as [|k0 ks IH]; intros M; simpl.
  - destruct (decide (k ∈ [])) as [Hin|]; [|done]. by apply elem_of_nil in Hin.
  - rewrite IH. destruct (decide (k = k0)) as [->|Hne].
    + rewrite lookup_alter_eq.
      destruct (decide (k0 ∈ k0 :: ks)) as [_|Hnin].
      * destruct (decide (k0 ∈ ks)); destruct (M !! k0); done.
      * exfalso. apply Hnin, list_elem_of_here.
    + rewrite lookup_alter_ne by done.
      destruct (decide (k ∈ ks)) as [Hin|Hnin];
        destruct (decide (k ∈ k0 :: ks)) as [Hin'|Hnin']; try done.
      * exfalso. by apply Hnin', list_elem_of_further.
      * apply elem_of_cons in Hin' as [?|?]; done.
Qed.

Lemma set_stale_id m : set_stale (stale m) m = m.
Proof. by destruct m. Qed.

Lemma set_stale_set_stale b b' m : set_stale b (set_stale b' m) = set_stale b m.
Proof. done. Qed.

(** The first loop only ever adds calls. *)
Lemma updateMappings_add_calls e i (st : upd_vars) addr :
  ∃ extra, u_calls (updateMappings_add e i st addr) = u_calls st ++ extra.
Proof.
  unfold updateMappings_add.
  destruct (is_NATableAddr addr); simpl; [|by exists []; rewrite app_nil_r].
  destruct (InternalAddr addr) as [[proto ip] port].
  destruct (_ || _); [by exists []; rewrite app_nil_r|].
  destruct (ip_Equal ip i); simpl; [|by exists []; rewrite app_nil_r].
  destruct (u_tmapping st !! _); simpl; [by exists []; rewrite app_nil_r|].
  destruct (AddPortMapping _ _ _) as [[p|] d']; simpl; [|by eexists].
  destruct (MakeGlobal _ _ _); simpl; rewrite <-app_assoc; by eexists.
Qed.

Lemma foldl_updateMappings_add_calls e i local (st : upd_vars) :
  ∃ extra,
    u_calls (foldl (updateMappings_add e i) st local) = u_calls st ++ extra.
Proof.
  revert st. induction local as [|addr local IH]; intros st; simpl.
  - exists []. by rewrite app_nil_r.
  - destruct (IH (updateMappings_add e i st addr)) as [x2 ->].
    destruct (updateMappings_add_calls e i st addr) as [x1 ->].
    exists (x1 ++ x2). by rewrite app_assoc.
Qed.

Lemma tick_succeeded_app calls1 calls2 :
  tick_succeeded (calls1 ++ calls2) ↔ tick_succeeded calls1 ∧ tick_succeeded calls2.
Proof. unfold tick_succeeded. rewrite forallb_app. apply andb_true_iff. Qed.

(** What the first loop has established once it has gone through the
    addresses with keys [ks]: every entry of [t.mapping] is still in the
    local map; the keys seen have a fresh entry; no other entry is
    fresh. *)
Record add_inv (ks : list string) (st : upd_vars) : Prop := {
  inv_sub : ∀ k, is_Some (u_tmapping st !! k) → is_Some (u_mapping st !! k);
  inv_seen : ∀ k, k ∈ ks → ∃ m, u_mapping st !! k = Some m ∧ stale m = false;
  inv_fresh : ∀ k m, u_mapping st !! k = Some m → stale m = false → k ∈ ks
}.

Lemma add_inv_step e i ks (st : upd_vars) addr :
  add_inv ks st →
  tick_succeeded (u_calls (updateMappings_add e i st addr)) →
  add_inv (ks ++ from_option (λ k, [k]) [] (natkey i addr))
    (updateMappings_add e i st addr).
Proof.
  intros [Hsub Hseen Hfresh]. unfold updateMappings_add, natkey.
  destruct (is_NATableAddr addr); simpl; [|by rewrite app_nil_r].
  destruct (InternalAddr addr) as [[proto ip] port].
  destruct (_ || _); simpl; [by rewrite app_nil_r|].
  destruct (ip_Equal ip i); simpl; [|by rewrite app_nil_r].
  set (key := mappingKey proto ip port).
  destruct (u_tmapping st !! key) as [m0|] eqn:Etm; simpl.
  - intros _. destruct (Hsub key) as [m1 Em1]; [by eexists|].
    split; simpl.
    + intros k. rewrite !lookup_alter_is_Some. apply Hsub.
    + intros k [Hk| ->%list_elem_of_singleton]%elem_of_app.
      * destruct (Hseen k Hk) as (m & Em & Hst).
        destruct (decide (k = key)) as [->|Hne].
        -- rewrite lookup_alter_eq, Em. by eexists.
        -- rewrite lookup_alter_ne by done. by eexists.
      * rewrite lookup_alter_eq, Em1. by eexists.
    + intros k m. destruct (decide (k = key)) as [->|Hne].
      * intros _ _. apply elem_of_app. right. by apply list_elem_of_singleton.
      * rewrite lookup_alter_ne by done. intros Em Hst.
        apply elem_of_app. left. by apply (Hfresh k m).
  - destruct (AddPortMapping (u_nat st) proto port) as [[p|] d'] eqn:Eadd; simpl.
    + destruct (MakeGlobal addr e p) as [g|] eqn:Eg; simpl.
      * intros _. split; simpl.
        -- intros k Hk. rewrite lookup_insert_is_Some'. right. by apply Hsub.
        -- intros k [Hk| ->%list_elem_of_singleton]%elem_of_app.
           ++ destruct (decide (k = key)) as [->|Hne].
              ** rewrite lookup_insert_eq. by eexists.
              ** rewrite lookup_insert_ne by done. by apply Hseen.
           ++ rewrite lookup_insert_eq. by eexists.
        -- intros k m. destruct (decide (k = key)) as [->|Hne].
           ++ intros _ _. apply elem_of_app. right. by apply list_elem_of_singleton.
           ++ rewrite lookup_insert_ne by done. intros Em Hst.
              apply elem_of_app. left. by apply (Hfresh k m).
      * intros Hok. rewrite <-app_assoc in Hok.
        apply tick_succeeded_app in Hok as [_ Hok]. by vm_compute in Hok.
    + intros Hok. apply tick_succeeded_app in Hok as [_ Hok]. by vm_compute in Hok.
Qed.

(** The keys of the addresses the first loop does not skip. *)
Definition natkeys (internal_ip : IP) (local : list Addr) : list string :=
  omap (natkey internal_ip) local.

Lemma natkeys_cons i addr local :
  natkeys i (addr :: local)
  = from_option (λ k, [k]) [] (natkey i addr) ++ natkeys i local.
Proof. unfold natkeys. simpl. by destruct (natkey i addr). Qed.

Lemma add_inv_foldl e i local ks (st : upd_vars) :
  add_inv ks st →
  tick_succeeded (u_calls (foldl (updateMappings_add e i) st local)) →
  add_inv (ks ++ natkeys i local) (foldl (updateMappings_add e i) st local).
Proof.
  revert ks st. induction local as [|addr local IH]; intros ks st Hinv Hok.
  - simpl. by rewrite app_nil_r.
  - rewrite natkeys_cons, app_assoc. simpl in *. apply IH; [|done].
    apply add_inv_step; [done|].
    destruct (foldl_updateMappings_add_calls e i local
                (updateMappings_add e i st addr)) as [extra E].
    rewrite E in Hok. by apply tick_succeeded_app in Hok as [? _].
Qed.

(** When every address the loop does not skip already has an entry in
    [t.mapping], the loop asks the device for nothing and only marks
    those entries fresh. *)
Lemma foldl_updateMappings_add_known e i local (st : upd_vars) :
  (∀ k, k ∈ natkeys i local → is_Some (u_tmapping st !! k)) →
  foldl (updateMappings_add e i) st local
  = {| u_nat := u_nat st;
       u_tmapping := refresh_keys (natkeys i local) (u_tmapping st);
       u_mapping := refresh_keys (natkeys i local) (u_mapping st);
       u_calls := u_calls st |}.
Proof.
  revert st. induction local as [|addr local IH]; intros st Hk.
  - by destruct st.
  - rewrite natkeys_cons in Hk |- *. simpl.
    assert (updateMappings_add e i st addr
            = {| u_nat := u_nat st;
                 u_tmapping :=
                   refresh_keys (from_option (λ k, [k]) [] (natkey i addr))
                     (u_tmapping st);
                 u_mapping :=
                   refresh_keys (from_option (λ k, [k]) [] (natkey i addr))
                     (u_mapping st);
                 u_calls := u_calls st |}) as ->.
    { revert Hk. unfold updateMappings_add, natkey.
      destruct (is_NATableAddr addr); simpl; [|by destruct st].
      destruct (InternalAddr addr) as [[proto ip] port].
      destruct (_ || _); simpl; [by destruct st|].
      destruct (ip_Equal ip i); simpl; [|by destruct st].
      intros Hk. destruct (Hk (mappingKey proto ip port)) as [m0 ->]; [|done].
      apply list_elem_of_here. }
    rewrite IH; simpl.
    + unfold refresh_keys. by rewrite !foldl_app.
    + intros k Hin. unfold refresh_keys.
      assert (is_Some (u_tmapping st !! k)) as [m Em].
      { apply Hk, elem_of_app. by right. }
      pose proof (refresh_keys_lookup
                    (from_option (λ k, [k]) [] (natkey i addr)) (u_tmapping st) k) as E.
      unfold refresh_keys in E. rewrite E, Em. by destruct (decide _).
Qed.

(** The second loop leaves alone a map with nothing to unmap. *)
Lemma foldl_updateMappings_sweep_none (entries : list (string * natMapping))
    (st : D * table * list call) :
  Forall (λ kv, stale kv.2 && deletable kv.2 = false) entries →
  foldl updateMappings_sweep st entries = st.
Proof.
  revert st. induction entries as [|[k m] entries IH]; intros st Hall; [done|].
  apply Forall_cons in Hall as [Hm Hall]. simpl in *.
  rewrite <-(IH st Hall) at 2. f_equal.
  destruct st as [[d M] calls]. unfold updateMappings_sweep.
  destruct (stale m); [|done]. simpl in Hm. by rewrite Hm.
Qed.

(** The map the second loop leaves: an entry goes when it is stale and
    can be unmapped, and stays, as it is, otherwise. *)
Lemma foldl_updateMappings_sweep_lookup (entries : list (string * natMapping))
    (st : D * table * list call) k :
  (foldl updateMappings_sweep st entries).1.2 !! k
  = if existsb (λ kv, bool_decide (kv.1 = k) && stale kv.2 && deletable kv.2) entries
    then None else st.1.2 !! k.
Proof.
  revert st. induction entries as [|[k0 m] entries IH]; intros st; [done|].
  simpl. rewrite IH. destruct st as [[d M] calls]. unfold updateMappings_sweep.
  destruct (existsb _ entries); simpl.
  { by rewrite orb_true_r. }
  rewrite orb_false_r.
  destruct (stale m); simpl; [|by rewrite andb_false_r].
  destruct (deletable m) eqn:Edel; simpl; [|by rewrite !andb_false_r].
  destruct (InternalAddr (internal m)) as [[proto ip] port]. simpl.
  rewrite !andb_true_r.
  destruct (bool_decide_reflect (k0 = k)) as [->|Hne].
  - by rewrite lookup_delete_eq.
  - by rewrite lookup_delete_ne.
Qed.

Lemma updateMappings_sweep_range_lookup (M : table) d calls k :
  (foldl updateMappings_sweep (d, M, calls) (range M)).1.2 !! k
  = match M !! k with
    | Some m => if stale m && deletable m then None else Some m
    | None => None
    end.
Proof.
  rewrite foldl_updateMappings_sweep_lookup. simpl.
  destruct (existsb _ _) eqn:Eex.
  - apply existsb_exists in Eex as ([k' m] & Hin & Hb). simpl in Hb.
    apply list_elem_of_In, elem_of_range in Hin.
    apply andb_true_iff in Hb as [[->%bool_decide_eq_true Hs]%andb_true_iff Hd].
    by rewrite Hin, Hs, Hd.
  - destruct (M !! k) as [m|] eqn:Em; [|done].
    destruct (stale m && deletable m) eqn:Eb; [|done].
    exfalso. apply not_true_iff_false in Eex. apply Eex.
    apply existsb_exists. exists (k, m). split.
    + by apply list_elem_of_In, elem_of_range.
    + simpl. rewrite bool_decide_eq_true_2 by done.
      by rewrite andb_true_l.
Qed.

Lemma foldl_updateMappings_sweep_calls (entries : list (string * natMapping))
    (st : D * table * list call) :
  ∃ extra, (foldl updateMappings_sweep st entries).2 = st.2 ++ extra.
Proof.
  revert st. induction entries as [|[k m] entries IH]; intros st; simpl.
  - exists []. by rewrite app_nil_r.
  - destruct (IH (updateMappings_sweep st (k, m))) as [x2 ->].
    assert (∃ x1, (updateMappings_sweep st (k, m)).2 = st.2 ++ x1) as [x1 ->].
    { destruct st as [[d M] calls]. unfold updateMappings_sweep.
      destruct (stale m); simpl; [|by exists []; rewrite app_nil_r].
      destruct (deletable m); simpl; [|by exists []; rewrite app_nil_r].
      destruct (InternalAddr (internal m)) as [[proto ip] port]. by eexists. }
    exists (x1 ++ x2). by rewrite app_assoc.
Qed.

(** The state in which the first loop of [updateMappings] starts. *)
Definition upd_start (e i : IP) d t : upd_vars :=
  {| u_nat := d;
     u_tmapping := mark_all_stale (t_mapping t);
     u_mapping := mark_all_stale (t_mapping t);
     u_calls := [CallGetExternalAddress (Some e); CallGetInternalAddress (Some i)] |}.

(** [updateMappings] when both queries are answered. *)
Lemma updateMappings_answered d t local e i d' :
  query_addresses d = Some (e, i, d') →
  updateMappings d t local
  = (let st := foldl (updateMappings_add e i) (upd_start e i d' t) local in
     let r := foldl updateMappings_sweep (u_nat st, u_mapping st, u_calls st)
                (range (u_mapping st)) in
     ({| t_nat := Some r.1.1; t_mapping := r.1.2; t_done := t_done t |}, r.2)).
Proof.
  unfold query_addresses, updateMappings, upd_start.
  destruct (GetExternalAddress d) as [[e0|] d1]; [|done].
  destruct (GetInternalAddress d1) as [[i0|] d2]; [|done].
  intros [= -> -> ->]. simpl.
  by destruct (foldl updateMappings_sweep _ _) as [[? ?] ?].
Qed.

Lemma updateMappings_answered_calls d t local e i d' :
  query_addresses d = Some (e, i, d') →
  ∃ extra,
    (updateMappings d t local).2
    = [CallGetExternalAddress (Some e); CallGetInternalAddress (Some i)] ++ extra.
Proof.
  intros Hq. rewrite (updateMappings_answered _ _ _ _ _ _ Hq). simpl.
  destruct (foldl_updateMappings_sweep_calls
              (range (u_mapping (foldl (updateMappings_add e i) (upd_start e i d' t) local)))
              (u_nat (foldl (updateMappings_add e i) (upd_start e i d' t) local),
               u_mapping (foldl (updateMappings_add e i) (upd_start e i d' t) local),
               u_calls (foldl (updateMappings_add e i) (upd_start e i d' t) local)))
    as [x2 ->].
  destruct (foldl_updateMappings_add_calls e i local (upd_start e i d' t)) as [x1 ->].
  simpl. by eexists.
Qed.

Lemma updateMappings_unanswered d t local :
  query_addresses d = None →
  reported_internal (updateMappings d t local).2 = None
  ∧ ¬ tick_succeeded (updateMappings d t local).2.
Proof.
  unfold query_addresses, updateMappings.
  destruct (GetExternalAddress d) as [[e0|] d1]; [|by simpl].
  destruct (GetInternalAddress d1) as [[i0|] d2]; [done|]. by simpl.
Qed.

(** The table a successful tick leaves, seen from the addresses [local]
    it was given: every address the first loop does not skip has a fresh
    entry; the fresh entries are those; a stale entry that is left cannot
    be unmapped. *)
Lemma updateMappings_table d t local e i d' :
  query_addresses d = Some (e, i, d') →
  tick_succeeded (updateMappings d t local).2 →
  (∀ k, k ∈ natkeys i local →
        ∃ m, t_mapping (updateMappings d t local).1 !! k = Some m ∧ stale m = false)
  ∧ (∀ k m, t_mapping (updateMappings d t local).1 !! k = Some m →
            stale m = false → k ∈ natkeys i local)
  ∧ (∀ k m, t_mapping (updateMappings d t local).1 !! k = Some m →
            stale m = true → deletable m = false).
Proof.
  intros Hq. rewrite (updateMappings_answered _ _ _ _ _ _ Hq). simpl.
  set (st := foldl (updateMappings_add e i) (upd_start e i d' t) local).
  intros Hok.
  assert (add_inv ([] ++ natkeys i local) st) as [_ Hseen Hfresh].
  { apply add_inv_foldl.
    - split; simpl.
      + done.
      + intros k Hk. by apply elem_of_nil in Hk.
      + intros k m. unfold mark_all_stale. rewrite lookup_fmap.
        destruct (t_mapping t !! k); simpl; [|done]. by intros [= <-].
    - fold st.
      destruct (foldl_updateMappings_sweep_calls (range (u_mapping st))
                  (u_nat st, u_mapping st, u_calls st)) as [extra E].
      rewrite E in Hok. by apply tick_succeeded_app in Hok as [? _]. }
  simpl in Hseen, Hfresh.
  split; [|split].
  - intros k Hk. destruct (Hseen k Hk) as (m & Em & Hst).
    exists m. split; [|done].
    by rewrite updateMappings_sweep_range_lookup, Em, Hst.
  - intros k m. rewrite updateMappings_sweep_range_lookup.
    destruct (u_mapping st !! k) as [m'|] eqn:Em; [|done].
    destruct (stale m' && deletable m'); [done|]. intros [= ->]. by apply Hfresh.
  - intros k m. rewrite updateMappings_sweep_range_lookup.
    destruct (u_mapping st !! k) as [m'|] eqn:Em; [|done].
    destruct (stale m' && deletable m') eqn:Eb; [done|]. intros [= ->] Hst.
    by rewrite Hst in Eb.
Qed.

(** A second tick on the table [T] of a successful one, with the same
    addresses and the same internal address: no call after the two
    queries, and the same table. *)
Lemma updateMappings_again d t local e i d' :
  query_addresses d = Some (e, i, d') →
  (∀ k, k ∈ natkeys i local →
        ∃ m, t_mapping t !! k = Some m ∧ stale m = false) →
  (∀ k m, t_mapping t !! k = Some m → stale m = false → k ∈ natkeys i local) →
  (∀ k m, t_mapping t !! k = Some m → stale m = true → deletable m = false) →
  updateMappings d t local
  = ({| t_nat := Some d'; t_mapping := t_mapping t; t_done := t_done t |},
     [CallGetExternalAddress (Some e); CallGetInternalAddress (Some i)]).
Proof.
  intros Hq Hseen Hfresh Hkeep.
  rewrite (updateMappings_answered _ _ _ _ _ _ Hq).
  rewrite foldl_updateMappings_add_known; cycle 1.
  { intros k Hk. destruct (Hseen k Hk) as (m & Em & _). simpl.
    unfold mark_all_stale. rewrite lookup_fmap, Em. by eexists. }
  cbn [u_nat u_mapping u_calls upd_start].
  assert (refresh_keys (natkeys i local) (mark_all_stale (t_mapping t))
          = t_mapping t) as ->.
  { apply map_eq. intros k. rewrite refresh_keys_lookup.
    unfold mark_all_stale. rewrite lookup_fmap.
    destruct (t_mapping t !! k) as [m|] eqn:Em; simpl; [|by destruct (decide _)].
    destruct (decide (k ∈ natkeys i local)) as [Hin|Hnin]; simpl; f_equal.
    - destruct (Hseen k Hin) as (m' & Em' & Hst).
      assert (m' = m) as -> by congruence.
      rewrite set_stale_set_stale, <-Hst. apply set_stale_id.
    - destruct (stale m) eqn:Hst.
      + rewrite <-Hst. apply set_stale_id.
      + by destruct Hnin; apply (Hfresh k m). }
  rewrite foldl_updateMappings_sweep_none; [done|].
  apply Forall_forall. intros [k m] Hin%elem_of_range. simpl.
  destruct (stale m) eqn:Hst; [|done]. simpl. by apply (Hkeep k m).
Qed.

(** C8, as amended. Two update ticks in a row: the first one succeeded
    (every call it made was answered without error, so the device is still
    held), and for the second one the local addresses are the same and the
    device answers the two address queries and reports the same internal
    address as at the first.  Then the second tick makes no
    [AddPortMapping] call and leaves the mapping table as the first one
    left it.  Without the condition on the device the second tick can
    change the table and ask for new mappings. *)
Theorem updateMappings_idempotent d t local d1 :
  tick_succeeded (updateMappings d t local).2 →
  t_nat (updateMappings d t local).1 = Some d1 →
  reported_internal (updateMappings d1 (updateMappings d t local).1 local).2
  = reported_internal (updateMappings d t local).2 →
  forallb (λ c, negb (is_AddPortMapping c))
    (updateMappings d1 (updateMappings d t local).1 local).2 = true
  ∧ t_mapping (updateMappings d1 (updateMappings d t local).1 local).1
    = t_mapping (updateMappings d t local).1.
Proof.
  intros Hok Hd1 Hrep.
  destruct (query_addresses d) as [[[e i] d']|] eqn:Hq; cycle 1.
  { by destruct (updateMappings_unanswered d t local Hq) as [_ []]. }
  destruct (updateMappings_table d t local e i d' Hq Hok) as (Hseen & Hfresh & Hkeep).
  destruct (updateMappings_answered_calls d t local e i d' Hq) as [x1 E1].
  rewrite E1 in Hrep. simpl in Hrep.
  destruct (query_addresses d1) as [[[e2 i2] d2]|] eqn:Hq2; cycle 1.
  { destruct (updateMappings_unanswered d1 (updateMappings d t local).1 local Hq2)
      as [E _]. by rewrite E in Hrep. }
  destruct (updateMappings_answered_calls d1 (updateMappings d t local).1
              local e2 i2 d2 Hq2) as [x2 E2].
  rewrite E2 in Hrep. simpl in Hrep. injection Hrep as ->.
  by rewrite (updateMappings_again d1 (updateMappings d t local).1 local
                e2 i d2 Hq2 Hseen Hfresh Hkeep).
Qed.

(** *** Discover mode *)

(** The keys of the addresses [updateKnownAddresses] does not skip. *)
Definition known_keys (local : list Addr) : list string :=
  omap (λ addr, (λ '(proto, ip, port), mappingKey proto ip port)
                  <$> asNATableAddr addr) local.

Lemma foldl_updateKnownAddresses_add (local : list Addr) (M : gmap string bool) ch :
  (∀ k, (foldl updateKnownAddresses_add (M, ch) local).1 !! k
        = if decide (k ∈ known_keys local) then Some true else M !! k)
  ∧ ((foldl updateKnownAddresses_add (M, ch) local).2 = true
     ↔ ch = true ∨ ∃ k, k ∈ known_keys local ∧ M !! k = None).
Proof.
  revert M ch. induction local as [|addr local IH]; intros M ch.
  { simpl. split.
    - intros k. destruct (decide (k ∈ [])) as [Hin|]; [|done].
      by apply elem_of_nil in Hin.
    - split; [auto|]. intros [?|(k & Hin & _)]; [done|]. by apply elem_of_nil in Hin. }
  cbn [foldl]. unfold known_keys. cbn [omap list_omap].
  fold (known_keys local). unfold updateKnownAddresses_add at 2 4.
  destruct (asNATableAddr addr) as [[[proto ip] port]|]; cbn [fmap option_fmap option_map].
  2:{ apply IH. }
  set (key := mappingKey proto ip port).
  destruct (IH (<[key := true]> M)
              (if bool_decide (is_Some (M !! key)) then ch else true)) as [Hm Hc].
  split.
  - intros k. rewrite Hm. destruct (decide (k = key)) as [->|Hne].
    + rewrite lookup_insert_eq.
      destruct (decide (key ∈ known_keys local));
        destruct (decide (key ∈ key :: known_keys local)) as [|Hn]; try done;
        destruct Hn; apply list_elem_of_here.
    + rewrite lookup_insert_ne by done.
      destruct (decide (k ∈ known_keys local)) as [Hin|Hnin];
        destruct (decide (k ∈ key :: known_keys local)) as [Hin'|Hnin']; try done.
      * destruct Hnin'. by apply list_elem_of_further.
      * apply elem_of_cons in Hin' as [?|?]; done.
  - rewrite Hc. split.
    + intros [Hch|(k & Hin & Hk)].
      * destruct (bool_decide_reflect (is_Some (M !! key))) as [Hs|Hs]; [by left|].
        right. exists key. split; [apply list_elem_of_here|].
        by apply eq_None_not_Some.
      * right. exists k. split; [by apply list_elem_of_further|].
        apply lookup_insert_None in Hk. by destruct Hk.
    + intros [->|(k & Hin & Hk)].
      * left. by destruct (bool_decide _).
      * destruct (decide (k = key)) as [->|Hne].
        -- left. rewrite bool_decide_eq_false_2; [done|]. rewrite Hk. by intros [? ?].
        -- apply elem_of_cons in Hin as [?|Hin]; [done|].
           right. exists k. split; [done|]. by rewrite lookup_insert_ne.
Qed.

Lemma updateKnownAddresses_lookup (known : gmap string bool) (local : list Addr) k :
  (updateKnownAddresses known local).1 !! k
  = if decide (k ∈ known_keys local) then Some true else None.
Proof.
  unfold updateKnownAddresses.
  destruct (foldl_updateKnownAddresses_add local ((λ _, false) <$> known) false)
    as [Hm _].
  destruct (foldl updateKnownAddresses_add ((λ _, false) <$> known, false) local)
    as [M ch]. simpl in *.
  specialize (Hm k). rewrite lookup_fmap in Hm.
  destruct (decide (k ∈ known_keys local)).
  - apply map_lookup_filter_Some. by rewrite Hm.
  - apply map_lookup_filter_None. right. intros b Hb. rewrite Hm in Hb.
    destruct (known !! k); simpl in Hb; [|done]. by injection Hb as <-.
Qed.

Lemma updateKnownAddresses_changed (known : gmap string bool) (local : list Addr) :
  (updateKnownAddresses known local).2 = true
  ↔ ¬ ∀ k, is_Some (known !! k) ↔ k ∈ known_keys local.
Proof.
  unfold updateKnownAddresses.
  destruct (foldl_updateKnownAddresses_add local ((λ _, false) <$> known) false)
    as [Hm Hc].
  destruct (foldl updateKnownAddresses_add ((λ _, false) <$> known, false) local)
    as [M ch]. simpl in *.
  rewrite orb_true_iff, negb_true_iff, bool_decide_eq_false, Hc. split.
  - intros [[?|(k & Hin & Hk)]|Hnall] Hall; [done| |].
    + rewrite lookup_fmap in Hk. apply Hall in Hin as [b Hb]. by rewrite Hb in Hk.
    + apply Hnall. intros k b Hb. rewrite Hm in Hb.
      destruct (decide (k ∈ known_keys local)) as [|Hnin]; [by injection Hb|].
      destruct Hnin. apply Hall. rewrite lookup_fmap in Hb.
      destruct (known !! k); [by eexists|done].
  - intros Hnall.
    destruct (decide (Exists (λ k, known !! k = None) (known_keys local)))
      as [(k & Hin & Hk)%Exists_exists|Hnex].
    { left. right. exists k. split; [done|]. by rewrite lookup_fmap, Hk. }
    rewrite Exists_exists in Hnex.
    right. intros Hall. apply Hnall. intros k. split.
    + intros [b Hb]. specialize (Hall k false). rewrite Hm in Hall.
      destruct (decide (k ∈ known_keys local)) as [|Hnin]; [done|].
      rewrite lookup_fmap, Hb in Hall. by specialize (Hall eq_refl).
    + intros Hin. destruct (known !! k) eqn:Ek; [by eexists|].
      destruct Hnex. by exists k.
Qed.

(** X8. [updateKnownAddresses] leaves in the map exactly the keys of the
    current NATable local addresses, each marked true, and returns true
    exactly when that set of keys differs from the keys the map held
    before (a key is new, or a key is gone).  What the map said about a
    key before plays no role. *)
Theorem updateKnownAddresses_result (known : gmap string bool) (local : list Addr) :
  (∀ k, (updateKnownAddresses known local).1 !! k
        = if decide (k ∈ known_keys local) then Some true else None)
  ∧ ((updateKnownAddresses known local).2 = true
     ↔ ¬ ∀ k, is_Some (known !! k) ↔ k ∈ known_keys local).
Proof.
  split.
  - intros k. apply updateKnownAddresses_lookup.
  - apply updateKnownAddresses_changed.
Qed.

(** X9. In discover mode the device is looked for only when the local
    addresses change or the slow ticker fires: an update tick that finds
    the addresses as the update tick before found them changes nothing,
    even when a device could be discovered by now. *)
Theorem discover_update_tick_unchanged t (known : gmap string bool) local found ticks :
  t_nat t = None →
  runDiscoverMode_loop t known
    (UpdateTick local None :: UpdateTick local found :: ticks)
  = runDiscoverMode_loop t known (UpdateTick local None :: ticks).
Proof.
  intros Hnat. cbn [runDiscoverMode_loop].
  destruct (updateKnownAddresses known local) as [known1 ch1] eqn:E1.
  assert (t_nat (if ch1 then discoverNAT None t else t) = None) as ->
    by by destruct ch1.
  assert ((if ch1 then discoverNAT None t else t) = t) as -> by by destruct ch1.
  destruct (updateKnownAddresses known1 local) as [known2 ch2] eqn:E2.
  assert (∀ k, known1 !! k = if decide (k ∈ known_keys local) then Some true else None)
    as Hk1.
  { intros k. pose proof (updateKnownAddresses_lookup known local k) as E.
    by rewrite E1 in E. }
  assert (ch2 = false) as ->.
  { apply not_true_is_false. intros Hch.
    pose proof (updateKnownAddresses_changed known1 local) as Hiff.
    rewrite E2 in Hiff. apply Hiff in Hch. apply Hch. intros k.
    rewrite Hk1. destruct (decide (k ∈ known_keys local)); split;
      [done|by eexists|by intros [? ?]|done]. }
  assert (known2 = known1) as ->.
  { apply map_eq. intros k. rewrite Hk1.
    pose proof (updateKnownAddresses_lookup known1 local k) as E.
    by rewrite E2 in E. }
  by rewrite Hnat.
Qed.

(** *** The mapping table *)

(** An entry is filed under the key of its own internal address, which
    is a NATable address with a protocol, an IP address and a positive
    port. *)
Definition entry_wf (key : string) m : Prop :=
  ∃ proto ip port,
    asNATableAddr (internal m) = Some (proto, ip, port)
    ∧ key = mappingKey proto ip port.

Definition table_wf (M : table) : Prop := map_Forall entry_wf M.

Lemma entry_wf_internal key m m' :
  internal m' = internal m → entry_wf key m → entry_wf key m'.
Proof. unfold entry_wf. by intros ->. Qed.

Lemma entry_wf_deletable key m : entry_wf key m → deletable m = true.
Proof.
  intros (proto & ip & port & Has & _). revert Has. unfold asNATableAddr, deletable.
  destruct (is_NATableAddr (internal m)); [|done]. simpl.
  destruct (InternalAddr (internal m)) as [[proto' ip'] port'].
  destruct (bool_decide (proto' = EmptyString)); [done|]. simpl.
  destruct (ip_is_nil ip'); [done|]. simpl.
  by destruct (port' <=? 0).
Qed.

Lemma natkey_asNATableAddr i addr k :
  natkey i addr = Some k →
  ∃ proto ip port,
    asNATableAddr addr = Some (proto, ip, port) ∧ k = mappingKey proto ip port
    ∧ ip_Equal ip i = true.
Proof.
  unfold natkey, asNATableAddr. destruct (is_NATableAddr addr); [|done]. simpl.
  destruct (InternalAddr addr) as [[proto ip] port].
  destruct (_ || _); [done|]. destruct (ip_Equal ip i) eqn:E; [|done]. simpl.
  intros [= <-]. by exists proto, ip, port.
Qed.

Lemma table_wf_mark_all_stale (M : table) : table_wf M → table_wf (mark_all_stale M).
Proof.
  intros HM k m. unfold mark_all_stale. rewrite lookup_fmap.
  destruct (M !! k) as [m0|] eqn:E; [|done]. intros [= <-].
  by apply (entry_wf_internal k m0), (HM k).
Qed.

Lemma updateMappings_add_wf e i (st : upd_vars) addr :
  table_wf (u_mapping st) → table_wf (u_mapping (updateMappings_add e i st addr)).
Proof.
  intros Hwf.
  unfold updateMappings_add.
  destruct (is_NATableAddr addr) eqn:Enat; simpl; [|done].
  destruct (InternalAddr addr) as [[proto ip] port] eqn:Eint.
  destruct (_ || _) eqn:Eor; [done|]. destruct (ip_Equal ip i); [|done]. simpl.
  destruct (u_tmapping st !! _); simpl.
  - intros k m. destruct (decide (k = mappingKey proto ip port)) as [->|Hne].
    + rewrite lookup_alter_eq. destruct (u_mapping st !! _) as [m0|] eqn:E; [|done].
      intros [= <-]. by apply (entry_wf_internal _ m0), (Hwf _ _ E).
    + rewrite lookup_alter_ne by done. apply Hwf.
  - destruct (AddPortMapping _ _ _) as [[p|] d']; simpl; [|done].
    destruct (MakeGlobal addr e p) as [g|]; simpl; [|done].
    intros k m [[<- <-]|[_ Hm]]%lookup_insert_Some; [|by apply (Hwf k)].
    exists proto, ip, port. split; [|done]. simpl.
    unfold asNATableAddr. by rewrite Enat, Eint, Eor.
Qed.

Lemma foldl_updateMappings_add_wf e i local (st : upd_vars) :
  table_wf (u_mapping st) →
  table_wf (u_mapping (foldl (updateMappings_add e i) st local)).
Proof.
  revert st. induction local as [|addr local IH]; intros st Hwf; [done|].
  simpl. by apply IH, updateMappings_add_wf.
Qed.

Lemma foldl_delete_lookup (M : table) (keys : list string) k m :
  foldl (λ M key, delete key M) M keys !! k = Some m → M !! k = Some m.
Proof.
  revert M. induction keys as [|key keys IH]; intros M; [done|]. simpl.
  intros Hm%IH. apply lookup_delete_Some in Hm. by destruct Hm.
Qed.

(** The entries of the local map during the loop of [refreshMapping]:
    entries of the table as it was, with the same internal address, and
    marked stale. *)
Lemma foldl_refreshMapping_remap e i (M0 : table) entries (st : refr) :
  (∀ k m', r_mapping st !! k = Some m' →
           ∃ m, M0 !! k = Some m ∧ internal m' = internal m ∧ stale m' = true) →
  ∀ k m', r_mapping (foldl (refreshMapping_remap e i) st entries) !! k = Some m' →
          ∃ m, M0 !! k = Some m ∧ internal m' = internal m ∧ stale m' = true.
Proof.
  revert st. induction entries as [|[key m1] entries IH]; intros st Hst; [done|].
  simpl. apply IH. clear IH.
  unfold refreshMapping_remap, refr_drop.
  destruct (asNATableAddr (internal m1)) as [[[proto ip] port]|]; [|done].
  destruct (ip_Equal ip i); simpl; [|done].
  destruct (AddPortMapping _ _ _) as [[p|] d']; simpl; [|done].
  destruct (MakeGlobal _ _ _) as [g|]; simpl; [|done].
  intros k m'. destruct (decide (k = key)) as [->|Hne].
  - rewrite lookup_alter_eq. destruct (r_mapping st !! key) as [m2|] eqn:E; [|done].
    intros [= <-]. by apply (Hst key m2).
  - rewrite lookup_alter_ne by done. apply Hst.
Qed.

Lemma refreshMapping_entries d t k m' :
  t_mapping (refreshMapping d t).1 !! k = Some m' →
  ∃ m, t_mapping t !! k = Some m ∧ internal m' = internal m ∧ stale m' = true.
Proof.
  assert (∀ k m', mark_all_stale (t_mapping t) !! k = Some m' →
            ∃ m, t_mapping t !! k = Some m ∧ internal m' = internal m
                 ∧ stale m' = true) as Hstart.
  { intros k0 m0. unfold mark_all_stale. rewrite lookup_fmap.
    destruct (t_mapping t !! k0) as [m|]; [|done]. intros [= <-]. by exists m. }
  unfold refreshMapping.
  destruct (GetExternalAddress d) as [[e|] d1]; [|by apply Hstart].
  destruct (GetInternalAddress d1) as [[i|] d2]; [|by apply Hstart].
  simpl. intros Hm%foldl_delete_lookup. revert Hm.
  by apply foldl_refreshMapping_remap.
Qed.

Lemma updateMappings_wf d t local :
  table_wf (t_mapping t) → table_wf (t_mapping (updateMappings d t local).1).
Proof.
  intros Hwf. unfold updateMappings.
  destruct (GetExternalAddress d) as [[e|] d1];
    [|by apply table_wf_mark_all_stale].
  destruct (GetInternalAddress d1) as [[i|] d2];
    [|by apply table_wf_mark_all_stale].
  set (st := foldl _ _ local).
  assert (table_wf (u_mapping st)) as Hst.
  { apply foldl_updateMappings_add_wf. by apply table_wf_mark_all_stale. }
  intros k m Hm.
  pose proof (updateMappings_sweep_range_lookup (u_mapping st) (u_nat st)
                (u_calls st) k) as E.
  destruct (foldl updateMappings_sweep _ _) as [[d3 M3] c3]. simpl in *.
  rewrite Hm in E. destruct (u_mapping st !! k) as [m0|] eqn:E0; [|done].
  destruct (stale m0 && deletable m0); [done|]. injection E as ->.
  by apply (Hst k).
Qed.

(** X10. The mapping table stays well-formed: if every entry is filed
    under the key of its own internal address, and that address is
    NATable with a protocol, an IP address and a positive port, then the
    same holds after [updateMappings] and after [refreshMapping], whatever
    the device answers. *)
Theorem table_wf_kept d t local :
  table_wf (t_mapping t) →
  table_wf (t_mapping (updateMappings d t local).1)
  ∧ table_wf (t_mapping (refreshMapping d t).1).
Proof.
  intros Hwf. split; [by apply updateMappings_wf|].
  intros k m' (m & Hm & Hint & _)%refreshMapping_entries.
  by apply (entry_wf_internal k m), (Hwf k).
Qed.

(** X11. [refreshMapping] never adds a mapping and never moves one:
    every entry it leaves is an entry of the table as it was, under the
    same key and with the same internal address.  It leaves every entry
    marked stale, so until the next update tick marks the current ones
    fresh the table tells nothing about staleness. *)
Theorem refreshMapping_keeps_or_drops d t k m' :
  t_mapping (refreshMapping d t).1 !! k = Some m' →
  ∃ m, t_mapping t !! k = Some m ∧ internal m' = internal m ∧ stale m' = true.
Proof. apply refreshMapping_entries. Qed.

(** X12. An update tick that succeeded on a well-formed table leaves
    exactly one entry for every local address the device can map (NATable,
    with the internal address the device reported), every one of them
    fresh, and nothing else. *)
Theorem updateMappings_reconciles d t local e i d' :
  table_wf (t_mapping t) →
  query_addresses d = Some (e, i, d') →
  tick_succeeded (updateMappings d t local).2 →
  (∀ k, is_Some (t_mapping (updateMappings d t local).1 !! k)
        ↔ k ∈ natkeys i local)
  ∧ map_Forall (λ _ m, stale m = false) (t_mapping (updateMappings d t local).1).
Proof.
  intros Hwf Hq Hok.
  destruct (updateMappings_table d t local e i d' Hq Hok) as (Hseen & Hfresh & Hkeep).
  pose proof (updateMappings_wf d t local Hwf) as Hwf'.
  assert (∀ k m, t_mapping (updateMappings d t local).1 !! k = Some m →
                 stale m = false) as Hall.
  { intros k m Hm. destruct (stale m) eqn:Hst; [|done].
    pose proof (Hkeep k m Hm Hst) as Hdel.
    by rewrite (entry_wf_deletable k m (Hwf' k m Hm)) in Hdel. }
  split; [|exact Hall].
  intros k. split.
  - intros [m Hm]. by apply (Hfresh k m Hm), (Hall k).
  - intros Hk. destruct (Hseen k Hk) as (m & Hm & _). by exists m.
Qed.

Lemma elem_of_natkeys_cons i addr local k :
  k ∈ natkeys i (addr :: local) ↔ natkey i addr = Some k ∨ k ∈ natkeys i local.
Proof.
  rewrite natkeys_cons, elem_of_app.
  destruct (natkey i addr) as [k0|]; simpl.
  - rewrite list_elem_of_singleton. split.
    + intros [->|?]; [by left|by right].
    + intros [[= ->]|?]; [by left|by right].
  - rewrite elem_of_nil. split; [intros [[]|?]; by right|].
    intros [?|?]; [done|by right].
Qed.

(** What the first loop does to an entry that [t.mapping] held at the
    start: it marks the entry fresh when it meets its address, and leaves
    it alone otherwise. *)
Lemma updateMappings_add_old e i (st : upd_vars) addr k :
  is_Some (u_tmapping st !! k) →
  is_Some (u_tmapping (updateMappings_add e i st addr) !! k)
  ∧ u_mapping (updateMappings_add e i st addr) !! k
    = if decide (natkey i addr = Some k)
      then set_stale false <$> u_mapping st !! k else u_mapping st !! k.
Proof.
  intros Hk. unfold updateMappings_add, natkey.
  destruct (is_NATableAddr addr); simpl; [|done].
  destruct (InternalAddr addr) as [[proto ip] port].
  destruct (_ || _); [by simpl|].
  destruct (ip_Equal ip i); simpl; [|done].
  destruct (decide (Some (mappingKey proto ip port) = Some k)) as [[= <-]|Hne].
  - destruct Hk as [m0 Em0]. rewrite Em0. simpl. rewrite !lookup_alter_eq.
    rewrite Em0. split; [by eexists|done].
  - assert (mappingKey proto ip port ≠ k) as Hne' by congruence.
    destruct (u_tmapping st !! mappingKey proto ip port); simpl.
    + by rewrite !lookup_alter_ne.
    + destruct (AddPortMapping _ _ _) as [[p|] d']; simpl; [|done].
      destruct (MakeGlobal _ _ _); simpl; [|done].
      by rewrite lookup_insert_ne.
Qed.

Lemma foldl_updateMappings_add_old e i local (st : upd_vars) k :
  is_Some (u_tmapping st !! k) →
  u_mapping (foldl (updateMappings_add e i) st local) !! k
  = if decide (k ∈ natkeys i local)
    then set_stale false <$> u_mapping st !! k else u_mapping st !! k.
Proof.
  revert st. induction local as [|addr local IH]; intros st Hk.
  { simpl. destruct (decide (k ∈ natkeys i [])) as [Hin|]; [|done].
    by apply elem_of_nil in Hin. }
  destruct (updateMappings_add_old e i st addr k Hk) as [Hk' E].
  cbn [foldl]. rewrite (IH _ Hk'), E.
  pose proof (elem_of_natkeys_cons i addr local k) as Hcons.
  destruct (decide (k ∈ natkeys i (addr :: local)));
    destruct (decide (natkey i addr = Some k));
    destruct (decide (k ∈ natkeys i local)); try done; try tauto.
  by destruct (u_mapping st !! k).
Qed.

(** The device after a list of calls made on it, one after the other;
    [MakeGlobal] is a method of the address, not of the device. *)
Definition replay_call (d : D) (c : call (IP := IP) (Addr := Addr)) : D :=
  match c with
  | CallGetExternalAddress _ => (GetExternalAddress d).2
  | CallGetInternalAddress _ => (GetInternalAddress d).2
  | CallAddPortMapping proto internal_port _ => (AddPortMapping d proto internal_port).2
  | CallMakeGlobal _ _ _ _ => d
  | CallDeletePortMapping proto internal_port => DeletePortMapping d proto internal_port
  end.

Definition replay (d : D) calls : D := foldl replay_call d calls.

(** The call that unmaps an entry. *)
Definition unmap_call m : call (IP := IP) (Addr := Addr) :=
  let '(proto, _, internal_port) := InternalAddr (internal m) in
  CallDeletePortMapping proto internal_port.

Lemma replay_app d calls1 calls2 :
  replay d (calls1 ++ calls2) = replay (replay d calls1) calls2.
Proof. apply foldl_app. Qed.

(** Both loops make their calls on the device they hold and record each
    of them. *)
Lemma updateMappings_add_replay e i (st : upd_vars) addr d0 :
  u_nat st = replay d0 (u_calls st) →
  u_nat (updateMappings_add e i st addr)
  = replay d0 (u_calls (updateMappings_add e i st addr)).
Proof.
  intros Hst. unfold updateMappings_add.
  destruct (is_NATableAddr addr); simpl; [|done].
  destruct (InternalAddr addr) as [[proto ip] port].
  destruct (_ || _); [done|]. destruct (ip_Equal ip i); simpl; [|done].
  destruct (u_tmapping st !! _); simpl; [done|].
  destruct (AddPortMapping (u_nat st) proto port) as [r d1] eqn:Eadd.
  assert (d1 = replay d0 (u_calls st ++ [CallAddPortMapping proto port r])) as Hd1.
  { rewrite replay_app, <-Hst. simpl. by rewrite Eadd. }
  destruct r as [p|]; simpl; [|done].
  destruct (MakeGlobal addr e p); simpl; by rewrite replay_app, <-Hd1.
Qed.

Lemma foldl_updateMappings_add_replay e i local (st : upd_vars) d0 :
  u_nat st = replay d0 (u_calls st) →
  u_nat (foldl (updateMappings_add e i) st local)
  = replay d0 (u_calls (foldl (updateMappings_add e i) st local)).
Proof.
  revert st. induction local as [|addr local IH]; intros st Hst; [done|].
  simpl. by apply IH, updateMappings_add_replay.
Qed.

Lemma foldl_updateMappings_sweep_replay (entries : list (string * natMapping))
    (st : D * table * list call) d0 :
  st.1.1 = replay d0 st.2 →
  (foldl updateMappings_sweep st entries).1.1
  = replay d0 (foldl updateMappings_sweep st entries).2.
Proof.
  revert st. induction entries as [|[k m] entries IH]; intros st Hst; [done|].
  simpl. apply IH. destruct st as [[d1 M] calls]. simpl in Hst.
  unfold updateMappings_sweep.
  destruct (stale m); simpl; [|done]. destruct (deletable m); simpl; [|done].
  destruct (InternalAddr (internal m)) as [[proto ip] port]. simpl.
  by rewrite replay_app, <-Hst.
Qed.

(** The second loop unmaps every entry that is stale and can be
    unmapped. *)
Lemma foldl_updateMappings_sweep_unmaps (entries : list (string * natMapping))
    (st : D * table * list call) k m :
  (k, m) ∈ entries → stale m = true → deletable m = true →
  unmap_call m ∈ (foldl updateMappings_sweep st entries).2.
Proof.
  revert st. induction entries as [|[k0 m0] entries IH]; intros st Hin Hs Hd.
  { by apply elem_of_nil in Hin. }
  simpl. apply elem_of_cons in Hin as [[= <- <-]|Hin]; [|by apply IH].
  destruct (foldl_updateMappings_sweep_calls entries
              (updateMappings_sweep st (k, m))) as [extra ->].
  apply elem_of_app. left.
  destruct st as [[d1 M] calls]. unfold updateMappings_sweep, unmap_call.
  rewrite Hs, Hd. simpl.
  destruct (InternalAddr (internal m)) as [[proto ip] port]. simpl.
  apply elem_of_app. right. apply list_elem_of_here.
Qed.

(** X13. What an update tick does to an entry the table already holds,
    once the device has answered the two queries, whatever it answers
    afterwards: the entry is kept and marked fresh when its key is the key
    of a local address on the device's network; otherwise it is unmapped
    and dropped when its internal address has a protocol and a positive
    port, and kept as a stale entry when it has not.  Unmapped: the tick
    makes the call [DeletePortMapping] for the protocol and port of the
    entry, and the device the transport holds afterwards is the device
    after the calls of the tick, that one included. *)
Theorem updateMappings_known_entries d t local e i d' k m :
  query_addresses d = Some (e, i, d') →
  t_mapping t !! k = Some m →
  t_mapping (updateMappings d t local).1 !! k
  = (if decide (k ∈ natkeys i local) then Some (set_stale false m)
     else if deletable m then None else Some (set_stale true m))
  ∧ (k ∉ natkeys i local → deletable m = true →
     unmap_call m ∈ (updateMappings d t local).2)
  ∧ t_nat (updateMappings d t local).1
    = Some (replay d (updateMappings d t local).2).
Proof.
  intros Hq Hm. rewrite (updateMappings_answered _ _ _ _ _ _ Hq). simpl.
  assert (mark_all_stale (t_mapping t) !! k = Some (set_stale true m)) as Hst.
  { unfold mark_all_stale. by rewrite lookup_fmap, Hm. }
  pose proof (foldl_updateMappings_add_old e i local (upd_start e i d' t) k) as Hold.
  simpl in Hold. rewrite Hst in Hold. specialize (Hold (mk_is_Some _ _ eq_refl)).
  split; [|split].
  - rewrite updateMappings_sweep_range_lookup, Hold.
    destruct (decide (k ∈ natkeys i local)); simpl; [done|].
    change (deletable (set_stale true m)) with (deletable m).
    by destruct (deletable m).
  - intros Hk Hdel.
    destruct (decide (k ∈ natkeys i local)) as [?|_]; [done|].
    apply (foldl_updateMappings_sweep_unmaps _ _ k (set_stale true m));
      [|done|done].
    by apply elem_of_range.
  - f_equal. apply foldl_updateMappings_sweep_replay. simpl.
    apply foldl_updateMappings_add_replay. simpl.
    revert Hq. unfold query_addresses.
    destruct (GetExternalAddress d) as [[e0|] d1]; [|done].
    destruct (GetInternalAddress d1) as [[i0|] d2] eqn:Ei; [|done].
    intros [= _ _ <-]. simpl. by rewrite Ei.
Qed.

(** *** The mapper loop *)

(** The transport on which [Config.Open] starts [runMapper], once the
    wrapped transport has opened: no device, an empty table, [done]
    open. *)
Definition Open : transport (Addr := Addr) (D := D) :=
  {| t_nat := None; t_mapping := ∅; t_done := false |}.

Lemma discoverNAT_mapping found t :
  t_mapping (discoverNAT found t) = t_mapping t.
Proof.
  unfold discoverNAT. destruct found as [d|]; [|done].
  destruct (GetDeviceAddress d) as [[|] d']; done.
Qed.

Lemma elem_of_Done_cons (tk : tick (Addr := Addr) (D := D)) ticks :
  tk ≠ Done → Done ∈ tk :: ticks ↔ Done ∈ ticks.
Proof.
  intros Htk. rewrite elem_of_cons. split; [|by right].
  intros [?|?]; [congruence|done].
Qed.

(** Discover mode: it leaves the table alone; it returns [true] on
    [done], [false] with a device, and in both cases has used up a tick. *)
Lemma runDiscoverMode_loop_spec t (known : gmap string bool) ticks t' closed ticks' :
  runDiscoverMode_loop t known ticks = (t', closed, ticks') →
  t_mapping t' = t_mapping t
  ∧ match closed with
    | Some true => Done ∈ ticks ∧ (length ticks' < length ticks)%nat
    | Some false =>
        (Done ∈ ticks ↔ Done ∈ ticks') ∧ (length ticks' < length ticks)%nat
        ∧ is_Some (t_nat t')
    | None => Done ∉ ticks
    end.
Proof.
  revert t known. induction ticks as [|tk ticks IH]; intros t known;
    cbn [runDiscoverMode_loop].
  { intros [= <- <- <-]. split; [done|]. apply not_elem_of_nil. }
  assert (∀ t1 known1,
            t_mapping t1 = t_mapping t → tk ≠ Done →
            match t_nat t1 with
            | Some _ => (t1, Some false, ticks)
            | None => runDiscoverMode_loop t1 known1 ticks
            end = (t', closed, ticks') →
            t_mapping t' = t_mapping t
            ∧ match closed with
              | Some true =>
                  Done ∈ tk :: ticks ∧ (length ticks' < length (tk :: ticks))%nat
              | Some false =>
                  (Done ∈ tk :: ticks ↔ Done ∈ ticks')
                  ∧ (length ticks' < length (tk :: ticks))%nat
                  ∧ is_Some (t_nat t')
              | None => Done ∉ tk :: ticks
              end) as Hstep.
  { intros t1 known1 Hmap Htk. pose proof (elem_of_Done_cons tk ticks Htk) as Hcons.
    destruct (t_nat t1) as [d1|] eqn:Enat.
    - intros [= <- <- <-]. split; [done|]. split; [done|]. split; [simpl; lia|].
      rewrite Enat. by eexists.
    - intros [Hm Hc]%IH. split; [congruence|].
      destruct closed as [[|]|]; rewrite Hcons; [| |done].
      + destruct Hc as [Hin Hlen]. split; [done|simpl; lia].
      + destruct Hc as (Hiff & Hlen & Hs). split; [done|]. split; [simpl; lia|done]. }
  destruct tk as [|local found|found].
  - intros [= <- <- <-]. split; [done|]. split; [left|simpl; lia].
  - destruct (updateKnownAddresses known local) as [known' changed].
    apply Hstep; [|done]. destruct changed; [apply discoverNAT_mapping|done].
  - apply Hstep; [apply discoverNAT_mapping|done].
Qed.

(** Mapping mode: it returns with an empty table; it returns [true] on
    [done], [false] without a device, and in both cases has used up a
    tick. *)
Lemma runMappingMode_spec d t ticks t' closed calls ticks' :
  runMappingMode d t ticks = (t', closed, calls, ticks') →
  match closed with
  | Some true =>
      Done ∈ ticks ∧ (length ticks' < length ticks)%nat ∧ t_mapping t' = ∅
  | Some false =>
      (Done ∈ ticks ↔ Done ∈ ticks') ∧ (length ticks' < length ticks)%nat
      ∧ t_mapping t' = ∅ ∧ t_nat t' = None
  | None => (Done ∉ ticks) ∧ (is_Some (t_nat t) → is_Some (t_nat t'))
  end.
Proof.
  revert d t calls. induction ticks as [|tk ticks IH]; intros d t calls.
  { intros [= <- <- <- <-]. split; [apply not_elem_of_nil|done]. }
  assert (∀ t1 (c1 : list call),
            tk ≠ Done →
            match t_nat t1 with
            | None => (with_mapping ∅ t1, Some false, c1, ticks)
            | Some d1 =>
                let '(t2, closed, calls', ticks2) := runMappingMode d1 t1 ticks in
                (t2, closed, c1 ++ calls', ticks2)
            end = (t', closed, calls, ticks') →
            match closed with
            | Some true =>
                Done ∈ tk :: ticks ∧ (length ticks' < length (tk :: ticks))%nat
                ∧ t_mapping t' = ∅
            | Some false =>
                (Done ∈ tk :: ticks ↔ Done ∈ ticks')
                ∧ (length ticks' < length (tk :: ticks))%nat
                ∧ t_mapping t' = ∅ ∧ t_nat t' = None
            | None =>
                (Done ∉ tk :: ticks) ∧ (is_Some (t_nat t) → is_Some (t_nat t'))
            end) as Hstep.
  { intros t1 c1 Htk. pose proof (elem_of_Done_cons tk ticks Htk) as Hcons.
    destruct (t_nat t1) as [d1|] eqn:Enat.
    - destruct (runMappingMode d1 t1 ticks) as [[[t2 cl2] c2] tk2] eqn:Erun.
      intros [= <- <- <- <-]. apply IH in Erun.
      destruct cl2 as [[|]|]; rewrite Hcons.
      + destruct Erun as (Hin & Hlen & Hm). split; [done|]. split; [simpl; lia|done].
      + destruct Erun as (Hiff & Hlen & Hm & Hn).
        split; [done|]. split; [simpl; lia|done].
      + destruct Erun as [Hnin Hs]. split; [done|].
        intros _. apply Hs. rewrite Enat. by eexists.
    - intros [= <- <- <- <-]. split; [done|]. split; [simpl; lia|done]. }
  destruct tk as [|local found|found]; cbn [runMappingMode].
  - intros [= <- <- <- <-]. split; [left|]. split; [simpl; lia|done].
  - destruct (updateMappings d t local) as [t1 c1]. by apply Hstep.
  - destruct (refreshMapping d t) as [t1 c1]. by apply Hstep.
Qed.

(** Fuel beyond the number of ticks changes nothing. *)
Lemma runMapper_loop_fuel n n' t ticks :
  (length ticks < n)%nat → (length ticks < n')%nat →
  runMapper_loop n t ticks = runMapper_loop n' t ticks.
Proof.
  revert n' t ticks. induction n as [|n IH]; intros n' t ticks Hn Hn'; [lia|].
  destruct n' as [|n']; [lia|]. cbn [runMapper_loop].
  destruct (t_nat t) as [d|].
  - destruct (runMappingMode d t ticks) as [[[t1 cl1] c1] tk1] eqn:Erun.
    apply runMappingMode_spec in Erun.
    destruct cl1 as [[|]|]; [done| |done].
    destruct Erun as (_ & Hlen & _). by rewrite (IH n') by lia.
  - unfold runDiscoverMode.
    destruct (runDiscoverMode_loop t ∅ ticks) as [[t1 cl1] tk1] eqn:Erun.
    apply runDiscoverMode_loop_spec in Erun as [_ Erun].
    destruct cl1 as [[|]|]; [done| |done].
    destruct Erun as (_ & Hlen & _). apply IH; lia.
Qed.

Lemma runMapper_loop_closed n t ticks :
  (length ticks < n)%nat →
  (runMapper_loop n t ticks).1.2 = true ↔ Done ∈ ticks.
Proof.
  revert t ticks. induction n as [|n IH]; intros t ticks Hn; [lia|].
  cbn [runMapper_loop]. destruct (t_nat t) as [d|].
  - destruct (runMappingMode d t ticks) as [[[t1 cl1] c1] tk1] eqn:Erun.
    apply runMappingMode_spec in Erun.
    destruct cl1 as [[|]|].
    + simpl. by destruct Erun as [? _].
    + destruct Erun as (Hiff & Hlen & _).
      assert (length tk1 < n)%nat as Hn1 by lia.
      pose proof (IH t1 tk1 Hn1) as IH1.
      destruct (runMapper_loop n t1 tk1) as [[t2 cl2] c2]. simpl in *.
      by rewrite Hiff.
    + simpl. by destruct Erun as [? _].
  - unfold runDiscoverMode.
    destruct (runDiscoverMode_loop t ∅ ticks) as [[t1 cl1] tk1] eqn:Erun.
    apply runDiscoverMode_loop_spec in Erun as [_ Erun].
    destruct cl1 as [[|]|].
    + simpl. by destruct Erun as [? _].
    + destruct Erun as (Hiff & Hlen & _). rewrite Hiff. apply IH. lia.
    + by simpl.
Qed.


(** X14. [runMapper] ends exactly when [done] is closed: on ticks
    without [Done] it is still waiting when they are used up, whatever the
    device does, and a [Done] among them ends it.  One round more than
    there are ticks is all the loop can take: more rounds give the same
    run. *)
Theorem runMapper_closes_iff_done t ticks :
  ((runMapper t ticks).1.2 = true ↔ Done ∈ ticks)
  ∧ ∀ n, (length ticks < n)%nat → runMapper_loop n t ticks = runMapper t ticks.
Proof.
  split.
  - apply runMapper_loop_closed. lia.
  - intros n Hn. apply runMapper_loop_fuel; lia.
Qed.


End mapper_facts.

(** ** A stub environment

    Addresses in text form, UDP addresses as the only NATable ones, and a
    device in the manner of the UPnP stub of the spec's scenario: it
    reports fixed addresses and leases the port it is asked for. *)

Inductive stub_addr :=
  | UDPAddr (ip : string) (port : Z)
  | PeerAddr (hashname : string).

Record stub_device := {
  stub_external : option string;
  stub_internal : option string;
  stub_leases : list (string * Z)
}.

#[local] Instance stub_ip : NetIP string :=
  {| ip_is_nil := λ ip, bool_decide (ip = EmptyString);
     ip_Equal := λ a b, bool_decide (a = b);
     ip_String := λ ip, ip |}.

#[local] Instance stub_natable : NATableAddr string stub_addr :=
  {| is_NATableAddr := λ a, match a with UDPAddr _ _ => true | PeerAddr _ => false end;
     InternalAddr := λ a,
       match a with
       | UDPAddr ip port => ("udp"%string, ip, port)
       | PeerAddr _ => (EmptyString, EmptyString, 0)
       end;
     MakeGlobal := λ a ip port,
       match a with
       | UDPAddr _ _ => Some (UDPAddr ip port)
       | PeerAddr _ => None
       end |}.

#[local] Instance stub_nat : NAT string stub_device :=
  {| GetDeviceAddress := λ d, (true, d);
     GetExternalAddress := λ d, (stub_external d, d);
     GetInternalAddress := λ d, (stub_internal d, d);
     AddPortMapping := λ d proto port,
       (Some port,
        {| stub_external := stub_external d; stub_internal := stub_internal d;
           stub_leases := (proto, port) :: stub_leases d |});
     DeletePortMapping := λ d proto port,
       {| stub_external := stub_external d; stub_internal := stub_internal d;
          stub_leases :=
            filter (λ l, l ≠ (proto, port)) (stub_leases d) |} |}.

#[local] Existing Instance range_map_to_list.

Definition stub_igd : stub_device :=
  {| stub_external := Some "1.2.3.4"%string;
     stub_internal := Some "192.168.1.10"%string;
     stub_leases := [] |}.

(** A device that no longer answers. *)
Definition stub_gone : stub_device :=
  {| stub_external := None; stub_internal := None; stub_leases := [] |}.

Definition stub_local : list stub_addr :=
  [UDPAddr "192.168.1.10" 42424; PeerAddr "a1b2c3"; UDPAddr "10.0.0.7" 42424].

Definition stub_transport (d : stub_device)
    : transport (Addr := stub_addr) (D := stub_device) :=
  {| t_nat := Some d; t_mapping := ∅; t_done := false |}.

(** The first tick maps the one address on the device's network. *)
Example stub_first_tick :
  (updateMappings stub_igd (stub_transport stub_igd) stub_local).2
  = [CallGetExternalAddress (Some "1.2.3.4"%string);
     CallGetInternalAddress (Some "192.168.1.10"%string);
     CallAddPortMapping "udp" 42424 (Some 42424);
     CallMakeGlobal (UDPAddr "192.168.1.10" 42424) "1.2.3.4"%string 42424
       (Some (UDPAddr "1.2.3.4" 42424))]
  ∧ t_mapping (updateMappings stub_igd (stub_transport stub_igd) stub_local).1
    = {[ "udp:192.168.1.10:42424"%string :=
           {| external := UDPAddr "1.2.3.4" 42424;
              internal := UDPAddr "192.168.1.10" 42424;
              stale := false |} ]}.
Proof. split; by vm_compute. Qed.

Definition stub_leased : stub_device :=
  {| stub_external := Some "1.2.3.4"%string;
     stub_internal := Some "192.168.1.10"%string;
     stub_leases := [("udp"%string, 42424)] |}.

Lemma updateMappings_idempotent_witness :
  tick_succeeded (updateMappings stub_igd (stub_transport stub_igd) stub_local).2
  ∧ t_nat (updateMappings stub_igd (stub_transport stub_igd) stub_local).1
    = Some stub_leased
  ∧ reported_internal
      (updateMappings stub_leased
         (updateMappings stub_igd (stub_transport stub_igd) stub_local).1
         stub_local).2
    = reported_internal
        (updateMappings stub_igd (stub_transport stub_igd) stub_local).2
  ∧ forallb (λ c, negb (is_AddPortMapping c))
      (updateMappings stub_leased
         (updateMappings stub_igd (stub_transport stub_igd) stub_local).1
         stub_local).2 = true
  ∧ t_mapping
      (updateMappings stub_leased
         (updateMappings stub_igd (stub_transport stub_igd) stub_local).1
         stub_local).1
    = t_mapping (updateMappings stub_igd (stub_transport stub_igd) stub_local).1.
Proof.
  assert (tick_succeeded
            (updateMappings stub_igd (stub_transport stub_igd) stub_local).2) as H1
    by by vm_compute.
  assert (t_nat (updateMappings stub_igd (stub_transport stub_igd) stub_local).1
          = Some stub_leased) as H2 by by vm_compute.
  assert (reported_internal
            (updateMappings stub_leased
               (updateMappings stub_igd (stub_transport stub_igd) stub_local).1
               stub_local).2
          = reported_internal
              (updateMappings stub_igd (stub_transport stub_igd) stub_local).2) as H3
    by by vm_compute.
  split; [exact H1|]. split; [exact H2|]. split; [exact H3|].
  exact (updateMappings_idempotent stub_igd (stub_transport stub_igd) stub_local
           stub_leased H1 H2 H3).
Defined.

Definition stub_tick : tick (Addr := stub_addr) (D := stub_device) :=
  UpdateTick stub_local None.


(** After the failure the mapper discovers the device again on the next
    slow tick and is back in mapping mode. *)
Example stub_rediscover :
  runMapper (stub_transport stub_gone)
    [stub_tick; SlowTick (Some stub_igd)]
  = ({| t_nat := Some stub_igd; t_mapping := ∅; t_done := false |}, false,
     [CallGetExternalAddress None]).
Proof. by vm_compute. Qed.

(** ** A device that moves

    A device whose address on the local network changes between two
    ticks (a new DHCP lease, another interface): it reports the addresses
    of a list in turn.  It leases every port it is asked for. *)

Record moving_device := { moving_internal : list string }.

#[local] Instance moving_nat : NAT string moving_device :=
  {| GetDeviceAddress := λ d, (true, d);
     GetExternalAddress := λ d, (Some "1.2.3.4"%string, d);
     GetInternalAddress := λ d,
       (head (moving_internal d),
        {| moving_internal := tail (moving_internal d) |});
     AddPortMapping := λ d proto port, (Some port, d);
     DeletePortMapping := λ d proto port, d |}.

Definition moving_igd : moving_device :=
  {| moving_internal := ["192.168.1.10"%string; "10.0.0.7"%string] |}.

Definition moving_igd_moved : moving_device :=
  {| moving_internal := ["10.0.0.7"%string] |}.

Definition moving_transport : transport (Addr := stub_addr) (D := moving_device) :=
  {| t_nat := Some moving_igd; t_mapping := ∅; t_done := false |}.

(** C8, as stated, fails: the local addresses are the same for both
    ticks and the first tick succeeded, but the device reports another
    internal address at the second tick.  The second tick then asks for a
    new port mapping, for the local address on that network, and unmaps
    and drops the entry the first tick made: the table has changed. *)
Lemma updateMappings_not_idempotent :
  tick_succeeded (updateMappings moving_igd moving_transport stub_local).2
  ∧ t_nat (updateMappings moving_igd moving_transport stub_local).1
    = Some moving_igd_moved
  ∧ (updateMappings moving_igd_moved
       (updateMappings moving_igd moving_transport stub_local).1 stub_local).2
    = [CallGetExternalAddress (Some "1.2.3.4"%string);
       CallGetInternalAddress (Some "10.0.0.7"%string);
       CallAddPortMapping "udp" 42424 (Some 42424);
       CallMakeGlobal (UDPAddr "10.0.0.7" 42424) "1.2.3.4"%string 42424
         (Some (UDPAddr "1.2.3.4" 42424));
       CallDeletePortMapping "udp" 42424]
  ∧ forallb (λ c, negb (is_AddPortMapping c))
      (updateMappings moving_igd_moved
         (updateMappings moving_igd moving_transport stub_local).1 stub_local).2
    = false
  ∧ t_mapping (updateMappings moving_igd moving_transport stub_local).1
    = {[ "udp:192.168.1.10:42424"%string :=
           {| external := UDPAddr "1.2.3.4" 42424;
              internal := UDPAddr "192.168.1.10" 42424;
              stale := false |} ]}
  ∧ t_mapping
      (updateMappings moving_igd_moved
         (updateMappings moving_igd moving_transport stub_local).1 stub_local).1
    = {[ "udp:10.0.0.7:42424"%string :=
           {| external := UDPAddr "1.2.3.4" 42424;
              internal := UDPAddr "10.0.0.7" 42424;
              stale := false |} ]}.
Proof. repeat split; by vm_compute. Qed.

(** The transport after the first tick: one mapping, leased. *)
Definition stub_mapped : transport (Addr := stub_addr) (D := stub_device) :=
  {| t_nat := Some stub_leased;
     t_mapping :=
       {[ "udp:192.168.1.10:42424"%string :=
            {| external := UDPAddr "1.2.3.4" 42424;
               internal := UDPAddr "192.168.1.10" 42424;
               stale := false |} ]};
     t_done := false |}.

Lemma stub_mapped_wf : table_wf (t_mapping stub_mapped).
Proof.
  apply map_Forall_singleton.
  exists "udp"%string, "192.168.1.10"%string, 42424. by vm_compute.
Qed.

Lemma discover_update_tick_unchanged_witness :
  t_nat (Open (Addr := stub_addr) (D := stub_device)) = None
  ∧ runDiscoverMode_loop Open ∅
      [UpdateTick stub_local None; UpdateTick stub_local (Some stub_igd)]
    = runDiscoverMode_loop Open ∅ [UpdateTick stub_local None].
Proof.
  split; [done|].
  exact (discover_update_tick_unchanged Open ∅ stub_local (Some stub_igd) []
           eq_refl).
Defined.

Lemma table_wf_kept_witness :
  table_wf (t_mapping stub_mapped)
  ∧ table_wf (t_mapping (updateMappings stub_leased stub_mapped stub_local).1)
  ∧ table_wf (t_mapping (refreshMapping stub_leased stub_mapped).1).
Proof.
  split; [exact stub_mapped_wf|].
  exact (table_wf_kept stub_leased stub_mapped stub_local stub_mapped_wf).
Defined.

Lemma refreshMapping_keeps_or_drops_witness :
  t_mapping (refreshMapping stub_leased stub_mapped).1
    !! "udp:192.168.1.10:42424"%string
  = Some {| external := UDPAddr "1.2.3.4" 42424;
            internal := UDPAddr "192.168.1.10" 42424;
            stale := true |}
  ∧ ∃ m, t_mapping stub_mapped !! "udp:192.168.1.10:42424"%string = Some m
         ∧ UDPAddr "192.168.1.10" 42424 = internal m ∧ true = true.
Proof.
  assert (t_mapping (refreshMapping stub_leased stub_mapped).1
            !! "udp:192.168.1.10:42424"%string
          = Some {| external := UDPAddr "1.2.3.4" 42424;
                    internal := UDPAddr "192.168.1.10" 42424;
                    stale := true |}) as H1 by by vm_compute.
  split; [exact H1|].
  exact (refreshMapping_keeps_or_drops stub_leased stub_mapped _ _ H1).
Defined.

Lemma updateMappings_reconciles_witness :
  table_wf (t_mapping (stub_transport stub_igd))
  ∧ query_addresses stub_igd
    = Some ("1.2.3.4"%string, "192.168.1.10"%string, stub_igd)
  ∧ tick_succeeded (updateMappings stub_igd (stub_transport stub_igd) stub_local).2
  ∧ (∀ k, is_Some (t_mapping (updateMappings stub_igd (stub_transport stub_igd)
                                stub_local).1 !! k)
          ↔ k ∈ natkeys "192.168.1.10"%string stub_local)
  ∧ map_Forall (λ _ m, stale m = false)
      (t_mapping (updateMappings stub_igd (stub_transport stub_igd) stub_local).1).
Proof.
  assert (table_wf (t_mapping (stub_transport stub_igd))) as H1
    by apply map_Forall_empty.
  assert (query_addresses stub_igd
          = Some ("1.2.3.4"%string, "192.168.1.10"%string, stub_igd)) as H2
    by done.
  assert (tick_succeeded
            (updateMappings stub_igd (stub_transport stub_igd) stub_local).2) as H3
    by by vm_compute.
  split; [exact H1|]. split; [exact H2|]. split; [exact H3|].
  exact (updateMappings_reconciles stub_igd (stub_transport stub_igd) stub_local
           _ _ _ H1 H2 H3).
Defined.

(** The address that was mapped is gone from the local addresses: the
    next update tick unmaps it on the device and drops its entry. *)
Lemma updateMappings_known_entries_witness :
  query_addresses stub_leased
  = Some ("1.2.3.4"%string, "192.168.1.10"%string, stub_leased)
  ∧ t_mapping stub_mapped !! "udp:192.168.1.10:42424"%string
    = Some {| external := UDPAddr "1.2.3.4" 42424;
              internal := UDPAddr "192.168.1.10" 42424;
              stale := false |}
  ∧ t_mapping (updateMappings stub_leased stub_mapped
                 [PeerAddr "a1b2c3"; UDPAddr "10.0.0.7" 42424]).1
      !! "udp:192.168.1.10:42424"%string
    = None
  ∧ ("udp:192.168.1.10:42424"%string
       ∉ natkeys "192.168.1.10"%string [PeerAddr "a1b2c3"; UDPAddr "10.0.0.7" 42424] →
     true = true →
     CallDeletePortMapping "udp" 42424
     ∈ (updateMappings stub_leased stub_mapped
          [PeerAddr "a1b2c3"; UDPAddr "10.0.0.7" 42424]).2)
  ∧ t_nat (updateMappings stub_leased stub_mapped
             [PeerAddr "a1b2c3"; UDPAddr "10.0.0.7" 42424]).1
    = Some (replay stub_leased
              (updateMappings stub_leased stub_mapped
                 [PeerAddr "a1b2c3"; UDPAddr "10.0.0.7" 42424]).2).
Proof.
  assert (query_addresses stub_leased
          = Some ("1.2.3.4"%string, "192.168.1.10"%string, stub_leased)) as H1
    by done.
  assert (t_mapping stub_mapped !! "udp:192.168.1.10:42424"%string
          = Some {| external := UDPAddr "1.2.3.4" 42424;
                    internal := UDPAddr "192.168.1.10" 42424;
                    stale := false |}) as H2 by by vm_compute.
  split; [exact H1|]. split; [exact H2|].
  exact (updateMappings_known_entries stub_leased stub_mapped
           [PeerAddr "a1b2c3"; UDPAddr "10.0.0.7" 42424] _ _ _ _ _ H1 H2).
Defined.

(** The run of that tick: the lease is gone from the device. *)
Example stub_unmapped :
  updateMappings stub_leased stub_mapped [PeerAddr "a1b2c3"; UDPAddr "10.0.0.7" 42424]
  = ({| t_nat := Some stub_igd; t_mapping := ∅; t_done := false |},
     [CallGetExternalAddress (Some "1.2.3.4"%string);
      CallGetInternalAddress (Some "192.168.1.10"%string);
      CallDeletePortMapping "udp" 42424]).
Proof. by vm_compute. Qed.



End nat_transport.

(** * The main controller of [controller_main.go] *)

Module controller.

(** ** Data

    [Hashname]s, line tokens, keys and network addresses are opaque
    values; the zero [Hashname] is the empty one. *)

Abbreviation Hashname := string.

Definition IsZero (h : Hashname) : bool := bool_decide (h = EmptyString).

(** [addr_t], with the four fields the controller reads; [pubkey] and
    [addr] are [None] when nil. *)
Record addr_t := {
  hashname : Hashname;
  pubkey : option string;
  via : Hashname;
  addr : option string
}.

(** The zero value [addr_t{}]. *)
Definition addr_zero : addr_t :=
  {| hashname := EmptyString; pubkey := None; via := EmptyString; addr := None |}.

(** [peer_t]: the record of the peer table. *)
Record peer_t := {
  p_addr : addr_t;
  is_down : bool
}.

(** [line_t], as far as the controller looks into it.  [line_ptr] is the
    identity of the object, [prv_key_id] is [line.prv_key.id], [peer] is
    the hashname of the peer record [line.peer] points to (so
    [line.peer.addr.hashname] is [peer l]) and [peer_down] is
    [line.State().test(line_peer_down, 0)].  The values are those the
    controller sees when it handles the message that carries the line. *)
Record line_t := {
  line_ptr : nat;
  prv_key_id : string;
  peer : Hashname;
  peer_down : bool
}.

#[global] Instance addr_t_eq_dec : EqDecision addr_t.
Proof. solve_decision. Defined.
#[global] Instance peer_t_eq_dec : EqDecision peer_t.
Proof. solve_decision. Defined.
#[global] Instance line_t_eq_dec : EqDecision line_t.
Proof. solve_decision. Defined.

(** [public_line_key], with its field [rsa_pubkey]. *)
Record public_line_key := { rsa_pubkey : option string }.

(** [cmd_line_get]; [cmd_reply] tells whether [cmd.reply] is non-nil. *)
Record cmd_line_get := {
  cmd_hashname : Hashname;
  cmd_addr : addr_t;
  cmd_pub : option public_line_key;
  cmd_reply : bool
}.

(** ** The controller state word

    [main_state] is a word of flags, changed with [mod(add, remove)] and
    read with [test(all_of, none_of)].  The flags are [main_running] and
    [main_terminating]; a word is modelled by the set of its flags. *)
Record main_state := {
  f_running : bool;
  f_terminating : bool
}.

Definition main_zero : main_state := {| f_running := false; f_terminating := false |}.
Definition main_running : main_state := {| f_running := true; f_terminating := false |}.
Definition main_terminating : main_state := {| f_running := false; f_terminating := true |}.

Definition state_mod (s add remove : main_state) : main_state :=
  {| f_running := (f_running s || f_running add) && negb (f_running remove);
     f_terminating :=
       (f_terminating s || f_terminating add) && negb (f_terminating remove) |}.

Definition state_test (s all_of none_of : main_state) : bool :=
  (implb (f_running all_of) (f_running s)
   && implb (f_terminating all_of) (f_terminating s))
  && negb ((f_running none_of && f_running s)
           || (f_terminating none_of && f_terminating s)).

(** ** Effects

    What the controller does to the world outside its tables: replies on
    the reply channel of a request, calls on line objects, and a seek.
    An update of one of the statistics counters is recorded with the kind
    of memory access the code uses for it. *)

Inductive access := PlainAccess | AtomicAccess.
Inductive counter := CtrOpenLines | CtrRunningLines | CtrPeers.

Inductive event :=
  | ReplyLine (l : option line_t)
  | ReplyPeer (p : option peer_t)
  | ReplyAddPeer (p : peer_t) (discovered : bool)
  | ReplyClosestPeers (ps : option (list peer_t))
  | LineInit (l : line_t)
  | LineEnsureRunning (l : line_t)
  | LineShutdown (l : line_t)
  | Seek (target : Hashname)
  | NilHandlerPanic
  | CounterAdd (ctr : counter) (delta : Z) (how : access)
  | CounterLoad (ctr : counter) (how : access).

#[global] Instance access_eq_dec : EqDecision access.
Proof. solve_decision. Defined.
#[global] Instance counter_eq_dec : EqDecision counter.
Proof. solve_decision. Defined.
#[global] Instance event_eq_dec : EqDecision event.
Proof. solve_decision. Defined.

(** ** The peer table *)

(** Modelled from the spec: [addr_t.update] is not in the source.  The
    merge policy of the peer table is applied to the fields of an address:
    a public key, a relay and a network address are adopted when the
    address had none; the hashname stays. *)
Definition addr_update (a other : addr_t) : addr_t :=
  {| hashname := hashname a;
     pubkey := match pubkey a with Some k => Some k | None => pubkey other end;
     via := if IsZero (via a) then via other else via a;
     addr := match addr a with Some x => Some x | None => addr other end |}.

(** Modelled from the spec: [peer_table.add_peer] is not in the source.
    "Insert or merge candidate paths/keys into an existing record;
    discovered = true iff this call created the record."  A new record is
    not down. *)
Definition peer_table_add_peer (peers : gmap Hashname peer_t) (a : addr_t)
    : gmap Hashname peer_t * peer_t * bool :=
  match peers !! hashname a with
  | None =>
      let p := {| p_addr := a; is_down := false |} in
      (<[hashname a := p]> peers, p, true)
  | Some p =>
      let p := {| p_addr := addr_update (p_addr p) a; is_down := is_down p |} in
      (<[hashname a := p]> peers, p, false)
  end.

(** Modelled from the spec: [peer_table.get_peer] is not in the source.
    "GetPeer(h): lookup." *)
Definition peer_table_get_peer (peers : gmap Hashname peer_t) (h : Hashname)
    : option peer_t :=
  peers !! h.

(** ** The controller *)

(** [type main_controller struct]: the three tables and the two
    counters.  [seek_handler] tells whether [c.sw.seek_handler] is
    registered (non-nil), [next_line] is the identity the next
    [&line_t{}] gets. *)
Record main_controller := {
  state : main_state;
  lines : gmap Hashname line_t;
  active_lines : gmap string line_t;
  peers : gmap Hashname peer_t;
  num_open_lines : Z;
  num_running_lines : Z;
  seek_handler : bool;
  next_line : nat
}.

(** What arrives on the channels the loops select on.  A request that
    comes through the mailbox carries a reply channel. *)
Inductive msg :=
  | StatsTick
  | Shutdown
  | ActivateLine (line : line_t)
  | DeactivateLine (line : line_t)
  | GetActiveLine (id : string)
  | RegisterLine (line : line_t)
  | UnregisterLine (line : line_t)
  | GetLine (h : Hashname) (a : addr_t) (pub : option public_line_key)
  | GetPeer (h : Hashname)
  | AddPeer (a : addr_t)
  | GetClosestPeers (h : Hashname) (n : Z).

(** [int32] arithmetic wraps around. *)
Definition wrap_int32 (z : Z) : Z := (z + 2 ^ 31) mod 2 ^ 32 - 2 ^ 31.

Definition with_state (s : main_state) (c : main_controller) : main_controller :=
  {| state := s; lines := lines c; active_lines := active_lines c;
     peers := peers c; num_open_lines := num_open_lines c;
     num_running_lines := num_running_lines c;
     seek_handler := seek_handler c; next_line := next_line c |}.

Definition with_peers (p : gmap Hashname peer_t) (c : main_controller) : main_controller :=
  {| state := state c; lines := lines c; active_lines := active_lines c;
     peers := p; num_open_lines := num_open_lines c;
     num_running_lines := num_running_lines c;
     seek_handler := seek_handler c; next_line := next_line c |}.

(** [c.active_lines = m; c.num_open_lines += delta] *)
Definition with_active_lines (m : gmap string line_t) (delta : Z)
    (c : main_controller) : main_controller :=
  {| state := state c; lines := lines c; active_lines := m;
     peers := peers c; num_open_lines := wrap_int32 (num_open_lines c + delta);
     num_running_lines := num_running_lines c;
     seek_handler := seek_handler c; next_line := next_line c |}.

(** [c.lines = m; c.num_running_lines += delta] *)
Definition with_lines (m : gmap Hashname line_t) (delta : Z)
    (c : main_controller) : main_controller :=
  {| state := state c; lines := m; active_lines := active_lines c;
     peers := peers c; num_open_lines := num_open_lines c;
     num_running_lines := wrap_int32 (num_running_lines c + delta);
     seek_handler := seek_handler c; next_line := next_line c |}.

(** [func main_controller_open]: empty tables, state [main_running];
    the loop is started. *)
Definition main_controller_open (seek_handler_registered : bool) : main_controller :=
  {| state := state_mod main_zero main_running main_zero;
     lines := ∅; active_lines := ∅; peers := ∅;
     num_open_lines := 0; num_running_lines := 0;
     seek_handler := seek_handler_registered; next_line := 0 |}.

(** [func (c *main_controller) State()] *)
Definition State (c : main_controller) : main_state := state c.

(** [if cmd.reply != nil { cmd.reply <- line }] *)
Definition reply_line (cmd : cmd_line_get) (line : option line_t) : list event :=
  if cmd_reply cmd then [ReplyLine line] else [].

(** [func (c *main_controller) get_line(cmd cmd_line_get)] *)
Definition get_line (c : main_controller) (cmd : cmd_line_get)
    : main_controller * list event :=
  match lines c !! cmd_hashname cmd with
  | Some line => (c, reply_line cmd (Some line))
  | None =>
      let a := {| hashname := cmd_hashname cmd; pubkey := None;
                  via := EmptyString; addr := None |} in
      let a :=
        match cmd_pub cmd with
        | Some pub => {| hashname := hashname a; pubkey := rsa_pubkey pub;
                         via := via a; addr := addr a |}
        | None => a
        end in
      let a := addr_update a (cmd_addr cmd) in
      let '(peers', p, disc) := peer_table_add_peer (peers c) a in
      let c := with_peers peers' c in
      let a := p_addr p in
      if is_down p then (c, reply_line cmd None)
      else if (bool_decide (is_Some (pubkey a)) || negb (IsZero (via a)))
              && bool_decide (is_Some (addr a))
      then
        let line := {| line_ptr := next_line c; prv_key_id := EmptyString;
                       peer := hashname (p_addr p); peer_down := false |} in
        ({| state := state c; lines := <[cmd_hashname cmd := line]> (lines c);
            active_lines := active_lines c; peers := peers c;
            num_open_lines := num_open_lines c;
            num_running_lines := num_running_lines c;
            seek_handler := seek_handler c; next_line := S (next_line c) |},
         [LineInit line; LineEnsureRunning line] ++ reply_line cmd (Some line))
      else (c, reply_line cmd None)
  end.

(** [func (c *main_controller) add_peer(cmd cmd_peer_add)] *)
Definition add_peer (c : main_controller) (a : addr_t)
    : main_controller * list event :=
  let '(peers', p, disc) := peer_table_add_peer (peers c) a in
  let c := with_peers peers' c in
  let '(c, events) :=
    if disc
    then get_line c {| cmd_hashname := hashname (p_addr p); cmd_addr := addr_zero;
                       cmd_pub := None; cmd_reply := false |}
    else (c, []) in
  (c, events ++ [ReplyAddPeer p disc]).

(** [func (c *main_controller) seek_discovered_peer(peer *peer_t)]: the
    call [c.sw.seek_handler.Seek(...)]; on a nil handler it panics. *)
Definition seek_discovered_peer (c : main_controller) (p : peer_t) : list event :=
  if seek_handler c then [Seek (hashname (p_addr p))] else [NilHandlerPanic].

(** [func (c *main_controller) unregister_line(line *line_t)] *)
Definition unregister_line (c : main_controller) (line : line_t)
    : main_controller * list event :=
  let c :=
    if peer_down line
    then with_peers (alter (λ p, {| p_addr := p_addr p; is_down := true |})
                       (peer line) (peers c)) c
    else c in
  (with_lines (delete (peer line) (lines c)) (-1) c,
   [CounterAdd CtrRunningLines (-1) PlainAccess]).

(** [type SwitchStats struct], the fields [PopulateStats] fills. *)
Record SwitchStats := {
  NumOpenLines : Z;
  NumRunningLines : Z;
  KnownPeers : Z
}.

(** [func (c *main_controller) PopulateStats(s *SwitchStats)]: three
    atomic loads.  [c.peers.num_peers] is kept by the peer table; it is
    the number of its records. *)
Definition PopulateStats (c : main_controller) (s : SwitchStats)
    : SwitchStats * list event :=
  ({| NumOpenLines := NumOpenLines s + num_open_lines c;
      NumRunningLines := NumRunningLines s + num_running_lines c;
      KnownPeers := Z.of_nat (size (peers c)) |},
   [CounterLoad CtrOpenLines AtomicAccess;
    CounterLoad CtrRunningLines AtomicAccess;
    CounterLoad CtrPeers AtomicAccess]).

(** [func (c *main_controller) Close()]: whether [true] is sent on
    [c.shutdown]. *)
Definition Close (c : main_controller) : list msg :=
  if state_test (State c) main_running main_terminating then [Shutdown] else [].

Section loops.
Context `{GoRange}.

(** [peer_table.find_closest_peers] is not in the source and no property
    below depends on what it answers. *)
Variable find_closest_peers : gmap Hashname peer_t → Hashname → Z → list peer_t.

(** One round of the [select] of [run_active_loop].  Logging is left
    out. *)
Definition active_select (c : main_controller) (m : msg)
    : main_controller * list event :=
  match m with
  | StatsTick => (c, [])
  | Shutdown =>
      (with_state (state_mod (state c) main_terminating main_running) c, [])
  | ActivateLine line =>
      (with_active_lines (<[prv_key_id line := line]> (active_lines c)) 1 c,
       [CounterAdd CtrOpenLines 1 PlainAccess])
  | DeactivateLine line =>
      (with_active_lines (delete (prv_key_id line) (active_lines c)) (-1) c,
       [CounterAdd CtrOpenLines (-1) PlainAccess])
  | GetActiveLine id => (c, [ReplyLine (active_lines c !! id)])
  | RegisterLine line =>
      (with_lines (<[peer line := line]> (lines c)) 1 c,
       [CounterAdd CtrRunningLines 1 PlainAccess])
  | UnregisterLine line => unregister_line c line
  | GetLine h a pub =>
      get_line c {| cmd_hashname := h; cmd_addr := a; cmd_pub := pub;
                    cmd_reply := true |}
  | GetPeer h => (c, [ReplyPeer (peer_table_get_peer (peers c) h)])
  | AddPeer a => add_peer c a
  | GetClosestPeers h n =>
      (c, [ReplyClosestPeers (Some (find_closest_peers (peers c) h n))])
  end.

(** One round of the [select] of [run_terminating_loop]. *)
Definition terminating_select (c : main_controller) (m : msg)
    : main_controller * list event :=
  match m with
  | StatsTick => (c, [])
  | Shutdown => (c, [])
  | ActivateLine line => (c, [LineShutdown line])
  | DeactivateLine line =>
      (with_active_lines (delete (prv_key_id line) (active_lines c)) (-1) c,
       [CounterAdd CtrOpenLines (-1) PlainAccess])
  | GetActiveLine id => (c, [ReplyLine None])
  | RegisterLine line => (c, [LineShutdown line])
  | UnregisterLine line => unregister_line c line
  | GetLine _ _ _ => (c, [ReplyLine None])
  | GetPeer _ => (c, [ReplyPeer None])
  | AddPeer _ => (c, [])
  | GetClosestPeers _ _ => (c, [ReplyClosestPeers None])
  end.

(** The result of a loop: the controller, the effects, the messages not
    yet received, and whether the loop is still waiting in its [select]
    (the messages are used up) instead of having returned. *)
Definition loop_result : Type := main_controller * list event * list msg * bool.

(** [func (c *main_controller) run_active_loop()]:
    [for c.state.test(main_running, 0) { select ... }]. *)
Fixpoint run_active_loop (c : main_controller) (inbox : list msg) : loop_result :=
  if state_test (state c) main_running main_zero then
    match inbox with
    | [] => (c, [], [], true)
    | m :: inbox =>
        let '(c, events) := active_select c m in
        let '(c, events', inbox, waiting) := run_active_loop c inbox in
        (c, events ++ events', inbox, waiting)
    end
  else (c, [], inbox, false).

(** The loop [for len(c.lines) > 0 { select ... }] of
    [run_terminating_loop]. *)
Fixpoint terminating_loop (c : main_controller) (inbox : list msg) : loop_result :=
  if bool_decide (lines c = ∅) then (c, [], inbox, false)
  else
    match inbox with
    | [] => (c, [], [], true)
    | m :: inbox =>
        let '(c, events) := terminating_select c m in
        let '(c, events', inbox, waiting) := terminating_loop c inbox in
        (c, events ++ events', inbox, waiting)
    end.

(** [defer c.state.mod(0, main_terminating)], run when the function
    returns. *)
Definition terminating_return (r : loop_result) : loop_result :=
  let '(c, events, inbox, waiting) := r in
  if waiting then r
  else (with_state (state_mod (state c) main_zero main_terminating) c,
        events, inbox, false).

(** [func (c *main_controller) run_terminating_loop()] *)
Definition run_terminating_loop (c : main_controller) (inbox : list msg)
    : loop_result :=
  let shutdowns := (λ kv, LineShutdown kv.2) <$> range (lines c) in
  if bool_decide (lines c = ∅)
  then terminating_return (c, shutdowns, inbox, false)
  else
    let '(c, events, inbox, waiting) := terminating_loop c inbox in
    terminating_return (c, shutdowns ++ events, inbox, waiting).

(** [func (c *main_controller) setup()] *)
Definition setup (c : main_controller) : main_controller :=
  with_state (state_mod (state c) main_running main_zero) c.

(** The [for { switch ... }] of [run_main_loop], for at most [n] rounds.
    The last component tells whether the loop has returned. *)
Fixpoint main_loop (n : nat) (c : main_controller) (inbox : list msg)
    : main_controller * list event * bool :=
  match n with
  | O => (c, [], false)
  | S n =>
      if state_test (state c) main_terminating main_zero then
        let '(c, events, inbox, waiting) := run_terminating_loop c inbox in
        if waiting then (c, events, false)
        else let '(c, events', returned) := main_loop n c inbox in
             (c, events ++ events', returned)
      else if state_test (state c) main_running main_zero then
        let '(c, events, inbox, waiting) := run_active_loop c inbox in
        if waiting then (c, events, false)
        else let '(c, events', returned) := main_loop n c inbox in
             (c, events ++ events', returned)
      else (c, [], true)
  end.

(** [func (c *main_controller) run_main_loop()].  The loop goes through
    the active loop, the terminating loop and the final [return]: three
    rounds. *)
Definition run_main_loop (c : main_controller) (inbox : list msg)
    : main_controller * list event * bool :=
  main_loop 3 (setup c) inbox.

(** A state of the controller is reachable when the message-handling
    loop of a freshly opened controller is in it after some sequence of
    messages. *)
Definition reachable (c : main_controller) : Prop :=
  ∃ seek inbox, (run_main_loop (main_controller_open seek) inbox).1.1 = c.

End loops.

(** ** Facts about the handlers *)


Lemma get_line_state c cmd : state (get_line c cmd).1 = state c.
Proof.
  unfold get_line. destruct (lines c !! cmd_hashname cmd); [done|].
  destruct (peer_table_add_peer _ _) as [[peers' p] disc]. simpl.
  destruct (is_down p); [done|]. by destruct (_ && _).
Qed.


Lemma add_peer_state c a : state (add_peer c a).1 = state c.
Proof.
  unfold add_peer. destruct (peer_table_add_peer _ _) as [[peers' p] disc].
  destruct disc; [|done].
  pose proof (get_line_state (with_peers peers' c)
                {| cmd_hashname := hashname (p_addr p); cmd_addr := addr_zero;
                   cmd_pub := None; cmd_reply := false |}) as E.
  by destruct (get_line _ _).
Qed.

Lemma unregister_line_active_lines c line :
  active_lines (unregister_line c line).1 = active_lines c.
Proof. unfold unregister_line. by destruct (peer_down line). Qed.

Lemma unregister_line_state c line : state (unregister_line c line).1 = state c.
Proof. unfold unregister_line. by destruct (peer_down line). Qed.

Lemma unregister_line_lines c line :
  lines (unregister_line c line).1 = delete (peer line) (lines c).
Proof. unfold unregister_line. by destruct (peer_down line). Qed.

(** ** Invariants of the loops *)

Section loop_invariant.
Context `{GoRange}.
Variable find_closest_peers : gmap Hashname peer_t → Hashname → Z → list peer_t.

(** A property of the controller that every round of the two [select]s
    keeps, and that does not depend on the state word. *)
Variable P : main_controller → Prop.
Hypothesis P_active : ∀ c m, P c → P (active_select find_closest_peers c m).1.
Hypothesis P_terminating : ∀ c m, P c → P (terminating_select c m).1.
Hypothesis P_state : ∀ c s, P c → P (with_state s c).






End loop_invariant.

(** ** Active lines *)



Section active_lines.
Context `{GoRange}.
Variable find_closest_peers : gmap Hashname peer_t → Hashname → Z → list peer_t.




End active_lines.

(** ** The main loop returns

    The state word goes from [main_running] to [main_terminating] to
    zero, so the three rounds of [run_main_loop] are all the [for] loop
    ever makes: more rounds change nothing. *)

Section main_loop_rounds.
Context `{GoRange}.
Variable find_closest_peers : gmap Hashname peer_t → Hashname → Z → list peer_t.

Lemma active_select_state c m :
  state (active_select find_closest_peers c m).1
  = match m with
    | Shutdown => state_mod (state c) main_terminating main_running
    | _ => state c
    end.
Proof.
  destruct m; unfold active_select; cbn [fst];
    rewrite ?unregister_line_state, ?get_line_state, ?add_peer_state; done.
Qed.

Lemma terminating_select_state c m : state (terminating_select c m).1 = state c.
Proof.
  destruct m; unfold terminating_select; cbn [fst];
    rewrite ?unregister_line_state; done.
Qed.

Lemma run_active_loop_returns c inbox :
  state c = main_running ∨ state c = main_terminating →
  (run_active_loop find_closest_peers c inbox).2 = false →
  state (run_active_loop find_closest_peers c inbox).1.1.1 = main_terminating.
Proof.
  revert c. induction inbox as [|m inbox IH]; intros c Hs; simpl.
  - destruct Hs as [Hs|Hs]; rewrite Hs; simpl; [done|by rewrite Hs].
  - destruct Hs as [Hs|Hs]; rewrite Hs; simpl; [|by rewrite Hs].
    pose proof (active_select_state c m) as Hm.
    destruct (active_select find_closest_peers c m) as [c1 ev1]. simpl in Hm.
    assert (state c1 = main_running ∨ state c1 = main_terminating) as Hs1.
    { rewrite Hm, Hs. destruct m; auto. }
    specialize (IH c1 Hs1).
    by destruct (run_active_loop find_closest_peers c1 inbox) as [[[c2 ev2] rest] w].
Qed.

Lemma terminating_loop_state c inbox :
  state (terminating_loop c inbox).1.1.1 = state c.
Proof.
  revert c. induction inbox as [|m inbox IH]; intros c; simpl.
  - by destruct (bool_decide _).
  - destruct (bool_decide _); [done|].
    pose proof (terminating_select_state c m) as Hm.
    destruct (terminating_select c m) as [c1 ev1]. simpl in Hm.
    specialize (IH c1).
    destruct (terminating_loop c1 inbox) as [[[c2 ev2] rest] w]. simpl in *.
    congruence.
Qed.

Lemma run_terminating_loop_returns c inbox :
  state c = main_terminating →
  (run_terminating_loop c inbox).2 = false →
  state (run_terminating_loop c inbox).1.1.1 = main_zero.
Proof.
  intros Hs. unfold run_terminating_loop.
  destruct (bool_decide _); simpl; [by rewrite Hs|].
  pose proof (terminating_loop_state c inbox) as Hl.
  destruct (terminating_loop c inbox) as [[[c2 ev2] rest] w]. simpl in *.
  destruct w; simpl; [done|]. by rewrite Hl, Hs.
Qed.

(** Three rounds are all [run_main_loop] needs: with any larger number
    of rounds the result is the same. *)
Lemma main_loop_three_rounds n c inbox :
  state c = main_running →
  main_loop find_closest_peers (3 + n) c inbox
  = main_loop find_closest_peers 3 c inbox.
Proof.
  intros Hs. change (3 + n)%nat with (S (S (S n))).
  cbn [main_loop]. rewrite Hs. cbn [state_test main_running main_terminating
    main_zero f_running f_terminating implb andb orb negb].
  pose proof (run_active_loop_returns c inbox (or_introl Hs)) as Hret.
  destruct (run_active_loop find_closest_peers c inbox) as [[[c2 ev2] rest] w].
  simpl in Hret. destruct w; [done|]. rewrite (Hret eq_refl).
  cbn [state_test main_running main_terminating
    main_zero f_running f_terminating implb andb orb negb].
  pose proof (run_terminating_loop_returns c2 rest (Hret eq_refl)) as Hret2.
  destruct (run_terminating_loop c2 rest) as [[[c3 ev3] rest'] w'].
  simpl in Hret2. destruct w'; [done|]. by rewrite (Hret2 eq_refl).
Qed.

Lemma run_main_loop_rounds n seek inbox :
  main_loop find_closest_peers (3 + n) (setup (main_controller_open seek)) inbox
  = run_main_loop find_closest_peers (main_controller_open seek) inbox.
Proof. by apply main_loop_three_rounds. Qed.

End main_loop_rounds.

(** ** Concrete runs *)

#[local] Existing Instance range_map_to_list.

(** No neighbours are known. *)
Definition no_closest_peers (peers : gmap Hashname peer_t) (h : Hashname) (n : Z)
    : list peer_t := [].

Definition line_bob : line_t :=
  {| line_ptr := 7; prv_key_id := "5f2a"; peer := "bob"; peer_down := false |}.





(** ** GetLine *)

(** The address [get_line] builds from the request and hands to the
    peer table. *)
Definition hinted_addr (cmd : cmd_line_get) : addr_t :=
  addr_update
    {| hashname := cmd_hashname cmd;
       pubkey := match cmd_pub cmd with Some pub => rsa_pubkey pub | None => None end;
       via := EmptyString; addr := None |}
    (cmd_addr cmd).

(** The address the peer record for [cmd] has once the hints of the
    request are merged into it. *)
Definition merged_addr (c : main_controller) (cmd : cmd_line_get) : addr_t :=
  match peers c !! cmd_hashname cmd with
  | Some p => addr_update (p_addr p) (hinted_addr cmd)
  | None => hinted_addr cmd
  end.

(** The peer record for [h] has [is_down] set. *)
Definition peer_is_down (c : main_controller) (h : Hashname) : bool :=
  match peers c !! h with Some p => is_down p | None => false end.

(** The test of [get_line] before it opens a line: a public key or a
    relay, and a network address. *)
Definition dialable (a : addr_t) : bool :=
  (bool_decide (is_Some (pubkey a)) || negb (IsZero (via a)))
  && bool_decide (is_Some (addr a)).

Lemma hinted_addr_hashname cmd : hashname (hinted_addr cmd) = cmd_hashname cmd.
Proof. done. Qed.

Lemma get_line_add_peer c cmd :
  peer_table_add_peer (peers c)
    (addr_update
       match cmd_pub cmd with
       | Some pub =>
           {| hashname := cmd_hashname cmd; pubkey := rsa_pubkey pub;
              via := EmptyString; addr := None |}
       | None =>
           {| hashname := cmd_hashname cmd; pubkey := None;
              via := EmptyString; addr := None |}
       end (cmd_addr cmd))
  = (<[cmd_hashname cmd :=
         {| p_addr := merged_addr c cmd; is_down := peer_is_down c (cmd_hashname cmd) |}]>
       (peers c),
     {| p_addr := merged_addr c cmd; is_down := peer_is_down c (cmd_hashname cmd) |},
     bool_decide (peers c !! cmd_hashname cmd = None)).
Proof.
  assert (addr_update
            match cmd_pub cmd with
            | Some pub =>
                {| hashname := cmd_hashname cmd; pubkey := rsa_pubkey pub;
                   via := EmptyString; addr := None |}
            | None =>
                {| hashname := cmd_hashname cmd; pubkey := None;
                   via := EmptyString; addr := None |}
            end (cmd_addr cmd) = hinted_addr cmd) as ->.
  { unfold hinted_addr. by destruct (cmd_pub cmd). }
  unfold peer_table_add_peer, merged_addr, peer_is_down.
  rewrite hinted_addr_hashname. by destruct (peers c !! cmd_hashname cmd).
Qed.

(** The line [get_line] makes: [&line_t{}], then [line.Init(c.sw, peer)]. *)
Definition opened_line (c : main_controller) (cmd : cmd_line_get) : line_t :=
  {| line_ptr := next_line c; prv_key_id := EmptyString;
     peer := hashname (merged_addr c cmd); peer_down := false |}.

(** [get_line], with the peer table's work spelled out. *)
Lemma get_line_unfold c cmd :
  get_line c cmd
  = match lines c !! cmd_hashname cmd with
    | Some line => (c, reply_line cmd (Some line))
    | None =>
        let c' :=
          with_peers
            (<[cmd_hashname cmd :=
                 {| p_addr := merged_addr c cmd;
                    is_down := peer_is_down c (cmd_hashname cmd) |}]> (peers c)) c in
        if peer_is_down c (cmd_hashname cmd) then (c', reply_line cmd None)
        else if dialable (merged_addr c cmd)
        then
          ({| state := state c;
              lines := <[cmd_hashname cmd := opened_line c cmd]> (lines c);
              active_lines := active_lines c; peers := peers c';
              num_open_lines := num_open_lines c;
              num_running_lines := num_running_lines c;
              seek_handler := seek_handler c; next_line := S (next_line c) |},
           [LineInit (opened_line c cmd); LineEnsureRunning (opened_line c cmd)]
           ++ reply_line cmd (Some (opened_line c cmd)))
        else (c', reply_line cmd None)
    end.
Proof.
  unfold get_line. rewrite get_line_add_peer.
  by destruct (lines c !! cmd_hashname cmd).
Qed.

(** *** GetLine over any peer table

    [addr_t.update] and [peer_table.add_peer] are not in the source.
    What [get_line] does with their answers is: it is taken here for an
    arbitrary [update] and an arbitrary [table_add_peer], whatever they
    merge, keep or clear. *)

Section get_line_on.
Variable update : addr_t → addr_t → addr_t.
Variable table_add_peer :
  gmap Hashname peer_t → addr_t → gmap Hashname peer_t * peer_t * bool.

(** The address [get_line] hands to the peer table: the hashname, the
    public key of [cmd.pub] when there is one, updated with [cmd.addr]. *)
Definition requested_addr (cmd : cmd_line_get) : addr_t :=
  update
    match cmd_pub cmd with
    | Some pub =>
        {| hashname := cmd_hashname cmd; pubkey := rsa_pubkey pub;
           via := EmptyString; addr := None |}
    | None =>
        {| hashname := cmd_hashname cmd; pubkey := None;
           via := EmptyString; addr := None |}
    end (cmd_addr cmd).

(** [func (c *main_controller) get_line(cmd cmd_line_get)], with the
    two functions of the peer table as parameters. *)
Definition get_line_on (c : main_controller) (cmd : cmd_line_get)
    : main_controller * list event :=
  match lines c !! cmd_hashname cmd with
  | Some line => (c, reply_line cmd (Some line))
  | None =>
      let a := {| hashname := cmd_hashname cmd; pubkey := None;
                  via := EmptyString; addr := None |} in
      let a :=
        match cmd_pub cmd with
        | Some pub => {| hashname := hashname a; pubkey := rsa_pubkey pub;
                         via := via a; addr := addr a |}
        | None => a
        end in
      let a := update a (cmd_addr cmd) in
      let '(peers', p, disc) := table_add_peer (peers c) a in
      let c := with_peers peers' c in
      let a := p_addr p in
      if is_down p then (c, reply_line cmd None)
      else if (bool_decide (is_Some (pubkey a)) || negb (IsZero (via a)))
              && bool_decide (is_Some (addr a))
      then
        let line := {| line_ptr := next_line c; prv_key_id := EmptyString;
                       peer := hashname (p_addr p); peer_down := false |} in
        ({| state := state c; lines := <[cmd_hashname cmd := line]> (lines c);
            active_lines := active_lines c; peers := peers c;
            num_open_lines := num_open_lines c;
            num_running_lines := num_running_lines c;
            seek_handler := seek_handler c; next_line := S (next_line c) |},
         [LineInit line; LineEnsureRunning line] ++ reply_line cmd (Some line))
      else (c, reply_line cmd None)
  end.

(** The line [get_line] makes for the record [p]: [&line_t{}], then
    [line.Init(c.sw, peer)]. *)
Definition new_line (c : main_controller) (p : peer_t) : line_t :=
  {| line_ptr := next_line c; prv_key_id := EmptyString;
     peer := hashname (p_addr p); peer_down := false |}.

(** C2, as amended. [get_line] returns the existing line for the
    hashname when there is one, whether or not the peer is down, and does
    not consult the peer table.  When there is none it hands the hints of
    the request to the peer table and goes by the record [p] the table
    returns: it returns nil when [p] has [is_down] set; opens a new line,
    stores it in [lines] and returns it when the address of [p] has a
    public key or a relay, and a network address; returns nil and opens
    nothing otherwise.  Whether hints end the down state is for the peer
    table to say; [get_line] keeps what the table returned in all three
    cases. *)
Theorem get_line_outcome c cmd peers' p disc :
  table_add_peer (peers c) (requested_addr cmd) = (peers', p, disc) →
  (∀ l, lines c !! cmd_hashname cmd = Some l →
        get_line_on c cmd = (c, reply_line cmd (Some l)))
  ∧ (lines c !! cmd_hashname cmd = None → is_down p = true →
     get_line_on c cmd = (with_peers peers' c, reply_line cmd None))
  ∧ (lines c !! cmd_hashname cmd = None → is_down p = false →
     dialable (p_addr p) = true →
     get_line_on c cmd
     = ({| state := state c;
           lines := <[cmd_hashname cmd := new_line c p]> (lines c);
           active_lines := active_lines c; peers := peers';
           num_open_lines := num_open_lines c;
           num_running_lines := num_running_lines c;
           seek_handler := seek_handler c; next_line := S (next_line c) |},
        [LineInit (new_line c p); LineEnsureRunning (new_line c p)]
        ++ reply_line cmd (Some (new_line c p))))
  ∧ (lines c !! cmd_hashname cmd = None → is_down p = false →
     dialable (p_addr p) = false →
     get_line_on c cmd = (with_peers peers' c, reply_line cmd None)).
Proof.
  intros Etable.
  assert (lines c !! cmd_hashname cmd = None →
          get_line_on c cmd
          = if is_down p then (with_peers peers' c, reply_line cmd None)
            else if dialable (p_addr p)
            then ({| state := state c;
                     lines := <[cmd_hashname cmd := new_line c p]> (lines c);
                     active_lines := active_lines c; peers := peers';
                     num_open_lines := num_open_lines c;
                     num_running_lines := num_running_lines c;
                     seek_handler := seek_handler c; next_line := S (next_line c) |},
                  [LineInit (new_line c p); LineEnsureRunning (new_line c p)]
                  ++ reply_line cmd (Some (new_line c p)))
            else (with_peers peers' c, reply_line cmd None)) as Hnone.
  { intros Hl. unfold get_line_on. rewrite Hl. cbn zeta.
    assert (match cmd_pub cmd with
            | Some pub =>
                {| hashname := cmd_hashname cmd; pubkey := rsa_pubkey pub;
                   via := EmptyString; addr := None |}
            | None =>
                {| hashname := cmd_hashname cmd; pubkey := None;
                   via := EmptyString; addr := None |}
            end
            = match cmd_pub cmd with
              | Some pub =>
                  {| hashname := hashname
                       {| hashname := cmd_hashname cmd; pubkey := None;
                          via := EmptyString; addr := None |};
                     pubkey := rsa_pubkey pub;
                     via := via {| hashname := cmd_hashname cmd; pubkey := None;
                                   via := EmptyString; addr := None |};
                     addr := addr {| hashname := cmd_hashname cmd; pubkey := None;
                                     via := EmptyString; addr := None |} |}
              | None =>
                  {| hashname := cmd_hashname cmd; pubkey := None;
                     via := EmptyString; addr := None |}
              end) as <- by by destruct (cmd_pub cmd).
    fold (requested_addr cmd). rewrite Etable. done. }
  split; [|split; [|split]].
  - intros l Hl. unfold get_line_on. by rewrite Hl.
  - intros Hl Hd. by rewrite (Hnone Hl), Hd.
  - intros Hl Hd Hdial. by rewrite (Hnone Hl), Hd, Hdial.
  - intros Hl Hd Hdial. by rewrite (Hnone Hl), Hd, Hdial.
Qed.

End get_line_on.

(** [get_line] is [get_line_on] with the peer table as modelled. *)
Lemma get_line_on_model c cmd :
  get_line c cmd = get_line_on addr_update peer_table_add_peer c cmd.
Proof. done. Qed.

Definition cmd_bob : cmd_line_get :=
  {| cmd_hashname := "bob"; cmd_addr := addr_zero; cmd_pub := None;
     cmd_reply := true |}.

Definition addr_bob : addr_t :=
  {| hashname := "bob"; pubkey := Some "rsa-key-of-bob"%string;
     via := EmptyString; addr := Some "udp4:10.0.0.7:4242"%string |}.

Definition line_bob_down : line_t :=
  {| line_ptr := 0; prv_key_id := EmptyString; peer := "bob"; peer_down := true |}.

Definition state_bob_down : main_controller :=
  (run_main_loop no_closest_peers (main_controller_open false)
     [AddPeer addr_bob; UnregisterLine line_bob_down; RegisterLine line_bob]).1.1.

(** A request with hints for an unknown peer opens a line. *)
Example get_line_opens :
  get_line (main_controller_open false)
    {| cmd_hashname := "bob"; cmd_addr := addr_bob; cmd_pub := None;
       cmd_reply := true |}
  = ({| state := main_running;
        lines := {[ "bob"%string := {| line_ptr := 0; prv_key_id := EmptyString;
                                       peer := "bob"; peer_down := false |} ]};
        active_lines := ∅;
        peers := {[ "bob"%string := {| p_addr := addr_bob; is_down := false |} ]};
        num_open_lines := 0; num_running_lines := 0;
        seek_handler := false; next_line := 1 |},
     [LineInit {| line_ptr := 0; prv_key_id := EmptyString; peer := "bob";
                  peer_down := false |};
      LineEnsureRunning {| line_ptr := 0; prv_key_id := EmptyString; peer := "bob";
                           peer_down := false |};
      ReplyLine (Some {| line_ptr := 0; prv_key_id := EmptyString; peer := "bob";
                         peer_down := false |})]).
Proof. by vm_compute. Qed.

(** The request for "bob" with hints, on a fresh controller. *)
Definition cmd_bob_hinted : cmd_line_get :=
  {| cmd_hashname := "bob"; cmd_addr := addr_bob; cmd_pub := None;
     cmd_reply := true |}.

Definition peer_bob : peer_t := {| p_addr := addr_bob; is_down := false |}.

Lemma get_line_outcome_witness :
  peer_table_add_peer (peers (main_controller_open false))
    (requested_addr addr_update cmd_bob_hinted)
  = ({[ "bob"%string := peer_bob ]}, peer_bob, true)
  ∧ (∀ l, lines (main_controller_open false) !! cmd_hashname cmd_bob_hinted = Some l →
          get_line_on addr_update peer_table_add_peer (main_controller_open false)
            cmd_bob_hinted
          = (main_controller_open false, reply_line cmd_bob_hinted (Some l)))
  ∧ (lines (main_controller_open false) !! cmd_hashname cmd_bob_hinted = None →
     is_down peer_bob = true →
     get_line_on addr_update peer_table_add_peer (main_controller_open false)
       cmd_bob_hinted
     = (with_peers {[ "bob"%string := peer_bob ]} (main_controller_open false),
        reply_line cmd_bob_hinted None))
  ∧ (lines (main_controller_open false) !! cmd_hashname cmd_bob_hinted = None →
     is_down peer_bob = false →
     dialable (p_addr peer_bob) = true →
     get_line_on addr_update peer_table_add_peer (main_controller_open false)
       cmd_bob_hinted
     = ({| state := state (main_controller_open false);
           lines := <[cmd_hashname cmd_bob_hinted :=
                        new_line (main_controller_open false) peer_bob]>
                      (lines (main_controller_open false));
           active_lines := active_lines (main_controller_open false);
           peers := {[ "bob"%string := peer_bob ]};
           num_open_lines := num_open_lines (main_controller_open false);
           num_running_lines := num_running_lines (main_controller_open false);
           seek_handler := seek_handler (main_controller_open false);
           next_line := S (next_line (main_controller_open false)) |},
        [LineInit (new_line (main_controller_open false) peer_bob);
         LineEnsureRunning (new_line (main_controller_open false) peer_bob)]
        ++ reply_line cmd_bob_hinted
             (Some (new_line (main_controller_open false) peer_bob))))
  ∧ (lines (main_controller_open false) !! cmd_hashname cmd_bob_hinted = None →
     is_down peer_bob = false →
     dialable (p_addr peer_bob) = false →
     get_line_on addr_update peer_table_add_peer (main_controller_open false)
       cmd_bob_hinted
     = (with_peers {[ "bob"%string := peer_bob ]} (main_controller_open false),
        reply_line cmd_bob_hinted None)).
Proof.
  assert (peer_table_add_peer (peers (main_controller_open false))
            (requested_addr addr_update cmd_bob_hinted)
          = ({[ "bob"%string := peer_bob ]}, peer_bob, true)) as Ht by by vm_compute.
  split; [exact Ht|].
  exact (get_line_outcome addr_update peer_table_add_peer (main_controller_open false)
           cmd_bob_hinted _ _ _ Ht).
Defined.

(** C2, as stated, fails in both of its parts.  On a fresh controller a
    request for an unknown hashname without hints finds no line and no
    down peer, and yet is answered nil without a line being opened.  And
    after the peer of "bob" has been marked down and a line for "bob" has
    registered itself, a request for "bob" is answered with that line. *)
Lemma get_line_not_as_stated :
  (lines (main_controller_open false) !! "bob"%string = None
   ∧ peer_is_down (main_controller_open false) "bob" = false
   ∧ (get_line (main_controller_open false) cmd_bob).2 = [ReplyLine None]
   ∧ lines (get_line (main_controller_open false) cmd_bob).1 = ∅)
  ∧ (reachable no_closest_peers state_bob_down
     ∧ peer_is_down state_bob_down "bob" = true
     ∧ (get_line state_bob_down cmd_bob).2 = [ReplyLine (Some line_bob)]).
Proof.
  split; [by vm_compute|].
  split; [|by vm_compute].
  by exists false, [AddPeer addr_bob; UnregisterLine line_bob_down; RegisterLine line_bob].
Qed.

(** ** AddPeer *)

Definition is_Seek (e : event) : bool :=
  match e with Seek _ => true | _ => false end.

Lemma get_line_no_seek c cmd : forallb (λ e, negb (is_Seek e)) (get_line c cmd).2 = true.
Proof.
  unfold get_line, reply_line. destruct (lines c !! cmd_hashname cmd).
  { by destruct (cmd_reply cmd). }
  destruct (peer_table_add_peer _ _) as [[peers' p] disc]. simpl.
  destruct (is_down p); [by destruct (cmd_reply cmd)|].
  destruct (_ && _); by destruct (cmd_reply cmd).
Qed.

Lemma addr_update_nothing a h :
  addr_update a {| hashname := h; pubkey := None; via := EmptyString; addr := None |}
  = a.
Proof.
  destruct a as [ha pk v ad]. unfold addr_update. simpl. f_equal.
  - by destruct pk.
  - unfold IsZero. by destruct (bool_decide_reflect (v = EmptyString)).
  - by destruct ad.
Qed.

(** The request [add_peer] makes of [get_line] for a discovered peer:
    the hashname alone, and no reply channel. *)
Definition discovered_cmd (a : addr_t) : cmd_line_get :=
  {| cmd_hashname := hashname a; cmd_addr := addr_zero; cmd_pub := None;
     cmd_reply := false |}.

(** C4, as amended. An [AddPeer] whose address creates a new peer record
    makes the controller attempt line establishment for that hashname
    (the work of [get_line] on the hashname alone, so a line is opened
    and started when none is registered and the address has a public key
    or a relay, and a network address) and answers with the new record
    and [discovered = true]; [add_peer] performs no seek. *)
Theorem add_peer_discovered c a :
  peers c !! hashname a = None →
  add_peer c a
  = ((get_line (with_peers (<[hashname a := {| p_addr := a; is_down := false |}]>
                              (peers c)) c)
        (discovered_cmd a)).1,
     (get_line (with_peers (<[hashname a := {| p_addr := a; is_down := false |}]>
                              (peers c)) c)
        (discovered_cmd a)).2
     ++ [ReplyAddPeer {| p_addr := a; is_down := false |} true])
  ∧ (lines c !! hashname a = None → dialable a = true →
     lines (add_peer c a).1
     = <[hashname a := {| line_ptr := next_line c; prv_key_id := EmptyString;
                          peer := hashname a; peer_down := false |}]> (lines c)
     ∧ (add_peer c a).2
       = [LineInit {| line_ptr := next_line c; prv_key_id := EmptyString;
                      peer := hashname a; peer_down := false |};
          LineEnsureRunning {| line_ptr := next_line c; prv_key_id := EmptyString;
                               peer := hashname a; peer_down := false |};
          ReplyAddPeer {| p_addr := a; is_down := false |} true])
  ∧ forallb (λ e, negb (is_Seek e)) (add_peer c a).2 = true.
Proof.
  intros Hnew.
  assert (add_peer c a
          = ((get_line (with_peers (<[hashname a := {| p_addr := a; is_down := false |}]>
                                      (peers c)) c) (discovered_cmd a)).1,
             (get_line (with_peers (<[hashname a := {| p_addr := a; is_down := false |}]>
                                      (peers c)) c) (discovered_cmd a)).2
             ++ [ReplyAddPeer {| p_addr := a; is_down := false |} true])) as E.
  { unfold add_peer, peer_table_add_peer. rewrite Hnew. cbn [p_addr].
    fold (discovered_cmd a). by destruct (get_line _ _). }
  split; [exact E|]. rewrite E. cbn [fst snd]. split.
  - intros Hl Hd.
    set (c' := with_peers (<[hashname a := {| p_addr := a; is_down := false |}]>
                             (peers c)) c).
    assert (merged_addr c' (discovered_cmd a) = a) as Hm.
    { unfold merged_addr, c', hinted_addr, discovered_cmd, addr_zero.
      cbn [peers with_peers cmd_hashname cmd_addr cmd_pub].
      rewrite lookup_insert_eq. cbn [p_addr]. by rewrite !addr_update_nothing. }
    assert (peer_is_down c' (hashname a) = false) as Hup.
    { unfold peer_is_down, c'. simpl. by rewrite lookup_insert_eq. }
    rewrite get_line_unfold. cbn [discovered_cmd cmd_hashname].
    change (lines c') with (lines c). rewrite Hl, Hup.
    fold (discovered_cmd a). rewrite Hm, Hd.
    unfold opened_line. by rewrite Hm.
  - rewrite forallb_app, get_line_no_seek. done.
Qed.

Definition controller_with_seek_handler : main_controller := main_controller_open true.

(** C4, as stated, fails: with a seek handler registered, the [AddPeer]
    that discovers "bob" opens and starts a line and answers, and that is
    all it does; there is no seek. *)
Lemma add_peer_does_not_seek :
  seek_handler controller_with_seek_handler = true
  ∧ peers controller_with_seek_handler !! hashname addr_bob = None
  ∧ (add_peer controller_with_seek_handler addr_bob).2
    = [LineInit {| line_ptr := 0; prv_key_id := EmptyString; peer := "bob";
                   peer_down := false |};
       LineEnsureRunning {| line_ptr := 0; prv_key_id := EmptyString; peer := "bob";
                            peer_down := false |};
       ReplyAddPeer {| p_addr := addr_bob; is_down := false |} true]
  ∧ (Seek "bob" ∉ (add_peer controller_with_seek_handler addr_bob).2)
  ∧ seek_discovered_peer controller_with_seek_handler
      {| p_addr := addr_bob; is_down := false |} = [Seek "bob"].
Proof.
  split; [done|]. split; [done|].
  assert ((add_peer controller_with_seek_handler addr_bob).2
    = [LineInit {| line_ptr := 0; prv_key_id := EmptyString; peer := "bob";
                   peer_down := false |};
       LineEnsureRunning {| line_ptr := 0; prv_key_id := EmptyString; peer := "bob";
                            peer_down := false |};
       ReplyAddPeer {| p_addr := addr_bob; is_down := false |} true]) as E
    by by vm_compute.
  split; [exact E|]. split; [|done].
  rewrite E. intros Hin.
  repeat (apply elem_of_cons in Hin as [Hin|Hin]; [discriminate Hin|]).
  by apply elem_of_nil in Hin.
Qed.

Lemma add_peer_discovered_witness :
  peers controller_with_seek_handler !! hashname addr_bob = None
  ∧ add_peer controller_with_seek_handler addr_bob
    = ((get_line (with_peers (<[hashname addr_bob :=
                                  {| p_addr := addr_bob; is_down := false |}]>
                                (peers controller_with_seek_handler))
                    controller_with_seek_handler)
          (discovered_cmd addr_bob)).1,
       (get_line (with_peers (<[hashname addr_bob :=
                                  {| p_addr := addr_bob; is_down := false |}]>
                                (peers controller_with_seek_handler))
                    controller_with_seek_handler)
          (discovered_cmd addr_bob)).2
       ++ [ReplyAddPeer {| p_addr := addr_bob; is_down := false |} true])
  ∧ (lines controller_with_seek_handler !! hashname addr_bob = None →
     dialable addr_bob = true →
     lines (add_peer controller_with_seek_handler addr_bob).1
     = <[hashname addr_bob :=
           {| line_ptr := next_line controller_with_seek_handler;
              prv_key_id := EmptyString;
              peer := hashname addr_bob; peer_down := false |}]>
         (lines controller_with_seek_handler)
     ∧ (add_peer controller_with_seek_handler addr_bob).2
       = [LineInit {| line_ptr := next_line controller_with_seek_handler;
                      prv_key_id := EmptyString;
                      peer := hashname addr_bob; peer_down := false |};
          LineEnsureRunning {| line_ptr := next_line controller_with_seek_handler;
                               prv_key_id := EmptyString;
                               peer := hashname addr_bob; peer_down := false |};
          ReplyAddPeer {| p_addr := addr_bob; is_down := false |} true])
  ∧ forallb (λ e, negb (is_Seek e))
      (add_peer controller_with_seek_handler addr_bob).2 = true.
Proof.
  assert (peers controller_with_seek_handler !! hashname addr_bob = None) as Hn
    by reflexivity.
  split; [exact Hn|].
  exact (add_peer_discovered controller_with_seek_handler addr_bob Hn).
Defined.

(** ** The counters *)

(** The counter updates among the effects, with the kind of access. *)
Definition counter_updates (events : list event) : list (counter * access) :=
  omap (λ e, match e with CounterAdd ctr _ how => Some (ctr, how) | _ => None end)
    events.

(** What the code does about C5: the round of the active loop that
    handles [ActivateLine] updates [num_open_lines] with a plain
    [+= 1], and the one that handles [RegisterLine] updates
    [num_running_lines] the same way, while [PopulateStats] reads both
    with atomic loads. *)
Lemma counters_updated_without_atomics :
  counter_updates
    (active_select no_closest_peers (main_controller_open false)
       (ActivateLine line_bob)).2
  = [(CtrOpenLines, PlainAccess)]
  ∧ counter_updates
      (active_select no_closest_peers (main_controller_open false)
         (RegisterLine line_bob)).2
    = [(CtrRunningLines, PlainAccess)]
  ∧ (PopulateStats (main_controller_open false)
       {| NumOpenLines := 0; NumRunningLines := 0; KnownPeers := 0 |}).2
    = [CounterLoad CtrOpenLines AtomicAccess;
       CounterLoad CtrRunningLines AtomicAccess;
       CounterLoad CtrPeers AtomicAccess].
Proof. done. Qed.

(** ** Shutdown *)

(** The nil answer a query gets; [None] for a message that is not one of
    the four queries. *)
Definition nil_reply (m : msg) : option event :=
  match m with
  | GetPeer _ => Some (ReplyPeer None)
  | GetClosestPeers _ _ => Some (ReplyClosestPeers None)
  | GetLine _ _ _ => Some (ReplyLine None)
  | GetActiveLine _ => Some (ReplyLine None)
  | _ => None
  end.

(** The answers among the effects. *)
Definition replies (events : list event) : list event :=
  omap (λ e, match e with
             | ReplyLine _ | ReplyPeer _ | ReplyAddPeer _ _ | ReplyClosestPeers _ =>
                 Some e
             | _ => None
             end) events.

(** The messages of a line that shows up: on the activate or on the
    register channel. *)
Definition arrives (l : line_t) (handled : list msg) : Prop :=
  ActivateLine l ∈ handled ∨ RegisterLine l ∈ handled.

Lemma replies_app ev1 ev2 : replies (ev1 ++ ev2) = replies ev1 ++ replies ev2.
Proof. apply omap_app. Qed.

Lemma replies_shutdowns (ls : list (Hashname * line_t)) :
  replies ((λ kv, LineShutdown kv.2) <$> ls) = [].
Proof. by induction ls. Qed.

(** What the terminating loop has done when it stops, in terms of the
    messages [handled] it has received. *)
Record drained (c c2 : main_controller) (events : list event)
    (handled : list msg) : Prop := {
  dr_replies : replies events = omap nil_reply handled;
  dr_arrivals : ∀ l, arrives l handled → LineShutdown l ∈ events;
  dr_lines : lines c2 ⊆ lines c;
  dr_active_lines : active_lines c2 ⊆ active_lines c;
  dr_deactivated :
    ∀ l, DeactivateLine l ∈ handled → active_lines c2 !! prv_key_id l = None;
  dr_unregistered :
    ∀ l, UnregisterLine l ∈ handled → lines c2 !! peer l = None
}.

Lemma terminating_select_drained c m :
  drained c (terminating_select c m).1 (terminating_select c m).2 [m].
Proof.
  destruct m; (split;
    [ try done
    | intros l [Hin|Hin]; apply list_elem_of_singleton in Hin; try done;
      injection Hin as <-; by apply list_elem_of_singleton
    | unfold terminating_select; cbn [fst]; rewrite ?unregister_line_lines;
      try done; apply delete_subseteq
    | unfold terminating_select; cbn [fst];
      rewrite ?unregister_line_active_lines; try done; apply delete_subseteq
    | intros l Hin; apply list_elem_of_singleton in Hin; try done;
      injection Hin as <-; simpl; apply lookup_delete_eq
    | intros l Hin; apply list_elem_of_singleton in Hin; try done;
      injection Hin as <-; unfold terminating_select; cbn [fst];
      rewrite unregister_line_lines; apply lookup_delete_eq ]).
Qed.

Lemma drained_nil c : drained c c [] [].
Proof.
  split; try done.
  - intros l [Hin|Hin]; by apply elem_of_nil in Hin.
  - intros l Hin. by apply elem_of_nil in Hin.
  - intros l Hin. by apply elem_of_nil in Hin.
Qed.

Lemma drained_cons c c1 c2 ev1 ev2 m handled :
  drained c c1 ev1 [m] → drained c1 c2 ev2 handled →
  drained c c2 (ev1 ++ ev2) (m :: handled).
Proof.
  intros [R1 A1 L1 AL1 D1 U1] [R2 A2 L2 AL2 D2 U2]. split.
  - rewrite replies_app, R1, R2. simpl. by destruct (nil_reply m).
  - intros l [Hin|Hin]; apply elem_of_cons in Hin as [<-|Hin]; apply elem_of_app.
    + left. apply A1. left. by apply list_elem_of_singleton.
    + right. apply A2. by left.
    + left. apply A1. right. by apply list_elem_of_singleton.
    + right. apply A2. by right.
  - by trans (lines c1).
  - by trans (active_lines c1).
  - intros l [<-|Hin]%elem_of_cons; [|by apply D2].
    eapply lookup_weaken_None; [|exact AL2].
    apply D1. by apply list_elem_of_singleton.
  - intros l [<-|Hin]%elem_of_cons; [|by apply U2].
    eapply lookup_weaken_None; [|exact L2].
    apply U1. by apply list_elem_of_singleton.
Qed.

(** The loop [for len(c.lines) > 0] receives a prefix of the messages
    and stops either with [lines] empty or waiting for more. *)
Lemma terminating_loop_drained c inbox :
  ∃ handled,
    inbox = handled ++ (terminating_loop c inbox).1.2
    ∧ drained c (terminating_loop c inbox).1.1.1 (terminating_loop c inbox).1.1.2
        handled
    ∧ (if (terminating_loop c inbox).2
       then (terminating_loop c inbox).1.2 = []
            ∧ lines (terminating_loop c inbox).1.1.1 ≠ ∅
       else lines (terminating_loop c inbox).1.1.1 = ∅).
Proof.
  revert c. induction inbox as [|m inbox IH]; intros c; simpl.
  - exists []. destruct (bool_decide_reflect (lines c = ∅)); simpl;
      (split; [done|]); (split; [apply drained_nil|done]).
  - destruct (bool_decide_reflect (lines c = ∅)); simpl.
    { exists []. split; [done|]. split; [apply drained_nil|done]. }
    pose proof (terminating_select_drained c m) as Hm.
    destruct (terminating_select c m) as [c1 ev1]. simpl in Hm.
    destruct (IH c1) as (handled & Hin & Hdr & Hend).
    destruct (terminating_loop c1 inbox) as [[[c2 ev2] rest] w]. simpl in *.
    exists (m :: handled). split; [by rewrite Hin at 1|].
    split; [by apply drained_cons with c1|done].
Qed.

Section shutdown.
Context `{GoRange}.
Variable find_closest_peers : gmap Hashname peer_t → Hashname → Z → list peer_t.

(** C3. The controller is running and receives [Shutdown]; [inbox] is
    what arrives afterwards.  The state word becomes [main_terminating]
    and the main loop runs [run_terminating_loop], which first calls
    [Shutdown] on every line of [lines].  Of the messages that follow it
    receives a prefix [handled], up to the moment [lines] is empty:
    every query among them ([GetPeer], [GetClosestPeers], [GetLine],
    [GetActiveLine]) is answered nil and nothing else is answered; every
    line that arrives on the activate or register channel is shut down;
    nothing is added to [lines] or [active_lines]; every deactivated line
    is out of [active_lines] and every unregistered one out of [lines].
    The loop returns, with the state word zero, exactly when [lines] is
    empty; otherwise it is waiting for more messages. *)
Theorem shutdown_drains c inbox c2 events rest waiting :
  state c = main_running →
  run_terminating_loop (active_select find_closest_peers c Shutdown).1 inbox
  = (c2, events, rest, waiting) →
  state (active_select find_closest_peers c Shutdown).1 = main_terminating
  ∧ main_loop find_closest_peers 3 c (Shutdown :: inbox)
    = (c2, events, negb waiting)
  ∧ (∀ h l, lines c !! h = Some l → LineShutdown l ∈ events)
  ∧ ∃ handled,
      inbox = handled ++ rest
      ∧ drained c c2 events handled
      ∧ (if waiting
         then rest = [] ∧ lines c2 ≠ ∅ ∧ state c2 = main_terminating
         else lines c2 = ∅ ∧ state c2 = main_zero).
Proof.
  intros Hs Hrun.
  assert (active_select find_closest_peers c Shutdown
          = ((active_select find_closest_peers c Shutdown).1, [])) as Esel by done.
  remember (active_select find_closest_peers c Shutdown).1 as c1 eqn:Ec1.
  assert (state c1 = main_terminating) as Hs1.
  { rewrite Ec1. simpl. by rewrite Hs. }
  assert (lines c1 = lines c ∧ active_lines c1 = active_lines c) as [Hl1 Ha1]
    by by rewrite Ec1.
  split; [exact Hs1|]. split.
  { cbn [main_loop run_active_loop]. rewrite Hs.
    cbn [state_test main_running main_terminating main_zero f_running
         f_terminating implb andb orb negb].
    rewrite Esel.
    assert (run_active_loop find_closest_peers c1 inbox = (c1, [], inbox, false)) as ->.
    { destruct inbox; simpl; by rewrite Hs1. }
    rewrite Hs1.
    cbn [state_test main_running main_terminating main_zero f_running
         f_terminating implb andb orb negb app].
    rewrite Hrun. destruct waiting; [done|].
    pose proof (run_terminating_loop_returns c1 inbox Hs1) as Hret.
    rewrite Hrun in Hret. cbn [fst snd] in Hret. rewrite (Hret eq_refl).
    cbn [state_test main_running main_terminating main_zero f_running
         f_terminating implb andb orb negb app].
    by rewrite app_nil_r. }
  revert Hrun. unfold run_terminating_loop. rewrite Hl1.
  destruct (bool_decide_reflect (lines c = ∅)) as [He|Hne].
  - simpl. intros [= <- <- <- <-]. split.
    { intros h l Hl. by rewrite He, lookup_empty in Hl. }
    exists []. split; [done|]. split.
    + rewrite He, range_empty. simpl.
      pose proof (drained_nil c1) as [R A L AL D U]. split; try done.
      * simpl. by rewrite Hl1.
      * simpl. by rewrite Ha1.
    + simpl. by rewrite Hs1, Hl1.
  - destruct (terminating_loop_drained c1 inbox) as (handled & Hin & Hdr & Hend).
    pose proof (terminating_loop_state c1 inbox) as Hst.
    destruct (terminating_loop c1 inbox) as [[[c3 ev3] rest3] w3]. simpl in *.
    assert (drained c c3 (((λ kv, LineShutdown kv.2) <$> range (lines c)) ++ ev3)
              handled) as Hdr'.
    { destruct Hdr as [R A L AL D U]. split; try done.
      - by rewrite replies_app, R, replies_shutdowns.
      - intros l Hl. apply elem_of_app. right. by apply A.
      - by rewrite <-Hl1.
      - by rewrite <-Ha1. }
    assert (∀ h l, lines c !! h = Some l →
              LineShutdown l ∈ ((λ kv, LineShutdown kv.2) <$> range (lines c)) ++ ev3)
      as Hbc.
    { intros h l Hl. apply elem_of_app. left.
      apply list_elem_of_fmap. exists (h, l). split; [done|]. by apply elem_of_range. }
    destruct w3; simpl; intros [= <- <- <- <-].
    + split; [exact Hbc|]. exists handled.
      split; [exact Hin|]. split; [exact Hdr'|].
      destruct Hend as [Hr3 Hne3]. split; [exact Hr3|]. split; [exact Hne3|].
      congruence.
    + split; [exact Hbc|]. exists handled.
      split; [exact Hin|]. split; [by destruct Hdr'|].
      split; [exact Hend|]. simpl. by rewrite Hst, Hs1.
Qed.

End shutdown.

(** A run: the line of "bob" is registered and active when [Shutdown]
    arrives; then a query, a late line, the line of "bob" going away, and
    one more query that nobody receives. *)
Definition state_bob_active : main_controller :=
  (run_main_loop no_closest_peers (main_controller_open false)
     [RegisterLine line_bob; ActivateLine line_bob]).1.1.

Definition line_carol : line_t :=
  {| line_ptr := 9; prv_key_id := "77c0"; peer := "carol"; peer_down := false |}.

Definition inbox_after_shutdown : list msg :=
  [GetPeer "bob"; RegisterLine line_carol; GetActiveLine "5f2a";
   DeactivateLine line_bob; UnregisterLine line_bob; GetPeer "carol"].

Definition state_drained : main_controller :=
  {| state := main_zero; lines := ∅; active_lines := ∅; peers := ∅;
     num_open_lines := 0; num_running_lines := 0;
     seek_handler := false; next_line := 0 |}.

Definition events_drained : list event :=
  [LineShutdown line_bob; ReplyPeer None; LineShutdown line_carol; ReplyLine None;
   CounterAdd CtrOpenLines (-1) PlainAccess;
   CounterAdd CtrRunningLines (-1) PlainAccess].

Example shutdown_run :
  run_terminating_loop (active_select no_closest_peers state_bob_active Shutdown).1
    inbox_after_shutdown
  = (state_drained, events_drained, [GetPeer "carol"], false).
Proof. by vm_compute. Qed.

Lemma shutdown_drains_witness :
  state state_bob_active = main_running
  ∧ run_terminating_loop
      (active_select no_closest_peers state_bob_active Shutdown).1
      inbox_after_shutdown
    = (state_drained, events_drained, [GetPeer "carol"], false)
  ∧ state (active_select no_closest_peers state_bob_active Shutdown).1
    = main_terminating
  ∧ main_loop no_closest_peers 3 state_bob_active (Shutdown :: inbox_after_shutdown)
    = (state_drained, events_drained, negb false)
  ∧ (∀ h l, lines state_bob_active !! h = Some l → LineShutdown l ∈ events_drained)
  ∧ ∃ handled,
      inbox_after_shutdown = handled ++ [GetPeer "carol"]
      ∧ drained state_bob_active state_drained events_drained handled
      ∧ lines state_drained = ∅ ∧ state state_drained = main_zero.
Proof.
  assert (state state_bob_active = main_running) as H1 by by vm_compute.
  assert (run_terminating_loop
            (active_select no_closest_peers state_bob_active Shutdown).1
            inbox_after_shutdown
          = (state_drained, events_drained, [GetPeer "carol"], false)) as H2
    by by vm_compute.
  split; [exact H1|]. split; [exact H2|].
  exact (shutdown_drains no_closest_peers state_bob_active inbox_after_shutdown
           state_drained events_drained [GetPeer "carol"] false H1 H2).
Defined.

(** ** The course of the main loop *)

Section main_loop_course.
Context `{GoRange}.
Variable find_closest_peers : gmap Hashname peer_t → Hashname → Z → list peer_t.

(** The active loop is left on [Shutdown] and on nothing else. *)
Lemma run_active_loop_shutdown c inbox :
  state c = main_running →
  if (run_active_loop find_closest_peers c inbox).2
  then state (run_active_loop find_closest_peers c inbox).1.1.1 = main_running
       ∧ Shutdown ∉ inbox
  else state (run_active_loop find_closest_peers c inbox).1.1.1 = main_terminating
       ∧ Shutdown ∈ inbox.
Proof.
  revert c. induction inbox as [|m inbox IH]; intros c Hs; simpl; rewrite Hs; simpl.
  { split; [done|]. apply not_elem_of_nil. }
  pose proof (active_select_state find_closest_peers c m) as Hm.
  destruct (active_select find_closest_peers c m) as [c1 ev1]. simpl in Hm.
  assert (m = Shutdown ∨ m ≠ Shutdown) as [->|Hne]
    by (destruct m; try (by right); by left).
  - assert (state c1 = main_terminating) as Hs1 by by rewrite Hm, Hs.
    assert (run_active_loop find_closest_peers c1 inbox = (c1, [], inbox, false)) as ->.
    { destruct inbox; simpl; by rewrite Hs1. }
    simpl. split; [done|]. left.
  - assert (state c1 = main_running) as Hs1.
    { rewrite Hm, Hs. by destruct m. }
    specialize (IH c1 Hs1).
    destruct (run_active_loop find_closest_peers c1 inbox) as [[[c2 ev2] rest] w].
    simpl in *.
    destruct w; (split; [by destruct IH|]).
    + intros [?|?]%elem_of_cons; [done|]. by destruct IH.
    + apply list_elem_of_further. by destruct IH.
Qed.

(** The terminating loop is left when [lines] is empty and not before. *)
Lemma run_terminating_loop_outcome c inbox :
  state c = main_terminating →
  if (run_terminating_loop c inbox).2
  then state (run_terminating_loop c inbox).1.1.1 = main_terminating
       ∧ lines (run_terminating_loop c inbox).1.1.1 ≠ ∅
  else state (run_terminating_loop c inbox).1.1.1 = main_zero
       ∧ lines (run_terminating_loop c inbox).1.1.1 = ∅.
Proof.
  intros Hs. unfold run_terminating_loop.
  destruct (bool_decide_reflect (lines c = ∅)) as [He|Hne]; simpl.
  { by rewrite Hs. }
  destruct (terminating_loop_drained c inbox) as (handled & _ & _ & Hend).
  pose proof (terminating_loop_state c inbox) as Hst.
  destruct (terminating_loop c inbox) as [[[c2 ev2] rest] w]. simpl in *.
  destruct w; simpl.
  - split; [congruence|by destruct Hend].
  - by rewrite Hst, Hs.
Qed.

(** X16. The three ways a run of the main loop of a freshly opened
    controller can stand: still in the active loop, running, when no
    [Shutdown] has arrived; in the terminating loop, with lines left, after
    a [Shutdown]; returned, with the state word zero and no line left,
    after a [Shutdown].  So the loop never returns without [Shutdown], and
    never returns while a line is registered. *)
Theorem run_main_loop_outcome seek inbox :
  ((run_main_loop find_closest_peers (main_controller_open seek) inbox).2 = false
   ∧ state (run_main_loop find_closest_peers (main_controller_open seek) inbox).1.1
     = main_running
   ∧ Shutdown ∉ inbox)
  ∨ ((run_main_loop find_closest_peers (main_controller_open seek) inbox).2 = false
     ∧ state (run_main_loop find_closest_peers (main_controller_open seek) inbox).1.1
       = main_terminating
     ∧ lines (run_main_loop find_closest_peers (main_controller_open seek) inbox).1.1
       ≠ ∅
     ∧ Shutdown ∈ inbox)
  ∨ ((run_main_loop find_closest_peers (main_controller_open seek) inbox).2 = true
     ∧ state (run_main_loop find_closest_peers (main_controller_open seek) inbox).1.1
       = main_zero
     ∧ lines (run_main_loop find_closest_peers (main_controller_open seek) inbox).1.1
       = ∅
     ∧ Shutdown ∈ inbox).
Proof.
  unfold run_main_loop.
  remember (setup (main_controller_open seek)) as c eqn:Ec.
  assert (state c = main_running) as Hs by by rewrite Ec.
  clear Ec. cbn [main_loop]. rewrite Hs.
  cbn [state_test main_running main_terminating main_zero f_running
       f_terminating implb andb orb negb].
  pose proof (run_active_loop_shutdown c inbox Hs) as Hact.
  destruct (run_active_loop find_closest_peers c inbox) as [[[c2 ev2] rest] w].
  simpl in Hact. destruct w.
  { left. by destruct Hact. }
  destruct Hact as [Hs2 Hin]. rewrite Hs2.
  cbn [state_test main_running main_terminating main_zero f_running
       f_terminating implb andb orb negb].
  pose proof (run_terminating_loop_outcome c2 rest Hs2) as Hterm.
  destruct (run_terminating_loop c2 rest) as [[[c3 ev3] rest'] w'].
  simpl in Hterm. destruct w'.
  { right. left. by destruct Hterm. }
  destruct Hterm as [Hs3 Hl3]. rewrite Hs3.
  cbn [state_test main_running main_terminating main_zero f_running
       f_terminating implb andb orb negb].
  right. right. done.
Qed.

End main_loop_course.

(** ** The counters count messages *)

(** The range of an [int32]. *)
Definition int32 (z : Z) : Prop := - 2 ^ 31 ≤ z < 2 ^ 31.

Lemma wrap_int32_range z : int32 (wrap_int32 z).
Proof.
  unfold int32, wrap_int32.
  pose proof (Z.mod_pos_bound (z + 2 ^ 31) (2 ^ 32) ltac:(lia)). lia.
Qed.

Lemma wrap_int32_id z : int32 z → wrap_int32 z = z.
Proof.
  unfold int32, wrap_int32. intros Hz.
  rewrite Z.mod_small by lia. lia.
Qed.

Lemma wrap_int32_add z d : wrap_int32 (wrap_int32 z + d) = wrap_int32 (z + d).
Proof.
  unfold wrap_int32. f_equal.
  replace ((z + 2 ^ 31) mod 2 ^ 32 - 2 ^ 31 + d + 2 ^ 31)
    with ((z + 2 ^ 31) mod 2 ^ 32 + d) by lia.
  rewrite Z.add_mod_idemp_l by lia. f_equal. lia.
Qed.

(** What a message adds to [num_open_lines] and to [num_running_lines]
    in the active loop. *)
Definition open_lines_delta (m : msg) : Z :=
  match m with ActivateLine _ => 1 | DeactivateLine _ => -1 | _ => 0 end.

Definition running_lines_delta (m : msg) : Z :=
  match m with RegisterLine _ => 1 | UnregisterLine _ => -1 | _ => 0 end.

Definition sum_deltas (f : msg → Z) (inbox : list msg) : Z :=
  foldr (λ m z, f m + z) 0 inbox.

Lemma get_line_counters c cmd :
  num_open_lines (get_line c cmd).1 = num_open_lines c
  ∧ num_running_lines (get_line c cmd).1 = num_running_lines c.
Proof.
  unfold get_line. destruct (lines c !! cmd_hashname cmd); [done|].
  destruct (peer_table_add_peer _ _) as [[peers' p] disc]. simpl.
  destruct (is_down p); [done|]. by destruct (_ && _).
Qed.

Lemma add_peer_counters c a :
  num_open_lines (add_peer c a).1 = num_open_lines c
  ∧ num_running_lines (add_peer c a).1 = num_running_lines c.
Proof.
  unfold add_peer. destruct (peer_table_add_peer _ _) as [[peers' p] disc].
  destruct disc; [|done].
  pose proof (get_line_counters (with_peers peers' c)
                {| cmd_hashname := hashname (p_addr p); cmd_addr := addr_zero;
                   cmd_pub := None; cmd_reply := false |}) as E.
  by destruct (get_line _ _).
Qed.

Lemma unregister_line_counters c line :
  num_open_lines (unregister_line c line).1 = num_open_lines c
  ∧ num_running_lines (unregister_line c line).1
    = wrap_int32 (num_running_lines c + -1).
Proof. unfold unregister_line. by destruct (peer_down line). Qed.

Section counters.
Context `{GoRange}.
Variable find_closest_peers : gmap Hashname peer_t → Hashname → Z → list peer_t.

Lemma active_select_counters c m :
  int32 (num_open_lines c) → int32 (num_running_lines c) →
  num_open_lines (active_select find_closest_peers c m).1
  = wrap_int32 (num_open_lines c + open_lines_delta m)
  ∧ num_running_lines (active_select find_closest_peers c m).1
    = wrap_int32 (num_running_lines c + running_lines_delta m).
Proof.
  intros Ho Hr.
  destruct m; unfold active_select; cbn [fst open_lines_delta running_lines_delta];
    rewrite ?Z.add_0_r, ?(wrap_int32_id _ Ho), ?(wrap_int32_id _ Hr);
    try done.
  - apply unregister_line_counters.
  - apply get_line_counters.
  - apply add_peer_counters.
Qed.

(** X17. The two counters count messages, not table entries: while the
    controller is running, [num_open_lines] is the number of
    [ActivateLine] messages received minus the number of [DeactivateLine]
    messages, and [num_running_lines] the number of [RegisterLine] minus
    the number of [UnregisterLine] messages, wrapped to [int32]; a line
    that [get_line] opens and stores in [lines] is not counted until it
    registers itself. *)
Theorem active_loop_counters c inbox :
  state c = main_running → Shutdown ∉ inbox →
  int32 (num_open_lines c) → int32 (num_running_lines c) →
  num_open_lines (run_active_loop find_closest_peers c inbox).1.1.1
  = wrap_int32 (num_open_lines c + sum_deltas open_lines_delta inbox)
  ∧ num_running_lines (run_active_loop find_closest_peers c inbox).1.1.1
    = wrap_int32 (num_running_lines c + sum_deltas running_lines_delta inbox).
Proof.
  revert c. induction inbox as [|m inbox IH]; intros c Hs Hin Ho Hr;
    simpl; rewrite Hs; simpl.
  { by rewrite !Z.add_0_r, !wrap_int32_id. }
  apply not_elem_of_cons in Hin as [Hne Hin].
  pose proof (active_select_state find_closest_peers c m) as Hm.
  destruct (active_select_counters c m Ho Hr) as [Eo Er].
  destruct (active_select find_closest_peers c m) as [c1 ev1]. simpl in *.
  assert (state c1 = main_running) as Hs1.
  { rewrite Hm, Hs. by destruct m. }
  assert (int32 (num_open_lines c1)) as Ho1 by (rewrite Eo; apply wrap_int32_range).
  assert (int32 (num_running_lines c1)) as Hr1 by (rewrite Er; apply wrap_int32_range).
  destruct (IH c1 Hs1 Hin Ho1 Hr1) as [IHo IHr].
  destruct (run_active_loop find_closest_peers c1 inbox) as [[[c2 ev2] rest] w].
  simpl in *. rewrite IHo, IHr, Eo, Er, !wrap_int32_add.
  split; f_equal; lia.
Qed.

(** X18. Round trips in the active loop: a line that activates and then
    deactivates, with no line active under its token before, leaves the
    controller as it was, counter included; and so does a line that
    registers and then unregisters without its peer being down, when no
    line was registered for its peer before. *)
Theorem activate_register_roundtrip c l :
  active_lines c !! prv_key_id l = None →
  lines c !! peer l = None →
  peer_down l = false →
  int32 (num_open_lines c) → int32 (num_running_lines c) →
  (active_select find_closest_peers
     (active_select find_closest_peers c (ActivateLine l)).1 (DeactivateLine l)).1 = c
  ∧ (active_select find_closest_peers
       (active_select find_closest_peers c (RegisterLine l)).1 (UnregisterLine l)).1 = c.
Proof.
  intros Ha Hl Hd Ho Hr. destruct c as [st ls als ps no nr sk nx]. simpl in *.
  split.
  - unfold with_active_lines. simpl.
    rewrite (delete_insert_id als _ _ Ha), wrap_int32_add.
    replace (no + 1 + -1) with no by lia. by rewrite wrap_int32_id.
  - unfold unregister_line, with_lines. rewrite Hd. simpl.
    rewrite (delete_insert_id ls _ _ Hl), wrap_int32_add.
    replace (nr + 1 + -1) with nr by lia. by rewrite wrap_int32_id.
Qed.

(** What answers what. *)
Definition answers (m : msg) (e : event) : bool :=
  match m, e with
  | GetActiveLine _, ReplyLine _ => true
  | GetLine _ _ _, ReplyLine _ => true
  | GetPeer _, ReplyPeer _ => true
  | AddPeer _, ReplyAddPeer _ _ => true
  | GetClosestPeers _ _, ReplyClosestPeers _ => true
  | _, _ => false
  end.

Lemma get_line_replies c cmd :
  ∃ l, replies (get_line c cmd).2 = if cmd_reply cmd then [ReplyLine l] else [].
Proof.
  unfold get_line, reply_line. destruct (lines c !! cmd_hashname cmd) as [l|].
  { exists (Some l). by destruct (cmd_reply cmd). }
  destruct (peer_table_add_peer _ _) as [[peers' p] disc]. simpl.
  destruct (is_down p); [exists None; by destruct (cmd_reply cmd)|].
  destruct (_ && _); eexists; by destruct (cmd_reply cmd).
Qed.

(** X19. In the active loop every request that comes through the
    mailbox is answered once, with an answer of its kind, and nothing else
    is answered; the line [add_peer] may open for a discovered peer is
    opened without an answer of its own.  In the terminating loop an
    [AddPeer] is taken off the channel and never answered. *)
Theorem active_select_answers_once c m :
  match replies (active_select find_closest_peers c m).2 with
  | [] => ∀ e, answers m e = false
  | [e] => answers m e = true
  | _ => False
  end
  ∧ ∀ a, replies (terminating_select c (AddPeer a)).2 = [].
Proof.
  split; [|done].
  destruct m; unfold active_select; cbn [snd]; try done.
  - destruct (get_line_replies c
                {| cmd_hashname := h; cmd_addr := a; cmd_pub := pub;
                   cmd_reply := true |}) as [l ->]. done.
  - unfold add_peer. destruct (peer_table_add_peer _ _) as [[peers' p] disc].
    destruct disc; [|done].
    destruct (get_line_replies (with_peers peers' c)
                {| cmd_hashname := hashname (p_addr p); cmd_addr := addr_zero;
                   cmd_pub := None; cmd_reply := false |}) as [l E].
    destruct (get_line _ _) as [c1 ev1]. simpl in *.
    by rewrite replies_app, E.
Qed.

End counters.

(** ** GetLine, again *)

(** X20. A line that [get_line] answers with is the line every later
    request for the same hashname is answered with, whatever its hints:
    the second request changes nothing and opens nothing. *)
Theorem get_line_again c cmd cmd' l :
  cmd_hashname cmd' = cmd_hashname cmd →
  ReplyLine (Some l) ∈ (get_line c cmd).2 →
  get_line (get_line c cmd).1 cmd' = ((get_line c cmd).1, reply_line cmd' (Some l)).
Proof.
  intros Hh. rewrite (get_line_unfold c cmd).
  assert (∀ x, ReplyLine (Some l) ∈ reply_line cmd x → x = Some l) as Hrep.
  { intros x. unfold reply_line. destruct (cmd_reply cmd).
    - intros Hin%list_elem_of_singleton. congruence.
    - intros Hin. by apply elem_of_nil in Hin. }
  destruct (lines c !! cmd_hashname cmd) as [l0|] eqn:El.
  { simpl. intros [= ->]%Hrep. unfold get_line. by rewrite Hh, El. }
  cbn zeta. destruct (peer_is_down c (cmd_hashname cmd)).
  { simpl. by intros [=]%Hrep. }
  destruct (dialable (merged_addr c cmd)); cycle 1.
  { simpl. by intros [=]%Hrep. }
  cbn [fst snd]. intros Hin.
  assert (opened_line c cmd = l) as <-.
  { apply elem_of_app in Hin as [Hin|Hin].
    - repeat (apply elem_of_cons in Hin as [Hin|Hin]; [discriminate Hin|]).
      by apply elem_of_nil in Hin.
    - apply Hrep in Hin. congruence. }
  unfold get_line at 1. cbn [lines]. by rewrite Hh, lookup_insert_eq.
Qed.

Lemma activate_register_roundtrip_witness :
  active_lines (main_controller_open false) !! prv_key_id line_bob = None
  ∧ lines (main_controller_open false) !! peer line_bob = None
  ∧ peer_down line_bob = false
  ∧ int32 (num_open_lines (main_controller_open false))
  ∧ int32 (num_running_lines (main_controller_open false))
  ∧ (active_select no_closest_peers
       (active_select no_closest_peers (main_controller_open false)
          (ActivateLine line_bob)).1 (DeactivateLine line_bob)).1
    = main_controller_open false
  ∧ (active_select no_closest_peers
       (active_select no_closest_peers (main_controller_open false)
          (RegisterLine line_bob)).1 (UnregisterLine line_bob)).1
    = main_controller_open false.
Proof.
  assert (int32 0) as H0 by (unfold int32; lia).
  split; [done|]. split; [done|]. split; [done|]. split; [exact H0|].
  split; [exact H0|].
  exact (activate_register_roundtrip no_closest_peers (main_controller_open false)
           line_bob eq_refl eq_refl eq_refl H0 H0).
Defined.

(** The line is activated twice and registered once: the counter of
    open lines says two, with one line in [active_lines]. *)
Lemma active_loop_counters_witness :
  state (main_controller_open false) = main_running
  ∧ (Shutdown ∉ [RegisterLine line_bob; ActivateLine line_bob; ActivateLine line_bob])
  ∧ int32 (num_open_lines (main_controller_open false))
  ∧ int32 (num_running_lines (main_controller_open false))
  ∧ num_open_lines
      (run_active_loop no_closest_peers (main_controller_open false)
         [RegisterLine line_bob; ActivateLine line_bob; ActivateLine line_bob]).1.1.1
    = 2
  ∧ num_running_lines
      (run_active_loop no_closest_peers (main_controller_open false)
         [RegisterLine line_bob; ActivateLine line_bob; ActivateLine line_bob]).1.1.1
    = 1.
Proof.
  assert (int32 0) as H0 by (unfold int32; lia).
  assert (Shutdown ∉ [RegisterLine line_bob; ActivateLine line_bob;
                      ActivateLine line_bob]) as Hn.
  { intros Hin.
    repeat (apply elem_of_cons in Hin as [Hin|Hin]; [discriminate Hin|]).
    by apply elem_of_nil in Hin. }
  split; [done|]. split; [exact Hn|]. split; [exact H0|]. split; [exact H0|].
  exact (active_loop_counters no_closest_peers (main_controller_open false)
           [RegisterLine line_bob; ActivateLine line_bob; ActivateLine line_bob]
           eq_refl Hn H0 H0).
Defined.

Lemma get_line_again_witness :
  cmd_hashname cmd_bob = cmd_hashname
    {| cmd_hashname := "bob"; cmd_addr := addr_bob; cmd_pub := None;
       cmd_reply := true |}
  ∧ ReplyLine (Some {| line_ptr := 0; prv_key_id := EmptyString; peer := "bob";
                       peer_down := false |})
    ∈ (get_line (main_controller_open false)
         {| cmd_hashname := "bob"; cmd_addr := addr_bob; cmd_pub := None;
            cmd_reply := true |}).2
  ∧ get_line
      (get_line (main_controller_open false)
         {| cmd_hashname := "bob"; cmd_addr := addr_bob; cmd_pub := None;
            cmd_reply := true |}).1 cmd_bob
    = ((get_line (main_controller_open false)
          {| cmd_hashname := "bob"; cmd_addr := addr_bob; cmd_pub := None;
             cmd_reply := true |}).1,
       reply_line cmd_bob
         (Some {| line_ptr := 0; prv_key_id := EmptyString; peer := "bob";
                  peer_down := false |})).
Proof.
  assert (ReplyLine (Some {| line_ptr := 0; prv_key_id := EmptyString; peer := "bob";
                             peer_down := false |})
          ∈ (get_line (main_controller_open false)
               {| cmd_hashname := "bob"; cmd_addr := addr_bob; cmd_pub := None;
                  cmd_reply := true |}).2) as Hin.
  { rewrite get_line_opens. simpl.
    apply list_elem_of_further, list_elem_of_further, list_elem_of_here. }
  split; [done|]. split; [exact Hin|].
  exact (get_line_again (main_controller_open false)
           {| cmd_hashname := "bob"; cmd_addr := addr_bob; cmd_pub := None;
              cmd_reply := true |} cmd_bob _ eq_refl Hin).
Defined.

End controller.
